(** * CommandHandler: a shallow embedding of [CommandHandler.h]

    The C++ header is embedded as executable Rocq functions.

    - A [char] is its integer value, a [Z]; a buffer is a [list Z] that is
      read with [!!] and written with [<[i:=c]>]; a [char*] into the buffer
      is an offset, and a pointer that may be null is an [option].
    - [unsigned int] arithmetic wraps modulo [2 ^ int_bits]; [uint32_t]
      arithmetic wraps modulo [2 ^ 32].
    - Reading outside the buffer or through a null pointer has no defined
      result in C++; the functions that can do so return [None] there.
    - Counters that walk a buffer or the table are natural numbers: what
      they count is far below the range of [int].
    - A command function is known by its address and by the indices it
      asks its view for; calling it is recorded in a trace of [Call]s. *)

From Stdlib Require Import ZArith Lia Bool String Ascii.
From stdpp Require Import base option list.

Open Scope Z_scope.

(** ** Characters and C strings *)

Definition NUL : Z := 0.
Definition TAB : Z := 9.     (* '\t' *)
Definition LF : Z := 10.     (* '\n' *)
Definition CR : Z := 13.     (* '\r' *)
Definition SPACE : Z := 32.  (* ' '  *)

(** The characters of a string literal, without its terminator. *)
Definition chars (s : string) : list Z :=
  map (fun a => Z.of_nat (nat_of_ascii a)) (list_ascii_of_string s).

(** The C string that starts at offset [p] of [mem]: the characters up to
    the first NUL. *)
Fixpoint until_NUL (l : list Z) : list Z :=
  match l with
  | [] => []
  | c :: l' => if c =? NUL then [] else c :: until_NUL l'
  end.

Definition c_str (mem : list Z) (p : nat) : list Z := until_NUL (drop p mem).

(** ** Machine integers *)

(** Width of [int] and [unsigned int] on the AVR targets of [Arduino.h]. *)
Definition int_bits : Z := 16.

Definition uint (x : Z) : Z := x mod 2 ^ int_bits.
Definition uint32 (x : Z) : Z := x mod 2 ^ 32.

(** [tolower] of the C locale. *)
Definition tolower (c : Z) : Z :=
  if (65 <=? c) && (c <=? 90) then c + 32 else c.

(** ** Return codes *)

Inductive CommandHandlerReturn : Set :=
| NO_ERROR
| COMMAND_NOT_FOUND
| WRONG_NUM_OF_PARAMS
| ERROR_PARSING_COMMAND
| EMPTY_COMMAND_STRING
| NO_COMMAND_WAITING
| MALLOC_ERROR
| OUT_OF_MEM
| BUFFER_FULL
| COMMAND_TOO_LONG
| EEPROM_FULL
| UNKNOWN_ERROR.

#[global] Instance CommandHandlerReturn_eq_dec : EqDecision CommandHandlerReturn.
Proof. solve_decision. Defined.

(** ** [CommandLookup::crc32b] *)

(** The inner loop, [for (j = 7; j >= 0; j--)]: [n] rounds are left. *)
Fixpoint crc32b_rounds (n : nat) (crc : Z) : Z :=
  match n with
  | O => crc
  | S n' =>
      let mask := uint32 (- Z.land crc 1) in
      crc32b_rounds n' (Z.lxor (Z.shiftr crc 1) (Z.land 0xEDB88320 mask))
  end.

(** The outer loop, [while (str[i] != 0)], reading [str[i]] at offset
    [str + i] of [mem]. *)
Fixpoint crc32b_loop (fuel : nat) (mem : list Z) (str i : nat) (crc : Z)
  : option Z :=
  match fuel with
  | O => None
  | S fuel' =>
      match mem !! (str + i)%nat with
      | None => None
      | Some c =>
          if c =? NUL then Some crc
          else
            let byte := uint32 (tolower c) in
            let crc := Z.lxor crc byte in
            crc32b_loop fuel' mem str (S i) (crc32b_rounds 8 crc)
      end
  end.

Definition crc32b (mem : list Z) (str : nat) : option Z :=
  crc ← crc32b_loop (S (length mem)) mem str 0 0xFFFFFFFF;
  Some (uint32 (Z.lnot crc)).

(** The hash of a string literal. *)
Definition hash_of (s : string) : option Z := crc32b (chars s ++ [NUL]) 0.

(** ** [ParameterLookup] *)

(** [_theCommand] is the buffer the pointer of that name refers to, from
    that address on; the view and its owner name the same bytes, so the
    owner takes the buffer back from the view when the view goes away.
    [_endOfString] is an offset from [_theCommand]. *)
Record ParameterLookup := {
  _theCommand : list Z;
  _endOfString : nat;
  _stringHasNULLS : bool;
  _size : Z
}.

(** The loop of [subSpacesForNULL]; [loop] is the offset of the pointer of
    that name. *)
Fixpoint subSpaces_loop (fuel : nat) (mem : list Z) (loop : nat) (size : Z)
  : option (list Z * nat * Z) :=
  match fuel with
  | O => None
  | S fuel' =>
      match mem !! loop with
      | None => None
      | Some c =>
          if c =? NUL then Some (mem, loop, size)
          else if (c =? SPACE) || (c =? TAB) then
            let mem' := <[loop := NUL]> mem in
            let size' :=
              if bool_decide (0 < loop)%nat
                 && negb (default NUL (mem' !! (loop - 1)%nat) =? NUL)
              then uint (size + 1) else size in
            subSpaces_loop fuel' mem' (S loop) size'
          else subSpaces_loop fuel' mem (S loop) size
      end
  end.

Definition subSpacesForNULL (p : ParameterLookup) : option ParameterLookup :=
  '(mem, loop, size) ← subSpaces_loop (S (length (_theCommand p)))
                          (_theCommand p) 0 1;
  Some {| _theCommand := mem; _endOfString := loop;
          _stringHasNULLS := true; _size := size |}.

(** The loop of [restoreSpaces]. *)
Fixpoint restore_loop (fuel : nat) (mem : list Z) (loop endOfString : nat)
  : option (list Z) :=
  match fuel with
  | O => None
  | S fuel' =>
      if bool_decide (loop < endOfString)%nat then
        match mem !! loop with
        | None => None
        | Some c =>
            let mem' := if c =? NUL then <[loop := SPACE]> mem else mem in
            restore_loop fuel' mem' (S loop) endOfString
        end
      else Some mem
  end.

Definition restoreSpaces (p : ParameterLookup) : option ParameterLookup :=
  mem ← restore_loop (S (_endOfString p)) (_theCommand p) 0 (_endOfString p);
  Some {| _theCommand := mem; _endOfString := _endOfString p;
          _stringHasNULLS := false; _size := _size p |}.

(** The loop of [getParamPtr]; the result [Some None] is the null pointer. *)
Fixpoint getParam_loop (fuel : nat) (mem : list Z) (endOfString : nat)
    (paramPtr : nat) (count : Z) : option (option nat) :=
  match fuel with
  | O => None
  | S fuel' =>
      if bool_decide (paramPtr < endOfString)%nat then
        match mem !! paramPtr with
        | None => None
        | Some c =>
            if (count =? 0) && negb (c =? NUL) then Some (Some paramPtr)
            else
              let count' :=
                if (c =? NUL) && bool_decide (0 < paramPtr)%nat
                   && negb (default NUL (mem !! (paramPtr - 1)%nat) =? NUL)
                then count - 1 else count in
              getParam_loop fuel' mem endOfString (S paramPtr) count'
        end
      else Some None
  end.

Definition getParamPtr (idx : Z) (p : ParameterLookup)
  : option (ParameterLookup * option nat) :=
  p ← (if _stringHasNULLS p then Some p else subSpacesForNULL p);
  ptr ← getParam_loop (S (_endOfString p)) (_theCommand p) (_endOfString p)
          0 idx;
  Some (p, ptr).

(** The constructor [ParameterLookup(char* commandStr)]. *)
Definition ParameterLookup_new (commandStr : list Z) : option ParameterLookup :=
  subSpacesForNULL {| _theCommand := commandStr; _endOfString := 0;
                      _stringHasNULLS := false; _size := 0 |}.

(** [operator[]]: the view after the call, and the pointer returned. *)
Definition op_index (idx : Z) (p : ParameterLookup)
  : option (ParameterLookup * option nat) :=
  if idx =? -1 then
    p ← (if _stringHasNULLS p then restoreSpaces p else Some p);
    Some (p, Some 0%nat)
  else if idx =? -2 then
    '(p, ptr) ← getParamPtr 1 p;
    p ← restoreSpaces p;
    Some (p, ptr)
  else
    p ← (if negb (_stringHasNULLS p) then subSpacesForNULL p else Some p);
    getParamPtr idx p.

Definition size (p : ParameterLookup) : Z := _size p.

(** What the caller reads through the pointer [operator[]] returned:
    [None] for the null pointer. *)
Definition deref (r : ParameterLookup * option nat) : option (list Z) :=
  c_str (_theCommand r.1) <$> r.2.

(** A run of [operator[]] calls, one per index, on the same view. *)
Fixpoint queries (idxs : list Z) (p : ParameterLookup) : option ParameterLookup :=
  match idxs with
  | [] => Some p
  | idx :: idxs' => '(p', _) ← op_index idx p; queries idxs' p'
  end.

(** ** [CommandLookup] *)

(** What a view shows: the bytes from [_theCommand] to [_endOfString]
    inclusive. *)
Definition visible (p : ParameterLookup) : list Z :=
  take (S (_endOfString p)) (_theCommand p).

(** A command function receives the view as [const ParameterLookup&]: all
    it can do to it is to call [operator[]].  It is modelled by its address
    and by the indices it asks for, which may depend on what the view shows
    and on [size()]. *)
Record commandFunction := {
  address : nat;
  asks : list Z -> Z -> list Z
}.

(** One call [f(params)], as the trace records it: the address of the
    function, what the view showed when it was called, and [params.size()]. *)
Record Call := {
  callee : nat;
  call_buffer : list Z;
  call_size : Z
}.

Definition call_of (f : commandFunction) (p : ParameterLookup) : Call :=
  {| callee := address f; call_buffer := visible p; call_size := size p |}.

(** The call [f(params)]: the view as the function leaves it, and the
    record of the call. *)
Definition invoke (f : commandFunction) (params : ParameterLookup)
  : option (ParameterLookup * Call) :=
  params' ← queries (asks f (visible params) (size params)) params;
  Some (params', call_of f params).

Module dataStruct.
Record t := {
  hash : Z;              (* unsigned long *)
  n : Z;                 (* int *)
  f : commandFunction
}.
End dataStruct.

(** [_commands] has [array_size] slots. *)
Record CommandLookup := {
  _commands : list dataStruct.t;
  _commandsIdx : nat
}.

Definition array_size (l : CommandLookup) : nat := length (_commands l).

(** [registerCommand(long keyHash, int, commandFunction* )]; [d.hash] is an
    [unsigned long] of 32 bits. *)
Definition CommandLookup_registerCommand (keyHash : Z) (num_of_parameters : Z)
    (pointer_to_function : commandFunction) (l : CommandLookup)
  : CommandHandlerReturn * CommandLookup :=
  if bool_decide (array_size l <= _commandsIdx l)%nat then (OUT_OF_MEM, l)
  else
    let d := {| dataStruct.hash := uint32 keyHash;
                dataStruct.n := num_of_parameters;
                dataStruct.f := pointer_to_function |} in
    (NO_ERROR, {| _commands := <[_commandsIdx l := d]> (_commands l);
                  _commandsIdx := S (_commandsIdx l) |}).

(** The search loop of [callStoredCommand]: the value of [foundIdx] when
    the loop is left. *)
Fixpoint search_loop (fuel : nat) (l : CommandLookup) (reqHash : Z) (i : nat)
  : option Z :=
  match fuel with
  | O => None
  | S fuel' =>
      if bool_decide (i < _commandsIdx l)%nat then
        d ← _commands l !! i;
        if reqHash =? dataStruct.hash d then Some (Z.of_nat i)
        else search_loop fuel' l reqHash (S i)
      else Some (-1)
  end.

Definition callStoredCommand (l : CommandLookup) (params : ParameterLookup)
  : option (CommandHandlerReturn * ParameterLookup * list Call) :=
  '(params, ptr) ← op_index 0 params;
  str ← ptr;
  reqHash ← crc32b (_theCommand params) str;
  foundIdx ← search_loop (S (_commandsIdx l)) l reqHash 0;
  if foundIdx =? -1 then Some (COMMAND_NOT_FOUND, params, [])
  else
    d ← _commands l !! Z.to_nat foundIdx;
    if negb (uint (dataStruct.n d) =? uint (size params - 1))
       && negb (dataStruct.n d =? -1)
    then Some (WRONG_NUM_OF_PARAMS, params, [])
    else
      '(params, call) ← invoke (dataStruct.f d) params;
      Some (NO_ERROR, params, [call]).

(** ** [CommandHandler] *)

Definition COMMAND_SIZE_MAX : nat := 150.
Definition EEPROM_SIZE_MAX : nat := 256.
Definition EEPROM_STORED_COMMAND_FLAG_LOCATION : nat := 0.
Definition EEPROM_STORED_COMMAND_LOCATION : nat :=
  EEPROM_STORED_COMMAND_FLAG_LOCATION + 1.

(** [_inputBuffer] has [COMMAND_SIZE_MAX + 1] bytes. *)
Record CommandHandler := {
  _lookupList : CommandLookup;
  _bufferFull : bool;
  _inputBuffer : list Z;
  _bufferLength : nat;
  _command_too_long : bool
}.

Definition with_lookupList (l : CommandLookup) (h : CommandHandler) :=
  {| _lookupList := l; _bufferFull := _bufferFull h;
     _inputBuffer := _inputBuffer h; _bufferLength := _bufferLength h;
     _command_too_long := _command_too_long h |}.

Definition with_inputBuffer (b : list Z) (h : CommandHandler) :=
  {| _lookupList := _lookupList h; _bufferFull := _bufferFull h;
     _inputBuffer := b; _bufferLength := _bufferLength h;
     _command_too_long := _command_too_long h |}.

(** The constructor: [raw_commands] and [raw_buffer] are what the two
    arrays hold before the constructor runs. *)
Definition CommandHandler_new (raw_commands : list dataStruct.t)
    (raw_buffer : list Z) : CommandHandler :=
  {| _lookupList := {| _commands := raw_commands; _commandsIdx := 0 |};
     _bufferFull := false;
     _inputBuffer := <[0%nat := NUL]> raw_buffer;
     _bufferLength := 0;
     _command_too_long := false |}.

Definition bufferFull (h : CommandHandler) : bool := _bufferFull h.
Definition commandWaiting (h : CommandHandler) : bool := bufferFull h.

Definition clearBuffer (h : CommandHandler) : CommandHandler :=
  {| _lookupList := _lookupList h;
     _bufferFull := false;
     _inputBuffer := <[0%nat := NUL]> (_inputBuffer h);
     _bufferLength := 0;
     _command_too_long := false |}.

Definition registerCommand (hash : Z) (num_of_parameters : Z)
    (pointer_to_function : commandFunction) (h : CommandHandler)
  : CommandHandlerReturn * CommandHandler :=
  let '(r, l) := CommandLookup_registerCommand hash num_of_parameters
                   pointer_to_function (_lookupList h) in
  (r, with_lookupList l h).

(** [addCommandChar]: after the test of [_bufferFull] comes an if chain in
    which the branch of the newline has no [return]; [returned] is the code
    a branch returns, if it returns, and the statement after the chain is
    [return CommandHandlerReturn::UNKNOWN_ERROR]. *)
Definition addCommandChar (c : Z) (h : CommandHandler)
  : CommandHandlerReturn * CommandHandler :=
  if _bufferFull h then (BUFFER_FULL, h)
  else
    let '(returned, h) :=
      if c =? LF then
        (None,
         {| _lookupList := _lookupList h; _bufferFull := true;
            _inputBuffer := _inputBuffer h; _bufferLength := _bufferLength h;
            _command_too_long := _command_too_long h |})
      else if c =? CR then (Some NO_ERROR, h)
      else if _command_too_long h
              || bool_decide (COMMAND_SIZE_MAX - 1 <= _bufferLength h)%nat then
        (Some COMMAND_TOO_LONG,
         {| _lookupList := _lookupList h; _bufferFull := _bufferFull h;
            _inputBuffer := _inputBuffer h; _bufferLength := _bufferLength h;
            _command_too_long := true |})
      else
        let buf := <[_bufferLength h := c]> (_inputBuffer h) in
        let len := S (_bufferLength h) in
        (Some NO_ERROR,
         {| _lookupList := _lookupList h; _bufferFull := _bufferFull h;
            _inputBuffer := <[len := NUL]> buf; _bufferLength := len;
            _command_too_long := _command_too_long h |}) in
    match returned with
    | Some r => (r, h)
    | None => (UNKNOWN_ERROR, h)
    end.

Definition executeCommand (h : CommandHandler)
  : option (CommandHandlerReturn * CommandHandler * list Call) :=
  let error := NO_ERROR in
  let error := if negb (commandWaiting h) then NO_COMMAND_WAITING else error in
  let error := if _command_too_long h then COMMAND_TOO_LONG else error in
  let error :=
    if bool_decide (_bufferLength h = 0%nat) && bool_decide (error = NO_ERROR)
    then EMPTY_COMMAND_STRING else error in
  '(error, h, calls) ←
    (if bool_decide (error = NO_ERROR) then
       lookupObj ← ParameterLookup_new (_inputBuffer h);
       '(error, lookupObj, calls) ← callStoredCommand (_lookupList h) lookupObj;
       Some (error, with_inputBuffer (_theCommand lookupObj) h, calls)
     else Some (error, h, []));
  Some (error, clearBuffer h, calls).

(** ** Startup commands in the EEPROM *)

(** The EEPROM: what the code reads at each address. *)
Definition EEPROM := nat -> Z.

(** The loop of [executeStartupCommands]. *)
Fixpoint startup_loop (fuel : nat) (eeprom : EEPROM) (EEPROM_idx : nat)
    (numCharsRead : nat) (result : CommandHandlerReturn) (h : CommandHandler)
    (calls : list Call)
  : option (CommandHandlerReturn * CommandHandler * list Call) :=
  match fuel with
  | O => None
  | S fuel' =>
      if bool_decide (EEPROM_SIZE_MAX <= numCharsRead)%nat then
        Some (result, (addCommandChar LF h).2, calls)
      else
        let c := eeprom EEPROM_idx in
        if c =? NUL then Some (result, h, calls)
        else
          '(result, h, calls) ←
            (if bool_decide (NO_ERROR = result) then
               let h := (addCommandChar c h).2 in
               if commandWaiting h then
                 '(result, h, calls') ← executeCommand h;
                 Some (result, h, calls ++ calls')
               else Some (result, h, calls)
             else Some (result, h, calls));
          startup_loop fuel' eeprom (S EEPROM_idx) (S numCharsRead)
            result h calls
  end.

Definition executeStartupCommands (eeprom : EEPROM) (h : CommandHandler)
  : option (CommandHandlerReturn * CommandHandler * list Call) :=
  let fromEEPROM := eeprom EEPROM_STORED_COMMAND_FLAG_LOCATION in
  if negb (fromEEPROM =? 1) then Some (NO_COMMAND_WAITING, h, [])
  else
    startup_loop (S EEPROM_SIZE_MAX) eeprom EEPROM_STORED_COMMAND_LOCATION 0
      NO_ERROR h [].

(** [EEPROM.update(a, v)]. *)
Definition EEPROM_update (a : nat) (v : Z) (eeprom : EEPROM) : EEPROM :=
  fun x => if (x =? a)%nat then v else eeprom x.

(** The loop of [storeStartupCommand] that looks for the end of the command
    already stored, when appending. *)
Fixpoint stored_end (fuel : nat) (eeprom : EEPROM) (eeprom_ptr : nat) : nat :=
  match fuel with
  | O => eeprom_ptr
  | S fuel' =>
      if bool_decide (eeprom_ptr < EEPROM_SIZE_MAX - 2)%nat then
        if eeprom (EEPROM_STORED_COMMAND_LOCATION + eeprom_ptr)%nat =? NUL
        then eeprom_ptr
        else stored_end fuel' eeprom (S eeprom_ptr)
      else eeprom_ptr
  end.

(** The loop of [storeStartupCommand] that copies [command], whose
    characters from [commandIdx] on are the list given, a ';' stored as a
    newline. *)
Fixpoint store_loop (command : list Z) (eeprom : EEPROM) (eeprom_ptr : nat)
  : EEPROM * nat :=
  match command with
  | [] => (eeprom, eeprom_ptr)
  | c :: command' =>
      if negb (c =? NUL) && bool_decide (eeprom_ptr < EEPROM_SIZE_MAX - 2)%nat then
        let toBeStored := if negb (c =? 59) then c else LF in
        store_loop command'
          (EEPROM_update (EEPROM_STORED_COMMAND_LOCATION + eeprom_ptr) toBeStored
             eeprom)
          (S eeprom_ptr)
      else (eeprom, eeprom_ptr)
  end.

(** [storeStartupCommand(const char* command, bool append)]; [command] is
    the characters of the string. *)
Definition storeStartupCommand (command : list Z) (append : bool)
    (eeprom : EEPROM) : CommandHandlerReturn * EEPROM :=
  let eeprom_ptr :=
    if append then stored_end (EEPROM_SIZE_MAX - 2) eeprom 0 else 0%nat in
  let availableSpace := (EEPROM_SIZE_MAX - 2 - eeprom_ptr)%nat in
  if bool_decide (availableSpace < length (until_NUL command))%nat
  then (EEPROM_FULL, eeprom)
  else
    let eeprom := EEPROM_update EEPROM_STORED_COMMAND_FLAG_LOCATION 1 eeprom in
    let '(eeprom, eeprom_ptr) := store_loop command eeprom eeprom_ptr in
    let eeprom :=
      EEPROM_update (EEPROM_STORED_COMMAND_LOCATION + eeprom_ptr) LF eeprom in
    let eeprom_ptr := S eeprom_ptr in
    let eeprom :=
      EEPROM_update (EEPROM_STORED_COMMAND_LOCATION + eeprom_ptr) NUL eeprom in
    (NO_ERROR, eeprom).

(** An EEPROM image: the listed bytes from address 0, erased cells after
    them.  An erased cell holds 0xFF, which the code reads into a [char],
    signed on these targets: -1. *)
Definition eeprom_of (bytes : list Z) : EEPROM := fun a => default (-1) (bytes !! a).

(** ** The rest of the interface *)

(** Conversion of a [uint32_t] to [long], 32 bits wide on these targets. *)
Definition to_long (x : Z) : Z :=
  let y := x mod 2 ^ 32 in if y <? 2 ^ 31 then y else y - 2 ^ 32.

(** [CommandLookup::registerCommand(const char* command, int, ...)], the
    deprecated form that hashes the keyword at run time; [command] is an
    offset into [mem]. *)
Definition CommandLookup_registerCommand_str (mem : list Z) (command : nat)
    (num_of_parameters : Z) (pointer_to_function : commandFunction)
    (l : CommandLookup) : option (CommandHandlerReturn * CommandLookup) :=
  crc ← crc32b mem command;
  let keyHash := to_long crc in
  Some (CommandLookup_registerCommand keyHash num_of_parameters
          pointer_to_function l).

Definition registerCommand_str (mem : list Z) (command : nat)
    (num_of_parameters : Z) (pointer_to_function : commandFunction)
    (h : CommandHandler) : option (CommandHandlerReturn * CommandHandler) :=
  '(r, l) ← CommandLookup_registerCommand_str mem command num_of_parameters
              pointer_to_function (_lookupList h);
  Some (r, with_lookupList l h).

(** [wipeStartupCommand]. *)
Definition wipeStartupCommand (eeprom : EEPROM) : bool * EEPROM :=
  (true, EEPROM_update EEPROM_STORED_COMMAND_FLAG_LOCATION 0 eeprom).

(** The loop of [getStartupCommand]: the buffer and [bufIdx] when the loop
    is left.  A write [buf[bufIdx] = c] past the end of [buf] has no
    defined result. *)
Fixpoint getStartup_loop (fuel : nat) (eeprom : EEPROM) (buf : list Z)
    (EEPROM_idx bufIdx : nat) : option (list Z * nat) :=
  match fuel with
  | O => None
  | S fuel' =>
      if bool_decide (bufIdx < EEPROM_SIZE_MAX - 1)%nat then
        let c := eeprom EEPROM_idx in
        if c =? NUL then Some (buf, bufIdx)
        else if bool_decide (bufIdx < length buf)%nat then
          getStartup_loop fuel' eeprom (<[bufIdx := c]> buf)
            (S EEPROM_idx) (S bufIdx)
        else None
      else Some (buf, bufIdx)
  end.

(** [getStartupCommand(char* buf)]: the buffer as the call leaves it. *)
Definition getStartupCommand (eeprom : EEPROM) (buf : list Z)
  : option (list Z) :=
  let fromEEPROM := eeprom EEPROM_STORED_COMMAND_FLAG_LOCATION in
  '(buf, bufIdx) ←
    (if fromEEPROM =? 1 then
       getStartup_loop (S EEPROM_SIZE_MAX) eeprom buf
         EEPROM_STORED_COMMAND_LOCATION 0
     else Some (buf, 0%nat));
  if bool_decide (bufIdx < length buf)%nat
  then Some (<[bufIdx := NUL]> buf) else None.

(** * Definitions for the statements

    Nothing below is part of the embedding.  [token_count], [dispatch_spec]
    and [replay] are written from the documentation, to be compared with
    the embedding; the rest names what the statements talk about. *)

(** ** Tokens *)

Definition is_delim (c : Z) : bool := (c =? SPACE) || (c =? TAB).

(** The tokens of a command: its maximal runs of characters that are
    neither a space nor a tab.  [token_runs in_token s] counts the runs that
    start in [s], where [in_token] says that a run is under way. *)
Fixpoint token_runs (in_token : bool) (s : list Z) : nat :=
  match s with
  | [] => 0
  | c :: s' =>
      if is_delim c then token_runs false s'
      else ((if in_token then 0 else 1) + token_runs true s')%nat
  end.

Definition token_count (s : list Z) : nat := token_runs false s.

(** Whether the characters [s] end inside a token, [in_token] saying
    whether they start inside one. *)
Fixpoint ends_in_token (in_token : bool) (s : list Z) : bool :=
  match s with
  | [] => in_token
  | c :: s' => ends_in_token (negb (is_delim c)) s'
  end.

(** Token 0, the keyword: the leading delimiters are skipped, and the token
    runs to the next delimiter or to the end. *)
Fixpoint skip_delims (s : list Z) : list Z :=
  match s with
  | [] => []
  | c :: s' => if is_delim c then skip_delims s' else s
  end.

Fixpoint token_at (s : list Z) : list Z :=
  match s with
  | [] => []
  | c :: s' => if is_delim c then [] else c :: token_at s'
  end.

Definition first_token (s : list Z) : list Z := token_at (skip_delims s).

Definition keyword_offset (s : list Z) : nat :=
  (length s - length (skip_delims s))%nat.

(** ** More on tokens *)

(** The tokens of a command, in order. *)
Fixpoint tokens (s : list Z) : list (list Z) :=
  match s with
  | [] => []
  | c :: s' =>
      if is_delim c then tokens s'
      else
        match s' with
        | [] => [[c]]
        | c' :: _ =>
            if is_delim c' then [c] :: tokens s'
            else
              match tokens s' with
              | t :: ts => (c :: t) :: ts
              | [] => [[c]]
              end
        end
  end.

(** Whether [s] starts with a character of a token. *)
Definition starts_token (s : list Z) : bool :=
  match s with
  | c :: _ => negb (is_delim c)
  | [] => false
  end.

(** Where token [n] starts in [s]; with [in_token] set, [s] starts inside a
    token that does not count. *)
Fixpoint token_offset (n : nat) (in_token : bool) (s : list Z) : option nat :=
  match s with
  | [] => None
  | c :: s' =>
      if is_delim c then S <$> token_offset n false s'
      else if in_token then S <$> token_offset n true s'
      else
        match n with
        | O => Some 0%nat
        | S n' => S <$> token_offset n' true s'
        end
  end.

(** The parameters of a command: what follows the keyword, from the first
    parameter to the end. *)
Definition parameters (s : list Z) : option (list Z) :=
  (fun o => drop o s) <$> token_offset 1 false s.

(** ** The hash *)

(** One round of the CRC over a byte, after lower-casing. *)
Definition crc_step (crc c : Z) : Z :=
  crc32b_rounds 8 (Z.lxor crc (uint32 (tolower c))).

(** The case-insensitive CRC-32 of a sequence of characters. *)
Definition crc32_lower (s : list Z) : Z :=
  uint32 (Z.lnot (fold_left crc_step s 0xFFFFFFFF)).

(** CRC-32 in the words of the documentation: a 32-bit register seeded
    with all ones; each byte is xored into the low end of the register,
    which is then shifted right eight times, one bit at a time, the
    reversed polynomial 0xEDB88320 being xored in whenever the bit shifted
    out is a one; the result is the complement of the register. *)
Definition crc32_shift (reg : Z) : Z :=
  if Z.odd reg then Z.lxor (reg / 2) 0xEDB88320 else reg / 2.

Definition crc32_byte (reg byte : Z) : Z :=
  Nat.iter 8 crc32_shift (Z.lxor reg byte).

Definition crc32 (bytes : list Z) : Z :=
  0xFFFFFFFF - fold_left crc32_byte bytes 0xFFFFFFFF.

(** ** Views *)

(** The NUL form and the space form of the characters of a command. *)
Definition nullify (s : list Z) : list Z :=
  map (fun c => if is_delim c then NUL else c) s.

Definition tabs_to_spaces (s : list Z) : list Z :=
  map (fun c => if c =? TAB then SPACE else c) s.

(** What [restoreSpaces] does to the bytes it walks over. *)
Definition unnull (w : list Z) : list Z :=
  map (fun c => if c =? NUL then SPACE else c) w.

(** The count [subSpacesForNULL] arrives at on the characters [s], started
    at [size] with [prev] the byte before [s] as the loop left it. *)
Fixpoint sub_size (prev : Z) (s : list Z) (size : Z) : Z :=
  match s with
  | [] => size
  | c :: s' =>
      if is_delim c
      then sub_size NUL s' (if negb (prev =? NUL) then uint (size + 1) else size)
      else sub_size c s' size
  end.

(** A view over the command [s], with [rest] the bytes of the buffer after
    the terminator of [s]: the buffer holds [s] in one of the two forms. *)
Definition view_of (s rest : list Z) (p : ParameterLookup) : Prop :=
  _theCommand p
    = (if _stringHasNULLS p then nullify s else tabs_to_spaces s) ++ NUL :: rest
  /\ _endOfString p = length s
  /\ _size p = sub_size NUL s 1.

(** The view over [s] in the NUL form. *)
Definition null_view (s rest : list Z) : ParameterLookup :=
  {| _theCommand := nullify s ++ NUL :: rest;
     _endOfString := length s;
     _stringHasNULLS := true;
     _size := sub_size NUL s 1 |}.

(** The view over [s] in the space form. *)
Definition space_view (s rest : list Z) : ParameterLookup :=
  {| _theCommand := tabs_to_spaces s ++ NUL :: rest;
     _endOfString := length s;
     _stringHasNULLS := false;
     _size := sub_size NUL s 1 |}.

(** The view as the function [f] leaves it. *)
Definition left_by (f : commandFunction) (p : ParameterLookup) : ParameterLookup :=
  default p (queries (asks f (visible p) (size p)) p).

(** ** Dispatch *)

(** The registered entries, in registration order. *)
Definition registered (l : CommandLookup) : list dataStruct.t :=
  take (_commandsIdx l) (_commands l).

(** An [int] holds the arity of every registered entry. *)
Definition arities_are_int (l : CommandLookup) : Prop :=
  Forall (fun d => - 2 ^ (int_bits - 1) <= dataStruct.n d < 2 ^ (int_bits - 1))
         (registered l).

(** Dispatch in the words of the documentation: the first registered entry
    whose stored hash is the hash of the keyword; [COMMAND_NOT_FOUND] when
    there is none; [WRONG_NUM_OF_PARAMS], with no call, when the arity of
    the entry is not -1 and differs from the token count less one; else one
    call of the function of that entry with the view, and [NO_ERROR]. *)
Definition dispatch_spec (l : CommandLookup) (keyword_hash : Z)
    (params : ParameterLookup) : CommandHandlerReturn * list Call :=
  match list_find (fun d => keyword_hash = dataStruct.hash d) (registered l) with
  | None => (COMMAND_NOT_FOUND, [])
  | Some (_, d) =>
      if bool_decide (dataStruct.n d <> -1 /\ dataStruct.n d <> size params - 1)
      then (WRONG_NUM_OF_PARAMS, [])
      else (NO_ERROR, [call_of (dataStruct.f d) params])
  end.

(** What dispatching the line [s] returns and calls; [None] when the line
    has no keyword. *)
Definition dispatch_line (l : CommandLookup) (s : list Z)
  : option (CommandHandlerReturn * list Call) :=
  '(r, _, calls) ← callStoredCommand l (null_view s []); Some (r, calls).

(** ** Handler states *)

(** Feeding a sequence of characters, one [addCommandChar] each. *)
Definition feed (cs : list Z) (h : CommandHandler) : CommandHandler :=
  foldl (fun h c => (addCommandChar c h).2) h cs.

(** The handler states a program can get to: a new handler, and what
    registering, feeding and executing make of one. *)
Inductive reachable : CommandHandler -> Prop :=
| reachable_new raw_commands raw_buffer :
    length raw_buffer = S COMMAND_SIZE_MAX ->
    reachable (CommandHandler_new raw_commands raw_buffer)
| reachable_register hash n f h :
    reachable h -> reachable (registerCommand hash n f h).2
| reachable_add c h :
    reachable h -> reachable (addCommandChar c h).2
| reachable_execute h r h' calls :
    reachable h -> executeCommand h = Some (r, h', calls) -> reachable h'.

(** What every reachable handler satisfies: the buffer has its
    [COMMAND_SIZE_MAX + 1] bytes, the length leaves room for the terminator,
    the terminator is in place, and the table is within its array. *)
Definition handler_ok (h : CommandHandler) : Prop :=
  length (_inputBuffer h) = S COMMAND_SIZE_MAX
  /\ (_bufferLength h <= COMMAND_SIZE_MAX - 1)%nat
  /\ _inputBuffer h !! _bufferLength h = Some NUL
  /\ (_commandsIdx (_lookupList h) <= array_size (_lookupList h))%nat.

(** [executeCommand] goes on to dispatch the buffered line. *)
Definition dispatches (h : CommandHandler) : Prop :=
  commandWaiting h = true /\ _command_too_long h = false
  /\ _bufferLength h <> 0%nat.

(** The buffered line holds a keyword, so that [params[0]] is not null. *)
Definition has_keyword (h : CommandHandler) : Prop :=
  skip_delims (c_str (_inputBuffer h) 0) <> [].

(** The code [executeCommand] returns when it does not dispatch. *)
Definition idle_code (h : CommandHandler) : CommandHandlerReturn :=
  if _command_too_long h then COMMAND_TOO_LONG
  else if negb (commandWaiting h) then NO_COMMAND_WAITING
  else EMPTY_COMMAND_STRING.

(** Two handlers that differ at most in the bytes of the buffer after the
    terminator of the line received so far. *)
Definition same_line (h1 h2 : CommandHandler) : Prop :=
  _lookupList h1 = _lookupList h2
  /\ _bufferFull h1 = _bufferFull h2
  /\ _command_too_long h1 = _command_too_long h2
  /\ _bufferLength h1 = _bufferLength h2
  /\ take (S (_bufferLength h1)) (_inputBuffer h1)
     = take (S (_bufferLength h1)) (_inputBuffer h2).

(** What a caller does with a handler, and what it sees: the code each call
    returns and the command functions called meanwhile.  A call with no
    defined result shows as [None] and ends the run. *)
Inductive operation : Set :=
| ingest (c : Z)
| execute.

Fixpoint run (ops : list operation) (h : CommandHandler)
  : list (option (CommandHandlerReturn * list Call)) :=
  match ops with
  | [] => []
  | ingest c :: ops' =>
      let '(r, h') := addCommandChar c h in Some (r, []) :: run ops' h'
  | execute :: ops' =>
      match executeCommand h with
      | Some (r, h', calls) => Some (r, calls) :: run ops' h'
      | None => [None]
      end
  end.

(** Of the outcome of a call: the code, whether a line is left waiting,
    and the functions called. *)
Definition seen (x : CommandHandlerReturn * CommandHandler * list Call)
  : CommandHandlerReturn * bool * list nat :=
  (x.1.1, commandWaiting x.1.2, map callee x.2).

(** The characters of a line that reach the buffer: all but the carriage
    returns. *)
Definition payload (line : list Z) : list Z := filter (fun c => c <> CR) line.

(** A handler between two lines: nothing buffered, no flag set. *)
Definition idle (h : CommandHandler) : Prop :=
  _bufferFull h = false /\ _command_too_long h = false
  /\ _bufferLength h = 0%nat.

(** ** Startup commands *)

(** The stored startup command: the bytes [executeStartupCommands] can
    read, up to the first NUL. *)
Definition startup_bytes (eeprom : EEPROM) : list Z :=
  map eeprom (seq EEPROM_STORED_COMMAND_LOCATION EEPROM_SIZE_MAX).

Definition stored_command (eeprom : EEPROM) : list Z :=
  until_NUL (startup_bytes eeprom).

(** Replaying stored bytes in the words of the documentation: each byte goes
    through [addCommandChar]; a completed line is executed at once; the
    first execution that fails ends the replay with its result, and nothing
    more is fed or executed; [NO_ERROR] when no line fails. *)
Fixpoint replay (bytes : list Z) (h : CommandHandler) (calls : list Call)
  : option (CommandHandlerReturn * CommandHandler * list Call) :=
  match bytes with
  | [] => Some (NO_ERROR, h, calls)
  | c :: bytes' =>
      let h := (addCommandChar c h).2 in
      if commandWaiting h then
        '(result, h, calls') ← executeCommand h;
        if bool_decide (result = NO_ERROR)
        then replay bytes' h (calls ++ calls')
        else Some (result, h, calls ++ calls')
      else replay bytes' h calls
  end.

(** What [storeStartupCommand] stores for the characters of a command: a
    ';' is stored as a newline. *)
Definition semis (s : list Z) : list Z :=
  map (fun c => if c =? 59 then LF else c) s.

(** The stored bytes that [storeStartupCommand] keeps: when appending,
    those before the first NUL among the first [EEPROM_SIZE_MAX - 2]. *)
Definition kept (append : bool) (eeprom : EEPROM) : list Z :=
  if append then take (EEPROM_SIZE_MAX - 2) (stored_command eeprom) else [].

(** ** Sample data *)

(** The command "HELO<TAB>1". *)
Definition tabbed_command : list Z := chars "HELO" ++ [TAB] ++ chars "1".

(** Three command functions: one that looks at nothing, one that reads
    the keyword, one that reads its two parameters and then the whole
    line. *)
Definition no_function : commandFunction :=
  {| address := 0; asks := fun _ _ => [] |}.
Definition ping_function : commandFunction :=
  {| address := 7; asks := fun _ _ => [0] |}.
Definition cmd_function : commandFunction :=
  {| address := 8; asks := fun _ _ => [1; 2; -1] |}.

(** A new handler with room for four commands; its arrays start zeroed. *)
Definition fresh : CommandHandler :=
  CommandHandler_new
    (replicate 4 {| dataStruct.hash := 0; dataStruct.n := 0;
                    dataStruct.f := no_function |})
    (replicate (S COMMAND_SIZE_MAX) 0).

(** [fresh] after 150 letters 'A' and no newline. *)
Definition overflowed : CommandHandler := feed (replicate 150 65) fresh.

(** [fresh] after the line "PING". *)
Definition ping_waiting : CommandHandler := feed (chars "PING" ++ [LF]) fresh.

(** [fresh] after registering "ping", with no parameter, for
    [ping_function], and "cmd", with two, for [cmd_function]. *)
Definition two_commands : CommandHandler :=
  (registerCommand (crc32_lower (chars "cmd")) 2 cmd_function
     (registerCommand (crc32_lower (chars "ping")) 0 ping_function fresh).2).2.

(** An EEPROM with the flag set and 256 bytes, none of them NUL, after it:
    the line "X" and 254 letters 'A'. *)
Definition unterminated_eeprom : EEPROM :=
  eeprom_of (1 :: chars "X" ++ [LF] ++ replicate 254 65).

(** An erased EEPROM after [storeStartupCommand("ping;cmd 1 2")]. *)
Definition stored_eeprom : EEPROM :=
  (storeStartupCommand (chars "ping;cmd 1 2") false (eeprom_of [])).2.

Ltac nonzero_chars := cbv; repeat (constructor; [discriminate|]); constructor.

(** * Properties *)

(** ** C strings *)

Lemma until_NUL_app (s rest : list Z) :
  Forall (fun c => c <> NUL) s -> until_NUL (s ++ NUL :: rest) = s.
Proof.
  induction 1 as [|c s Hc _ IH]; simpl; [reflexivity|].
  destruct (Z.eqb_spec c NUL); [contradiction|]. by rewrite IH.
Qed.

Lemma until_NUL_nonzero (l : list Z) : Forall (fun c => c <> NUL) (until_NUL l).
Proof.
  induction l as [|c l IH]; simpl; [constructor|].
  destruct (Z.eqb_spec c NUL); constructor; assumption.
Qed.

(** A buffer that holds a NUL splits at its first NUL. *)
Lemma until_NUL_split (l : list Z) :
  NUL ∈ l -> exists rest, l = until_NUL l ++ NUL :: rest.
Proof.
  induction l as [|c l IH]; intros Hin.
  - by apply elem_of_nil in Hin.
  - simpl. destruct (Z.eqb_spec c NUL) as [->|Hne].
    + by exists l.
    + apply elem_of_cons in Hin as [Heq|Hin]; [congruence|].
      destruct (IH Hin) as [rest Hrest]. exists rest. simpl. by f_equal.
Qed.

Lemma drop_cons_inv {A} (l : list A) (k : nat) (x : A) (tl : list A) :
  drop k l = x :: tl -> l !! k = Some x /\ drop (S k) l = tl.
Proof.
  intros H. split.
  - rewrite <- (Nat.add_0_r k), <- lookup_drop, H. reflexivity.
  - replace (S k) with (k + 1)%nat by lia. rewrite <- drop_drop, H. reflexivity.
Qed.

(** ** [crc32b] *)

Lemma crc32b_loop_spec (s rest : list Z) :
  Forall (fun c => c <> NUL) s ->
  forall fuel mem str i crc,
    drop (str + i) mem = s ++ NUL :: rest ->
    (length s < fuel)%nat ->
    crc32b_loop fuel mem str i crc = Some (fold_left crc_step s crc).
Proof.
  induction 1 as [|c s Hc _ IH]; intros fuel mem str i crc Hdrop Hfuel;
    (destruct fuel as [|fuel]; [simpl in Hfuel; lia|]);
    apply drop_cons_inv in Hdrop as [Hc0 Hdrop]; simpl; rewrite Hc0.
  - reflexivity.
  - destruct (Z.eqb_spec c NUL); [contradiction|].
    apply IH; [|simpl in Hfuel; lia].
    by replace (str + S i)%nat with (S (str + i)) by lia.
Qed.

(** [crc32b] reads the C string at [str] and nothing else. *)
Lemma crc32b_c_str (mem : list Z) (str : nat) :
  NUL ∈ drop str mem -> crc32b mem str = Some (crc32_lower (c_str mem str)).
Proof.
  intros Hin. destruct (until_NUL_split _ Hin) as [rest Hrest].
  unfold crc32b, crc32_lower, c_str.
  rewrite (crc32b_loop_spec (until_NUL (drop str mem)) rest).
  - reflexivity.
  - apply until_NUL_nonzero.
  - by rewrite Nat.add_0_r.
  - apply (f_equal length) in Hrest.
    rewrite length_app, length_drop in Hrest. simpl in Hrest. lia.
Qed.

Lemma tolower_idem (c : Z) : tolower (tolower c) = tolower c.
Proof. unfold tolower. repeat case_match; lia. Qed.

Lemma tolower_NUL (c : Z) : tolower c = NUL <-> c = NUL.
Proof. unfold tolower, NUL. case_match; lia. Qed.

Lemma crc_step_tolower (crc c : Z) : crc_step crc (tolower c) = crc_step crc c.
Proof. unfold crc_step. by rewrite tolower_idem. Qed.

Lemma fold_crc_step_tolower (s : list Z) (crc : Z) :
  fold_left crc_step (map tolower s) crc = fold_left crc_step s crc.
Proof.
  revert crc. induction s as [|c s IH]; intros crc; simpl; [reflexivity|].
  by rewrite crc_step_tolower, IH.
Qed.

Lemma until_NUL_tolower (l : list Z) :
  until_NUL (map tolower l) = map tolower (until_NUL l).
Proof.
  induction l as [|c l IH]; simpl; [reflexivity|].
  destruct (Z.eqb_spec c NUL) as [->|Hne]; [reflexivity|].
  destruct (Z.eqb_spec (tolower c) NUL) as [He|_].
  - destruct (tolower_NUL c) as [Hz _]. specialize (Hz He). contradiction.
  - by rewrite IH.
Qed.

(** C8. [crc32b] is a function of the characters of its argument (so it is
    pure and deterministic), it returns on every NUL-terminated string, and
    it is case-insensitive: the string [s] and its lower-cased form
    [map tolower s] have the same hash.  In particular "HELO", "helo" and
    "HeLo" hash alike. *)
Theorem crc32b_case_insensitive :
  (forall (s rest : list Z),
      crc32b (s ++ NUL :: rest) 0 = Some (crc32_lower (until_NUL s))
      /\ crc32b (map tolower s ++ NUL :: rest) 0 = crc32b (s ++ NUL :: rest) 0)
  /\ hash_of "HELO" = hash_of "helo"
  /\ hash_of "helo" = hash_of "HeLo".
Proof.
  split; [|split; vm_compute; reflexivity].
  intros s rest.
  assert (Hc : forall l : list Z, c_str (l ++ NUL :: rest) 0 = until_NUL l).
  { intros l. unfold c_str. rewrite drop_0.
    induction l as [|c l IH]; simpl; [reflexivity|].
    destruct (Z.eqb_spec c NUL); [reflexivity|]. by rewrite IH. }
  assert (Hin : forall l : list Z, NUL ∈ drop 0 (l ++ NUL :: rest)).
  { intros l. rewrite drop_0. apply elem_of_app. right. apply elem_of_cons. by left. }
  rewrite !crc32b_c_str by apply Hin. rewrite !Hc. split; [reflexivity|].
  f_equal. unfold crc32_lower.
  by rewrite until_NUL_tolower, fold_crc_step_tolower.
Qed.

(** The construction is the standard CRC-32 on lower-case input. *)
Example crc32b_check_value : hash_of "123456789" = Some 0xCBF43926.
Proof. vm_compute. reflexivity. Qed.

(** ** [ParameterLookup]: the two loops over the buffer *)

Lemma insert_middle {A} (pre tl : list A) (x y : A) :
  <[length pre := y]> (pre ++ x :: tl) = pre ++ y :: tl.
Proof.
  rewrite <- (Nat.add_0_r (length pre)). by rewrite insert_app_r.
Qed.

(** The test [loop > _theCommand && '\0' != *(loop - 1)] looks at the last
    byte before [loop]. *)
Lemma prev_byte (pre tl : list Z) :
  bool_decide (0 < length pre)%nat
  && negb (default NUL ((pre ++ tl) !! (length pre - 1)%nat) =? NUL)
  = negb (default NUL (last pre) =? NUL).
Proof.
  induction pre as [|x pre _] using rev_ind; [reflexivity|].
  rewrite last_snoc, length_app. simpl.
  replace (length pre + 1 - 1)%nat with (length pre) by lia.
  rewrite <- app_assoc. simpl. rewrite list_lookup_middle by reflexivity.
  rewrite bool_decide_eq_true_2 by lia. reflexivity.
Qed.

Lemma subSpaces_loop_spec (s : list Z) :
  Forall (fun c => c <> NUL) s ->
  forall fuel pre rest size,
    (length s < fuel)%nat ->
    subSpaces_loop fuel (pre ++ s ++ NUL :: rest) (length pre) size
    = Some (pre ++ nullify s ++ NUL :: rest, (length pre + length s)%nat,
            sub_size (default NUL (last pre)) s size).
Proof.
  induction 1 as [|c s Hc _ IH]; intros fuel pre rest size Hfuel;
    (destruct fuel as [|fuel]; [simpl in Hfuel; lia|]); simpl;
    rewrite list_lookup_middle by reflexivity.
  - simpl. by rewrite Nat.add_0_r.
  - destruct (Z.eqb_spec c NUL); [contradiction|].
    fold (is_delim c). destruct (is_delim c) eqn:Hd.
    + rewrite insert_middle, prev_byte.
      replace (pre ++ NUL :: s ++ NUL :: rest)
        with ((pre ++ [NUL]) ++ s ++ NUL :: rest) by by rewrite <- app_assoc.
      replace (S (length pre)) with (length (pre ++ [NUL]))
        by (rewrite length_app; simpl; lia).
      rewrite IH by (simpl in Hfuel; lia).
      rewrite last_snoc, length_app, <- app_assoc. simpl.
      do 3 f_equal. lia.
    + replace (pre ++ c :: s ++ NUL :: rest)
        with ((pre ++ [c]) ++ s ++ NUL :: rest) by by rewrite <- app_assoc.
      replace (S (length pre)) with (length (pre ++ [c]))
        by (rewrite length_app; simpl; lia).
      rewrite IH by (simpl in Hfuel; lia).
      rewrite last_snoc, length_app, <- app_assoc. simpl.
      do 3 f_equal. lia.
Qed.

Lemma restore_loop_spec (w : list Z) :
  forall fuel pre rest,
    (length w < fuel)%nat ->
    restore_loop fuel (pre ++ w ++ rest) (length pre) (length pre + length w)
    = Some (pre ++ unnull w ++ rest).
Proof.
  induction w as [|c w IH]; intros fuel pre rest Hfuel;
    (destruct fuel as [|fuel]; [simpl in Hfuel; lia|]); simpl.
  - rewrite bool_decide_eq_false_2 by lia. reflexivity.
  - rewrite bool_decide_eq_true_2 by lia.
    rewrite list_lookup_middle by reflexivity.
    assert (Hstep : forall x : Z,
      restore_loop fuel (pre ++ x :: w ++ rest) (S (length pre))
        (length pre + S (length w))
      = Some (pre ++ x :: unnull w ++ rest)).
    { intros x.
      replace (pre ++ x :: w ++ rest) with ((pre ++ [x]) ++ w ++ rest)
        by by rewrite <- app_assoc.
      replace (S (length pre)) with (length (pre ++ [x]))
        by (rewrite length_app; simpl; lia).
      replace (length pre + S (length w))%nat
        with (length (pre ++ [x]) + length w)%nat
        by (rewrite length_app; simpl; lia).
      rewrite IH by (simpl in Hfuel; lia). by rewrite <- app_assoc. }
    destruct (Z.eqb_spec c NUL) as [->|Hne].
    + by rewrite insert_middle, Hstep.
    + by rewrite Hstep.
Qed.

(** [getParamPtr]'s loop stays inside the buffer and ends. *)
Lemma getParam_loop_returns (mem : list Z) (endOfString : nat) :
  (endOfString <= length mem)%nat ->
  forall fuel paramPtr count,
    (endOfString - paramPtr < fuel)%nat ->
    exists ptr, getParam_loop fuel mem endOfString paramPtr count = Some ptr.
Proof.
  intros Hend. induction fuel as [|fuel IH]; intros paramPtr count Hfuel; [lia|].
  simpl. case_bool_decide as Hlt; [|by eexists].
  destruct (lookup_lt_is_Some_2 mem paramPtr) as [c ->]; [lia|].
  destruct ((count =? 0) && negb (c =? NUL)); [by eexists|].
  apply IH. lia.
Qed.

(** ** [ParameterLookup]: the two forms of the buffer *)

Lemma is_delim_tabs_to_spaces (c : Z) :
  is_delim (if c =? TAB then SPACE else c) = is_delim c.
Proof. unfold is_delim, TAB, SPACE. repeat case_match; lia. Qed.

Lemma nullify_tabs_to_spaces (s : list Z) : nullify (tabs_to_spaces s) = nullify s.
Proof.
  unfold nullify, tabs_to_spaces. rewrite map_map. apply map_ext. intros c.
  rewrite is_delim_tabs_to_spaces. unfold is_delim, TAB, SPACE.
  repeat case_match; lia.
Qed.

Lemma unnull_nullify (s : list Z) :
  Forall (fun c => c <> NUL) s -> unnull (nullify s) = tabs_to_spaces s.
Proof.
  induction 1 as [|c s Hc _ IH]; simpl; [reflexivity|]. rewrite IH. f_equal.
  unfold is_delim, TAB, SPACE, NUL in *. repeat case_match; lia.
Qed.

Lemma tabs_to_spaces_nonzero (s : list Z) :
  Forall (fun c => c <> NUL) s -> Forall (fun c => c <> NUL) (tabs_to_spaces s).
Proof.
  induction 1 as [|c s Hc _ IH]; simpl; constructor; [|assumption].
  unfold TAB, SPACE, NUL in *. case_match; lia.
Qed.

Lemma tabs_to_spaces_id (s : list Z) : TAB ∉ s -> tabs_to_spaces s = s.
Proof.
  induction s as [|c s IH]; intros Hnot; simpl; [reflexivity|].
  rewrite not_elem_of_cons in Hnot. destruct Hnot as [Hc Hs].
  rewrite IH by assumption. destruct (Z.eqb_spec c TAB); congruence.
Qed.

Lemma sub_size_tabs_to_spaces (s : list Z) (prev size : Z) :
  sub_size prev (tabs_to_spaces s) size = sub_size prev s size.
Proof.
  revert prev size. induction s as [|c s IH]; intros prev size; simpl; [reflexivity|].
  rewrite is_delim_tabs_to_spaces. destruct (is_delim c) eqn:Hd; [apply IH|].
  rewrite IH. destruct (Z.eqb_spec c TAB) as [->|]; [discriminate|reflexivity].
Qed.

Lemma length_nullify (s : list Z) : length (nullify s) = length s.
Proof. apply length_map. Qed.

Lemma length_tabs_to_spaces (s : list Z) : length (tabs_to_spaces s) = length s.
Proof. apply length_map. Qed.

(** [subSpacesForNULL] on a buffer that holds the NUL-terminated [s]. *)
Lemma subSpacesForNULL_spec (s rest : list Z) (p : ParameterLookup) :
  Forall (fun c => c <> NUL) s ->
  _theCommand p = s ++ NUL :: rest ->
  subSpacesForNULL p
  = Some {| _theCommand := nullify s ++ NUL :: rest;
            _endOfString := length s;
            _stringHasNULLS := true;
            _size := sub_size NUL s 1 |}.
Proof.
  intros Hs Hmem. unfold subSpacesForNULL. rewrite Hmem.
  rewrite (subSpaces_loop_spec s Hs _ [] rest 1).
  - reflexivity.
  - rewrite length_app. simpl. lia.
Qed.

Lemma ParameterLookup_new_view (s rest : list Z) :
  Forall (fun c => c <> NUL) s ->
  exists p, ParameterLookup_new (s ++ NUL :: rest) = Some p
            /\ view_of s rest p /\ _stringHasNULLS p = true.
Proof.
  intros Hs. unfold ParameterLookup_new.
  erewrite subSpacesForNULL_spec by (eassumption || reflexivity).
  eexists. split; [reflexivity|]. by repeat split.
Qed.

Section view.
Context (s rest : list Z) (Hs : Forall (fun c => c <> NUL) s).

Lemma subSpacesForNULL_view (p : ParameterLookup) :
  view_of s rest p -> _stringHasNULLS p = false ->
  exists p', subSpacesForNULL p = Some p'
             /\ view_of s rest p' /\ _stringHasNULLS p' = true.
Proof using Hs.
  intros (Hmem & Hend & Hsize) Hflag. rewrite Hflag in Hmem.
  rewrite (subSpacesForNULL_spec (tabs_to_spaces s) rest)
    by (try assumption; by apply tabs_to_spaces_nonzero).
  eexists. split; [reflexivity|]. unfold view_of. simpl.
  by rewrite nullify_tabs_to_spaces, length_tabs_to_spaces,
    sub_size_tabs_to_spaces.
Qed.

Lemma restoreSpaces_view (p : ParameterLookup) :
  view_of s rest p -> _stringHasNULLS p = true ->
  exists p', restoreSpaces p = Some p'
             /\ view_of s rest p' /\ _stringHasNULLS p' = false.
Proof using Hs.
  intros (Hmem & Hend & Hsize) Hflag. rewrite Hflag in Hmem.
  unfold restoreSpaces. rewrite Hmem, Hend.
  pose proof (restore_loop_spec (nullify s) (S (length s)) [] (NUL :: rest)) as H.
  cbn [app length Nat.add] in H. rewrite length_nullify in H.
  rewrite H by lia.
  eexists. split; [reflexivity|]. unfold view_of. simpl.
  by rewrite unnull_nullify.
Qed.

Lemma getParamPtr_view (idx : Z) (p : ParameterLookup) :
  view_of s rest p ->
  exists p' ptr, getParamPtr idx p = Some (p', ptr)
                 /\ view_of s rest p' /\ _stringHasNULLS p' = true.
Proof using Hs.
  intros Hv. unfold getParamPtr.
  assert (exists p', (if _stringHasNULLS p then Some p else subSpacesForNULL p)
                     = Some p'
                     /\ view_of s rest p' /\ _stringHasNULLS p' = true)
    as (p' & -> & Hv' & Hflag').
  { destruct (_stringHasNULLS p) eqn:Hflag; [by exists p|].
    by apply subSpacesForNULL_view. }
  cbn -[getParam_loop]. destruct Hv' as (Hmem & Hend & Hsize).
  destruct (getParam_loop_returns (_theCommand p') (_endOfString p'))
    with (fuel := S (_endOfString p')) (paramPtr := 0%nat) (count := idx)
    as [ptr ->]; [|lia|].
  - rewrite Hmem, Hend, Hflag', length_app, length_nullify. lia.
  - simpl. exists p', ptr. by repeat split.
Qed.

(** Every [operator[]] call returns and leaves a view over the same
    command. *)
Lemma op_index_view (idx : Z) (p : ParameterLookup) :
  view_of s rest p ->
  exists p' ptr, op_index idx p = Some (p', ptr) /\ view_of s rest p'.
Proof using Hs.
  intros Hv. unfold op_index.
  destruct (idx =? -1); [|destruct (idx =? -2)].
  - destruct (_stringHasNULLS p) eqn:Hflag.
    + destruct (restoreSpaces_view p Hv Hflag) as (p' & -> & Hv' & _).
      simpl. by eexists _, _.
    + simpl. by eexists _, _.
  - destruct (getParamPtr_view 1 p Hv) as (p1 & ptr & -> & Hv1 & Hflag1).
    simpl. destruct (restoreSpaces_view p1 Hv1 Hflag1) as (p' & -> & Hv' & _).
    simpl. by eexists _, _.
  - destruct (_stringHasNULLS p) eqn:Hflag; simpl.
    + destruct (getParamPtr_view idx p Hv) as (p' & ptr & -> & Hv' & _).
      by eexists _, _.
    + destruct (subSpacesForNULL_view p Hv Hflag) as (p1 & -> & Hv1 & _).
      simpl. destruct (getParamPtr_view idx p1 Hv1) as (p' & ptr & -> & Hv' & _).
      by eexists _, _.
Qed.

Lemma queries_view (idxs : list Z) (p : ParameterLookup) :
  view_of s rest p ->
  exists p', queries idxs p = Some p' /\ view_of s rest p'.
Proof using Hs.
  revert p. induction idxs as [|idx idxs IH]; intros p Hv; simpl.
  - by exists p.
  - destruct (op_index_view idx p Hv) as (p1 & ptr & -> & Hv1). simpl.
    by apply IH.
Qed.

(** The whole-string query returns the command with its tabs turned into
    spaces. *)
Lemma op_index_whole (p : ParameterLookup) :
  view_of s rest p ->
  exists p', op_index (-1) p = Some (p', Some 0%nat)
             /\ view_of s rest p'
             /\ c_str (_theCommand p') 0 = tabs_to_spaces s.
Proof using Hs.
  intros Hv. unfold op_index. simpl.
  assert (exists p', (if _stringHasNULLS p then restoreSpaces p else Some p)
                     = Some p'
                     /\ view_of s rest p' /\ _stringHasNULLS p' = false)
    as (p' & -> & Hv' & Hflag').
  { destruct (_stringHasNULLS p) eqn:Hflag; [|by exists p].
    by apply restoreSpaces_view. }
  simpl. exists p'. repeat split; try apply Hv'.
  destruct Hv' as (Hmem & _). rewrite Hflag' in Hmem.
  unfold c_str. rewrite drop_0, Hmem.
  apply until_NUL_app. by apply tabs_to_spaces_nonzero.
Qed.
End view.

(** C2, as amended. For every NUL-terminated string [s] in a buffer, the
    view built over it and any sequence [idxs] of indexed queries (negative
    and out-of-range indices too), the query [-1] that follows returns the
    pointer to the start of the buffer, where the caller reads [s] with
    every tab replaced by a space: exactly [s] when [s] holds no tab. *)
Theorem whole_string_after_queries (s rest : list Z) (idxs : list Z) :
  Forall (fun c => c <> NUL) s ->
  exists p0 p1 p2,
    ParameterLookup_new (s ++ NUL :: rest) = Some p0
    /\ queries idxs p0 = Some p1
    /\ op_index (-1) p1 = Some (p2, Some 0%nat)
    /\ deref (p2, Some 0%nat) = Some (tabs_to_spaces s)
    /\ (TAB ∉ s -> deref (p2, Some 0%nat) = Some s).
Proof.
  intros Hs.
  destruct (ParameterLookup_new_view s rest Hs) as (p0 & Hnew & Hv0 & _).
  destruct (queries_view s rest Hs idxs p0 Hv0) as (p1 & Hq & Hv1).
  destruct (op_index_whole s rest Hs p1 Hv1) as (p2 & Hget & _ & Hstr).
  exists p0, p1, p2. unfold deref. simpl. rewrite Hstr.
  repeat split; try assumption.
  intros Hnot. by rewrite tabs_to_spaces_id.
Qed.

Lemma whole_string_after_queries_witness :
  Forall (fun c => c <> NUL) (chars "HELO 1 2 3.3")
  /\ exists p0 p1 p2,
      ParameterLookup_new (chars "HELO 1 2 3.3" ++ NUL :: [7; 7]) = Some p0
      /\ queries [0; 3; -2; 9; 1] p0 = Some p1
      /\ op_index (-1) p1 = Some (p2, Some 0%nat)
      /\ deref (p2, Some 0%nat) = Some (tabs_to_spaces (chars "HELO 1 2 3.3"))
      /\ (TAB ∉ chars "HELO 1 2 3.3"
          -> deref (p2, Some 0%nat) = Some (chars "HELO 1 2 3.3")).
Proof.
  split; [nonzero_chars|].
  apply (whole_string_after_queries (chars "HELO 1 2 3.3") [7; 7] [0; 3; -2; 9; 1]).
  nonzero_chars.
Defined.

(** C2, as stated, fails on a command that holds a tab: right after
    construction the query [-1] on "HELO<TAB>1" returns "HELO 1". *)
Lemma whole_string_tab_counterexample :
  (p ← ParameterLookup_new (tabbed_command ++ [NUL]);
   r ← op_index (-1) p; Some (deref r)) = Some (Some (chars "HELO 1"))
  /\ chars "HELO 1" <> tabbed_command.
Proof. split; [vm_compute; reflexivity | vm_compute; discriminate]. Qed.

(** ** [ParameterLookup]: the token count *)

Lemma uint_small (x : Z) : 0 <= x < 2 ^ int_bits -> uint x = x.
Proof. intros H. unfold uint. by apply Z.mod_small. Qed.

Lemma sub_size_runs (s : list Z) :
  Forall (fun c => c <> NUL) s ->
  forall prev size,
    0 <= size -> size + Z.of_nat (length s) < 2 ^ int_bits ->
    sub_size prev s size
    = size + Z.of_nat (token_runs (negb (prev =? NUL)) s)
      + Z.b2z (negb (prev =? NUL))
      - Z.b2z (ends_in_token (negb (prev =? NUL)) s).
Proof.
  induction 1 as [|c s Hc _ IH]; intros prev size H0 Hlt; simpl.
  - lia.
  - simpl length in Hlt. destruct (is_delim c) eqn:Hd; simpl.
    + destruct (negb (prev =? NUL)); simpl.
      * rewrite uint_small by lia. rewrite IH by lia. simpl. lia.
      * rewrite IH by lia. simpl. lia.
    + rewrite IH by lia. destruct (Z.eqb_spec c NUL); [contradiction|]. simpl.
      destruct (negb (prev =? NUL)); simpl; lia.
Qed.

(** What [size()] is after construction, for a command shorter than the
    range of [unsigned int]: the number of tokens when the command ends
    inside a token, and one more than that when it is empty or ends with a
    space or a tab. *)
Lemma size_after_construction (s rest : list Z) :
  Forall (fun c => c <> NUL) s ->
  Z.of_nat (length s) < 2 ^ int_bits - 1 ->
  exists p, ParameterLookup_new (s ++ NUL :: rest) = Some p
            /\ size p = Z.of_nat (token_count s)
                         + (if ends_in_token false s then 0 else 1).
Proof.
  intros Hs Hlen.
  destruct (ParameterLookup_new_view s rest Hs) as (p & Hnew & (_ & _ & Hsz) & _).
  exists p. split; [assumption|]. unfold size, token_count. rewrite Hsz.
  rewrite sub_size_runs by (try assumption; lia). simpl.
  destruct (ends_in_token false s); simpl; lia.
Qed.

(** C1 fails on a command with a trailing space: "HELO " has one token,
    [size()] is 2, and the parameter of index 1 that [size()] announces
    does not exist ([operator[]] returns the null pointer for it). *)
Theorem size_counts_trailing_delimiter :
  size <$> ParameterLookup_new (chars "HELO " ++ [NUL]) = Some 2
  /\ token_count (chars "HELO ") = 1%nat
  /\ (p ← ParameterLookup_new (chars "HELO " ++ [NUL]); deref <$> op_index 1 p)
     = Some None.
Proof. repeat split; vm_compute; reflexivity. Qed.

(** The example of the documentation: consecutive delimiters are one
    boundary. *)
Example size_HELO_1 :
  size <$> ParameterLookup_new (chars "HELO   1" ++ [NUL]) = Some 2
  /\ token_count (chars "HELO   1") = 2%nat.
Proof. split; vm_compute; reflexivity. Qed.

(** ** [CommandHandler]: feeding characters *)

Lemma reachable_feed (cs : list Z) (h : CommandHandler) :
  reachable h -> reachable (feed cs h).
Proof.
  revert h. induction cs as [|c cs IH]; intros h Hh; [assumption|].
  apply IH. by constructor.
Qed.

Lemma reachable_fresh : reachable fresh.
Proof. by constructor. Qed.

(** A newline on a handler with no line waiting marks the line complete and
    falls through to the last [return] of [addCommandChar]. *)
Lemma addCommandChar_LF (h : CommandHandler) :
  _bufferFull h = false ->
  (addCommandChar LF h).1 = UNKNOWN_ERROR
  /\ _bufferFull (addCommandChar LF h).2 = true.
Proof. intros Hf. unfold addCommandChar. by rewrite Hf. Qed.

(** [UNKNOWN_ERROR] comes back for exactly the accepted newlines. *)
Lemma addCommandChar_UNKNOWN_ERROR (c : Z) (h : CommandHandler) :
  (addCommandChar c h).1 = UNKNOWN_ERROR <-> _bufferFull h = false /\ c = LF.
Proof.
  unfold addCommandChar.
  destruct (_bufferFull h); [split; [discriminate|by intros [? _]]|].
  destruct (Z.eqb_spec c LF); [by split|].
  destruct (c =? CR); [split; [discriminate|by intros [_ ?]]|].
  destruct (_ || _); (split; [discriminate|by intros [_ ?]]).
Qed.

(** C4 fails at the first newline a new handler receives: [addCommandChar]
    returns [UNKNOWN_ERROR] for it, and the line is marked complete. *)
Theorem addCommandChar_newline_UNKNOWN_ERROR
    (raw_commands : list dataStruct.t) (raw_buffer : list Z) :
  (addCommandChar LF (CommandHandler_new raw_commands raw_buffer)).1
  = UNKNOWN_ERROR
  /\ commandWaiting (addCommandChar LF (CommandHandler_new raw_commands raw_buffer)).2
     = true.
Proof. by apply addCommandChar_LF. Qed.

(** C7. While a completed line waits ([commandWaiting]), [addCommandChar]
    returns [BUFFER_FULL] for every character and leaves the whole handler
    as it was: the buffered line, the length and both flags. *)
Theorem addCommandChar_line_waiting (c : Z) (h : CommandHandler) :
  commandWaiting h = true -> addCommandChar c h = (BUFFER_FULL, h).
Proof.
  unfold commandWaiting, bufferFull, addCommandChar. by intros ->.
Qed.

Lemma addCommandChar_line_waiting_witness :
  commandWaiting ping_waiting = true
  /\ addCommandChar 65 ping_waiting = (BUFFER_FULL, ping_waiting).
Proof.
  split; [reflexivity|].
  apply (addCommandChar_line_waiting 65 ping_waiting). reflexivity.
Defined.

(** ** [CommandHandler]: executing with no line to dispatch *)

Lemma executeCommand_idle (h : CommandHandler) :
  commandWaiting h = false ->
  executeCommand h
  = Some (if _command_too_long h then COMMAND_TOO_LONG else NO_COMMAND_WAITING,
          clearBuffer h, []).
Proof.
  intros Hw. unfold executeCommand. rewrite Hw. simpl.
  destruct (_command_too_long h); simpl; by rewrite andb_false_r.
Qed.

(** C5, as amended. With no completed line waiting, [executeCommand]
    returns [NO_COMMAND_WAITING] when the too-long flag is clear and
    [COMMAND_TOO_LONG] when it is set; it calls no command function and
    clears the buffer.  This holds in every state, reachable or not. *)
Theorem executeCommand_no_line_waiting (h : CommandHandler) :
  commandWaiting h = false ->
  executeCommand h
  = Some (if _command_too_long h then COMMAND_TOO_LONG else NO_COMMAND_WAITING,
          clearBuffer h, []).
Proof. apply executeCommand_idle. Qed.

Lemma executeCommand_no_line_waiting_witness :
  commandWaiting overflowed = false
  /\ executeCommand overflowed
     = Some (if _command_too_long overflowed
             then COMMAND_TOO_LONG else NO_COMMAND_WAITING,
             clearBuffer overflowed, []).
Proof.
  split; [reflexivity|].
  apply (executeCommand_no_line_waiting overflowed). reflexivity.
Defined.

(** C5, as stated, fails when the too-long flag was set before any newline:
    after 150 letters and no newline no line waits, and [executeCommand]
    returns [COMMAND_TOO_LONG]. *)
Lemma executeCommand_overflowed_counterexample :
  reachable overflowed
  /\ commandWaiting overflowed = false
  /\ executeCommand overflowed
     = Some (COMMAND_TOO_LONG, clearBuffer overflowed, [])
  /\ COMMAND_TOO_LONG <> NO_COMMAND_WAITING.
Proof.
  split; [apply reachable_feed, reachable_fresh|].
  split; [reflexivity|]. split; [|discriminate].
  by rewrite executeCommand_idle.
Qed.

(** ** [CommandHandler]: a line that ran over *)

Lemma addCommandChar_keeps_too_long (c : Z) (h : CommandHandler) :
  _command_too_long h = true -> _command_too_long (addCommandChar c h).2 = true.
Proof.
  intros Ht. unfold addCommandChar.
  destruct (_bufferFull h); [assumption|].
  destruct (c =? LF); [assumption|]. destruct (c =? CR); [assumption|].
  by rewrite Ht.
Qed.

(** The flag is set whenever [addCommandChar] reports the overrun. *)
Lemma addCommandChar_COMMAND_TOO_LONG (c : Z) (h : CommandHandler) :
  (addCommandChar c h).1 = COMMAND_TOO_LONG ->
  _command_too_long (addCommandChar c h).2 = true.
Proof.
  unfold addCommandChar.
  destruct (_bufferFull h); [discriminate|].
  destruct (c =? LF); [discriminate|]. destruct (c =? CR); [discriminate|].
  destruct (_ || _); [reflexivity|discriminate].
Qed.

Lemma feed_keeps_too_long (cs : list Z) (h : CommandHandler) :
  _command_too_long h = true -> _command_too_long (feed cs h) = true.
Proof.
  revert h. induction cs as [|c cs IH]; intros h Ht; [assumption|].
  apply IH. by apply addCommandChar_keeps_too_long.
Qed.

(** X28. Once the too-long flag is set, whatever characters [cs] are fed
    afterwards (the rest of the line, its newline, more) with no
    [executeCommand] among them, the flag stays set, and the
    [executeCommand] that follows returns [COMMAND_TOO_LONG], calls no
    command function and clears the buffer. *)
Theorem overflowed_line_not_dispatched (cs : list Z) (h : CommandHandler) :
  _command_too_long h = true ->
  _command_too_long (feed cs h) = true
  /\ executeCommand (feed cs h)
     = Some (COMMAND_TOO_LONG, clearBuffer (feed cs h), []).
Proof.
  intros Ht. pose proof (feed_keeps_too_long cs h Ht) as Ht'.
  split; [assumption|]. unfold executeCommand. rewrite Ht'.
  destruct (negb (commandWaiting (feed cs h))); simpl;
    by rewrite andb_false_r.
Qed.

Lemma overflowed_line_not_dispatched_witness :
  _command_too_long overflowed = true
  /\ _command_too_long (feed (chars "BC" ++ [LF]) overflowed) = true
  /\ executeCommand (feed (chars "BC" ++ [LF]) overflowed)
     = Some (COMMAND_TOO_LONG,
             clearBuffer (feed (chars "BC" ++ [LF]) overflowed), []).
Proof.
  split; [reflexivity|].
  apply (overflowed_line_not_dispatched (chars "BC" ++ [LF]) overflowed).
  reflexivity.
Defined.

(** ** [ParameterLookup]: the keyword *)

Lemma view_of_null_view (s rest : list Z) : view_of s rest (null_view s rest).
Proof. by repeat split. Qed.

Lemma view_of_null (s rest : list Z) (p : ParameterLookup) :
  view_of s rest p -> _stringHasNULLS p = true -> p = null_view s rest.
Proof.
  destruct p as [mem e flag sz]. intros (Hmem & Hend & Hsz) Hflag.
  simpl in *. subst flag. unfold null_view. by subst.
Qed.

(** With [count] at 0 the loop of [getParamPtr] walks over NULs and stops
    at the first other byte. *)
Lemma getParam_loop_first (zs : list Z) :
  Forall (fun c => c = NUL) zs ->
  forall fuel pre c tl endOfString,
    Forall (fun c => c = NUL) pre ->
    c <> NUL ->
    (length pre + length zs < endOfString)%nat ->
    (length zs < fuel)%nat ->
    getParam_loop fuel (pre ++ zs ++ c :: tl) endOfString (length pre) 0
    = Some (Some (length pre + length zs)%nat).
Proof.
  induction 1 as [|z zs Hz _ IH]; intros fuel pre c tl e Hpre Hc He Hfuel;
    (destruct fuel as [|fuel]; [simpl in Hfuel; lia|]);
    cbn [getParam_loop]; simpl length in *;
    rewrite bool_decide_eq_true_2 by lia.
  - simpl. rewrite list_lookup_middle by reflexivity.
    destruct (Z.eqb_spec c NUL); [contradiction|]. simpl.
    by rewrite Nat.add_0_r.
  - subst z. cbn [app]. rewrite list_lookup_middle by reflexivity.
    cbn [Z.eqb NUL negb andb].
    rewrite prev_byte.
    assert (Hlast : default NUL (last pre) = NUL).
    { destruct (last pre) as [x|] eqn:Hl; [|reflexivity].
      apply last_Some_elem_of in Hl. simpl.
      by apply (proj1 (Forall_forall _ _) Hpre). }
    rewrite Hlast. cbn [Z.eqb NUL negb].
    replace (pre ++ NUL :: zs ++ c :: tl) with ((pre ++ [NUL]) ++ zs ++ c :: tl)
      by by rewrite <- app_assoc.
    replace (S (length pre)) with (length (pre ++ [NUL]))
      by (rewrite length_app; simpl; lia).
    rewrite IH; try assumption.
    + rewrite length_app. simpl. do 2 f_equal. lia.
    + apply Forall_app. split; [assumption|]. by repeat constructor.
    + rewrite length_app. simpl. lia.
    + lia.
Qed.

Lemma nullify_skip_delims (s : list Z) :
  exists zs, Forall (fun c => c = NUL) zs
             /\ length zs = keyword_offset s
             /\ nullify s = zs ++ nullify (skip_delims s).
Proof.
  unfold keyword_offset. induction s as [|c s (zs & Hzs & Hlen & Heq)]; simpl.
  - by exists [].
  - destruct (is_delim c) eqn:Hd.
    + exists (NUL :: zs). split; [by constructor|]. split.
      * simpl. rewrite Hlen.
        assert (length (skip_delims s) <= length s)%nat; [|lia].
        clear. induction s as [|c s IH]; simpl; [lia|].
        destruct (is_delim c); simpl; lia.
      * simpl. by rewrite Heq.
    + exists []. split; [constructor|]. split.
      * simpl. lia.
      * simpl. by rewrite Hd.
Qed.

Lemma until_NUL_nullify (t rest : list Z) :
  Forall (fun c => c <> NUL) t ->
  until_NUL (nullify t ++ NUL :: rest) = token_at t.
Proof.
  induction 1 as [|c t Hc _ IH]; simpl; [reflexivity|].
  destruct (is_delim c); simpl; [reflexivity|].
  destruct (Z.eqb_spec c NUL); [contradiction|]. by rewrite IH.
Qed.

Lemma skip_delims_nonzero (s : list Z) :
  Forall (fun c => c <> NUL) s -> Forall (fun c => c <> NUL) (skip_delims s).
Proof.
  induction 1 as [|c s Hc Hs IH]; simpl; [constructor|].
  destruct (is_delim c); [assumption|by constructor].
Qed.

Lemma skip_delims_head (s : list Z) :
  skip_delims s <> [] ->
  exists c tl, skip_delims s = c :: tl /\ is_delim c = false.
Proof.
  induction s as [|c s IH]; simpl; [congruence|].
  destruct (is_delim c) eqn:Hd; [assumption|]. intros _. by exists c, s.
Qed.

Section keyword.
Context (s rest : list Z) (Hs : Forall (fun c => c <> NUL) s).
Context (Htoken : skip_delims s <> []).

(** The keyword is where [operator[]] points for index 0. *)
Lemma c_str_keyword :
  c_str (_theCommand (null_view s rest)) (keyword_offset s) = first_token s
  /\ NUL ∈ drop (keyword_offset s) (_theCommand (null_view s rest)).
Proof using Hs.
  destruct (nullify_skip_delims s) as (zs & Hzs & Hlen & Heq).
  unfold c_str, null_view. simpl. rewrite Heq, <- app_assoc, <- Hlen.
  rewrite drop_app_length. split.
  - apply until_NUL_nullify. by apply skip_delims_nonzero.
  - apply elem_of_app. right. apply elem_of_cons. by left.
Qed.

Lemma getParamPtr_keyword :
  getParamPtr 0 (null_view s rest)
  = Some (null_view s rest, Some (keyword_offset s)).
Proof using Hs Htoken.
  destruct (nullify_skip_delims s) as (zs & Hzs & Hlen & Heq).
  destruct (skip_delims_head s Htoken) as (c & tl & Hsk & Hd).
  assert (Hc : c <> NUL).
  { pose proof (skip_delims_nonzero s Hs) as Hnz. rewrite Hsk in Hnz.
    by inversion Hnz. }
  unfold getParamPtr. cbn -[getParam_loop].
  rewrite Heq, Hsk. cbn [nullify map]. rewrite Hd, <- app_assoc.
  pose proof (getParam_loop_first zs Hzs (S (length s)) [] c
                (map (fun c => if is_delim c then NUL else c) tl ++ NUL :: rest)
                (length s)) as H.
  cbn [app length Nat.add] in H. cbn [app].
  rewrite H; try done.
  - cbn. by rewrite Hlen.
  - apply (f_equal length) in Heq.
    rewrite length_nullify, length_app, Hsk in Heq. simpl in Heq. lia.
  - apply (f_equal length) in Heq.
    rewrite length_nullify, length_app in Heq. lia.
Qed.

(** [operator[]] at index 0, on a view in either form. *)
Lemma op_index_keyword (p : ParameterLookup) :
  view_of s rest p ->
  op_index 0 p = Some (null_view s rest, Some (keyword_offset s)).
Proof using Hs Htoken.
  intros Hv. unfold op_index. simpl.
  destruct (_stringHasNULLS p) eqn:Hflag; simpl.
  - rewrite (view_of_null s rest p Hv Hflag). apply getParamPtr_keyword.
  - destruct (subSpacesForNULL_view s rest Hs p Hv Hflag) as (p' & -> & Hv' & Hf').
    simpl. rewrite (view_of_null s rest p' Hv' Hf'). apply getParamPtr_keyword.
Qed.
End keyword.

(** ** [CommandLookup]: the search and the arity test *)

Lemma sub_size_bounds (s : list Z) :
  forall prev size,
    0 <= size -> size + Z.of_nat (length s) < 2 ^ int_bits ->
    size <= sub_size prev s size <= size + Z.of_nat (length s).
Proof.
  induction s as [|c s IH]; intros prev size H0 Hlt; simpl; [lia|].
  simpl length in Hlt. destruct (is_delim c).
  - destruct (negb (prev =? NUL)).
    + rewrite uint_small by lia.
      pose proof (IH NUL (size + 1)). lia.
    + pose proof (IH NUL size). lia.
  - pose proof (IH c size). lia.
Qed.

(** On values of [int] and small counts, the comparison of the source, done
    after conversion to [unsigned int], is the comparison of the integers. *)
Lemma arity_test (n sz : Z) :
  - 2 ^ (int_bits - 1) <= n < 2 ^ (int_bits - 1) ->
  0 <= sz - 1 < 2 ^ (int_bits - 1) ->
  negb (uint n =? uint (sz - 1)) && negb (n =? -1)
  = bool_decide (n <> -1 /\ n <> sz - 1).
Proof.
  unfold uint, int_bits. change (2 ^ (16 - 1)) with 32768.
  change (2 ^ 16) with 65536. intros Hn Hsz.
  rewrite (Z.mod_small (sz - 1)) by lia.
  assert (Hmod : n mod 65536 = if decide (0 <= n) then n else n + 65536).
  { case_decide.
    - apply Z.mod_small. lia.
    - symmetry. apply (Z.mod_unique _ _ (-1)); lia. }
  rewrite Hmod.
  destruct (Z.eqb_spec n (-1)), (Z.eqb_spec (if decide (0 <= n) then n else n + 65536) (sz - 1));
    simpl; symmetry;
    (apply bool_decide_eq_true_2 || apply bool_decide_eq_false_2);
    case_decide; lia.
Qed.

Section search.
Context (l : CommandLookup) (reqHash : Z).
Context (Hidx : (_commandsIdx l <= array_size l)%nat).

Lemma length_registered : length (registered l) = _commandsIdx l.
Proof using Hidx.
  unfold registered, array_size in *. rewrite length_take. lia.
Qed.

Lemma search_loop_spec (fuel i : nat) :
  (_commandsIdx l - i < fuel)%nat ->
  search_loop fuel l reqHash i
  = Some (match list_find (fun d => reqHash = dataStruct.hash d)
                  (drop i (registered l)) with
          | Some (j, _) => Z.of_nat (i + j)
          | None => -1
          end).
Proof using Hidx.
  revert i. induction fuel as [|fuel IH]; intros i Hfuel; [lia|].
  cbn [search_loop]. case_bool_decide as Hlt.
  - destruct (lookup_lt_is_Some_2 (_commands l) i) as [d Hd];
      [unfold array_size in Hidx; lia|].
    rewrite Hd. cbn [mbind option_bind].
    assert (Hreg : registered l !! i = Some d)
      by (unfold registered; by rewrite lookup_take_lt).
    rewrite (drop_S _ _ _ Hreg). cbn [list_find].
    destruct (Z.eqb_spec reqHash (dataStruct.hash d)) as [Heq|Hne].
    + rewrite decide_True by assumption. by rewrite Nat.add_0_r.
    + rewrite decide_False by assumption. rewrite IH by lia.
      destruct (list_find _ (drop (S i) (registered l))) as [[j d']|]; simpl;
        [|reflexivity].
      do 2 f_equal. lia.
  - rewrite drop_ge by (rewrite length_registered; lia). reflexivity.
Qed.

Lemma search_from_start :
  search_loop (S (_commandsIdx l)) l reqHash 0
  = Some (match list_find (fun d => reqHash = dataStruct.hash d)
                  (registered l) with
          | Some (j, _) => Z.of_nat j
          | None => -1
          end).
Proof using Hidx. rewrite search_loop_spec by lia. by rewrite drop_0. Qed.
End search.

Lemma visible_null_view (s rest : list Z) :
  visible (null_view s rest) = nullify s ++ [NUL].
Proof.
  unfold visible, null_view. cbn [_theCommand _endOfString].
  rewrite <- (length_nullify s), take_app_ge by lia.
  replace (S (length (nullify s)) - length (nullify s))%nat with 1%nat by lia.
  reflexivity.
Qed.

(** A call returns, and leaves a view over the same command. *)
Lemma invoke_view (s rest : list Z) (f : commandFunction) (p : ParameterLookup) :
  Forall (fun c => c <> NUL) s ->
  view_of s rest p ->
  invoke f p = Some (left_by f p, call_of f p) /\ view_of s rest (left_by f p).
Proof.
  intros Hs Hv. unfold invoke, left_by.
  destruct (queries_view s rest Hs (asks f (visible p) (size p)) p Hv)
    as (p' & -> & Hv').
  by split.
Qed.

(** [callStoredCommand] on a command that has a keyword, with the arity
    test as the source writes it. *)
Lemma callStoredCommand_keyword (l : CommandLookup) (s rest : list Z)
    (p : ParameterLookup) :
  Forall (fun c => c <> NUL) s ->
  skip_delims s <> [] ->
  view_of s rest p ->
  (_commandsIdx l <= array_size l)%nat ->
  callStoredCommand l p
  = Some (match list_find (fun d => crc32_lower (first_token s) = dataStruct.hash d)
                  (registered l) with
          | None => (COMMAND_NOT_FOUND, null_view s rest, [])
          | Some (_, d) =>
              if negb (uint (dataStruct.n d) =? uint (sub_size NUL s 1 - 1))
                 && negb (dataStruct.n d =? -1)
              then (WRONG_NUM_OF_PARAMS, null_view s rest, [])
              else (NO_ERROR, left_by (dataStruct.f d) (null_view s rest),
                    [{| callee := address (dataStruct.f d);
                        call_buffer := nullify s ++ [NUL];
                        call_size := sub_size NUL s 1 |}])
          end).
Proof.
  intros Hs Htok Hv Hidx. unfold callStoredCommand.
  rewrite (op_index_keyword s rest Hs Htok p Hv). cbn [mbind option_bind].
  destruct (c_str_keyword s rest Hs) as [Hstr Hin].
  rewrite crc32b_c_str by assumption. rewrite Hstr. cbn [mbind option_bind].
  rewrite search_from_start by assumption. cbn [mbind option_bind].
  destruct (list_find _ (registered l)) as [[j d]|] eqn:Hfind; [|reflexivity].
  apply list_find_Some in Hfind as (Hj & _ & _).
  destruct (Z.eqb_spec (Z.of_nat j) (-1)); [lia|].
  rewrite Nat2Z.id.
  assert (Hd : _commands l !! j = Some d).
  { unfold registered in Hj. by apply lookup_take_Some in Hj as [? _]. }
  rewrite Hd. cbn [mbind option_bind].
  change (size (null_view s rest)) with (sub_size NUL s 1).
  destruct (_ && _); [reflexivity|].
  destruct (invoke_view s rest (dataStruct.f d) (null_view s rest) Hs
              (view_of_null_view s rest)) as [-> _].
  cbn [mbind option_bind]. unfold call_of. by rewrite visible_null_view.
Qed.

Lemma callStoredCommand_spec (l : CommandLookup) (s rest : list Z)
    (p : ParameterLookup) :
  Forall (fun c => c <> NUL) s ->
  skip_delims s <> [] ->
  view_of s rest p ->
  (_commandsIdx l <= array_size l)%nat ->
  arities_are_int l ->
  Z.of_nat (length s) < 2 ^ (int_bits - 1) ->
  exists params',
    view_of s rest params'
    /\ callStoredCommand l p
       = Some (let '(r, calls) := dispatch_spec l (crc32_lower (first_token s))
                                    (null_view s rest) in
               (r, params', calls)).
Proof.
  intros Hs Htok Hv Hidx Har Hlen.
  rewrite (callStoredCommand_keyword l s rest) by assumption.
  unfold dispatch_spec.
  destruct (list_find _ (registered l)) as [[j d]|] eqn:Hfind;
    [|exists (null_view s rest); split; [apply view_of_null_view|reflexivity]].
  apply list_find_Some in Hfind as (Hj & _ & _).
  change (sub_size NUL s 1) with (size (null_view s rest)).
  rewrite arity_test.
  - destruct (bool_decide _).
    + exists (null_view s rest). split; [apply view_of_null_view|reflexivity].
    + exists (left_by (dataStruct.f d) (null_view s rest)). split.
      * by apply invoke_view, view_of_null_view.
      * unfold call_of. by rewrite visible_null_view.
  - apply (proj1 (Forall_forall _ _) Har). by apply list_elem_of_lookup_2 in Hj.
  - unfold size, null_view. simpl.
    unfold int_bits in *. change (2 ^ (16 - 1)) with 32768 in *.
    pose proof (sub_size_bounds s NUL 1) as Hb. unfold int_bits in Hb.
    change (2 ^ 16) with 65536 in Hb. lia.
Qed.

(** X26. For a view over any command [s] that has a keyword, in either form,
    and any table whose arities are [int]s, [callStoredCommand] asks the
    view for token 0, hashes it with [crc32b], and returns what
    [dispatch_spec] says for that hash: the first registered entry with
    that hash decides; none gives [COMMAND_NOT_FOUND]; an arity that is not
    -1 and is not [size() - 1] gives [WRONG_NUM_OF_PARAMS] and no call;
    otherwise the function of that entry is called once with the view and
    the result is [NO_ERROR].  The view that comes back is still a view
    over [s]. *)
Theorem callStoredCommand_dispatch (l : CommandLookup) (s rest : list Z)
    (p : ParameterLookup) :
  Forall (fun c => c <> NUL) s ->
  skip_delims s <> [] ->
  view_of s rest p ->
  (_commandsIdx l <= array_size l)%nat ->
  arities_are_int l ->
  Z.of_nat (length s) < 2 ^ (int_bits - 1) ->
  op_index 0 p = Some (null_view s rest, Some (keyword_offset s))
  /\ deref (null_view s rest, Some (keyword_offset s)) = Some (first_token s)
  /\ crc32b (_theCommand (null_view s rest)) (keyword_offset s)
     = Some (crc32_lower (first_token s))
  /\ exists params',
      view_of s rest params'
      /\ callStoredCommand l p
         = Some (let '(r, calls) := dispatch_spec l (crc32_lower (first_token s))
                                      (null_view s rest) in
                 (r, params', calls)).
Proof.
  intros Hs Htok Hv Hidx Har Hlen.
  destruct (c_str_keyword s rest Hs) as [Hstr Hin].
  split; [by apply op_index_keyword|].
  split; [unfold deref; cbn [fst snd fmap option_fmap option_map]; by rewrite Hstr|].
  split; [rewrite crc32b_c_str by assumption; by rewrite Hstr|].
  by apply callStoredCommand_spec.
Qed.

Lemma callStoredCommand_dispatch_witness :
  exists params',
    view_of (chars "cmd 1 2") [] params'
    /\ callStoredCommand (_lookupList two_commands) (null_view (chars "cmd 1 2") [])
       = Some (NO_ERROR, params',
               [call_of cmd_function (null_view (chars "cmd 1 2") [])]).
Proof.
  pose proof (callStoredCommand_dispatch (_lookupList two_commands)
                (chars "cmd 1 2") [] (null_view (chars "cmd 1 2") [])) as H.
  destruct H as (_ & _ & _ & H).
  - nonzero_chars.
  - vm_compute. discriminate.
  - repeat split.
  - vm_compute. lia.
  - unfold arities_are_int. vm_compute. repeat constructor; discriminate.
  - vm_compute. reflexivity.
  - exact H.
Defined.

(** ** [CommandHandler]: what the buffer holds *)

Lemma until_NUL_prefix (a b : list Z) : NUL ∈ a -> until_NUL (a ++ b) = until_NUL a.
Proof.
  induction a as [|c a IH]; intros Hin; [by apply elem_of_nil in Hin|].
  simpl. destruct (Z.eqb_spec c NUL) as [->|Hne]; [reflexivity|].
  apply elem_of_cons in Hin as [?|Hin]; [congruence|]. by rewrite IH.
Qed.

Lemma until_NUL_length_le (l : list Z) (k : nat) :
  l !! k = Some NUL -> (length (until_NUL l) <= k)%nat.
Proof.
  revert k. induction l as [|c l IH]; intros k Hk; [discriminate|].
  simpl. destruct (Z.eqb_spec c NUL) as [->|Hne]; [simpl; lia|].
  destruct k as [|k]; [simpl in Hk; congruence|].
  simpl in *. specialize (IH k Hk). lia.
Qed.

(** The line in the buffer of a handler: the C string at its start. *)
Lemma buffer_line (h : CommandHandler) :
  handler_ok h ->
  exists rest,
    _inputBuffer h = c_str (_inputBuffer h) 0 ++ NUL :: rest
    /\ (length (c_str (_inputBuffer h) 0) <= _bufferLength h)%nat.
Proof.
  intros (Hlen & Hle & Hnul & _). unfold c_str. rewrite drop_0.
  destruct (until_NUL_split (_inputBuffer h)) as [rest Hrest].
  - by apply list_elem_of_lookup_2 in Hnul.
  - exists rest. split; [assumption|]. by apply until_NUL_length_le.
Qed.

Lemma same_line_c_str (h1 h2 : CommandHandler) :
  handler_ok h1 -> handler_ok h2 -> same_line h1 h2 ->
  c_str (_inputBuffer h1) 0 = c_str (_inputBuffer h2) 0.
Proof.
  intros (_ & _ & Hn1 & _) (_ & _ & Hn2 & _) (_ & _ & _ & Hl & Ht).
  unfold c_str. rewrite !drop_0.
  assert (Hpre : forall b n, b !! n = Some NUL ->
            until_NUL b = until_NUL (take (S n) b)).
  { intros b n Hb. rewrite <- (take_drop (S n) b) at 1.
    apply until_NUL_prefix. apply list_elem_of_lookup. exists n.
    by rewrite lookup_take_lt by lia. }
  rewrite (Hpre _ _ Hn1), (Hpre _ _ Hn2), <- Hl. by rewrite Ht.
Qed.

(** ** [CommandHandler]: the invariant *)

Lemma handler_ok_new raw_commands raw_buffer :
  length raw_buffer = S COMMAND_SIZE_MAX ->
  handler_ok (CommandHandler_new raw_commands raw_buffer).
Proof.
  intros Hlen. unfold handler_ok, CommandHandler_new, array_size.
  cbn [_inputBuffer _bufferLength _lookupList _commandsIdx _commands].
  rewrite length_insert. split; [assumption|]. split; [lia|]. split; [|lia].
  apply list_lookup_insert_eq. lia.
Qed.

Lemma handler_ok_register hash n f h :
  handler_ok h -> handler_ok (registerCommand hash n f h).2.
Proof.
  intros (Hlen & Hle & Hnul & Hidx). unfold registerCommand,
    CommandLookup_registerCommand.
  case_bool_decide as Hfull; simpl; repeat split; try assumption.
  unfold array_size in *. simpl. rewrite length_insert. lia.
Qed.

Lemma handler_ok_add c h : handler_ok h -> handler_ok (addCommandChar c h).2.
Proof.
  intros Hok. pose proof Hok as (Hlen & Hle & Hnul & Hidx).
  unfold addCommandChar.
  destruct (_bufferFull h); [assumption|].
  destruct (c =? LF); [assumption|]. destruct (c =? CR); [assumption|].
  destruct (_command_too_long h); simpl; [assumption|].
  case_bool_decide as Hfull; simpl; [assumption|].
  unfold handler_ok. simpl. rewrite !length_insert.
  unfold COMMAND_SIZE_MAX in *. repeat split; try lia; try assumption.
  apply list_lookup_insert_eq. rewrite length_insert. lia.
Qed.

Lemma handler_ok_clearBuffer (b : list Z) (h : CommandHandler) :
  handler_ok h -> length b = S COMMAND_SIZE_MAX ->
  handler_ok (clearBuffer (with_inputBuffer b h)).
Proof.
  intros (Hlen & Hle & Hnul & Hidx) Hb. unfold handler_ok. simpl.
  rewrite length_insert. repeat split; try assumption; try lia.
  apply list_lookup_insert_eq. lia.
Qed.

(** ** [CommandHandler]: executing a line *)

(** Over NULs only, the loop of [getParamPtr] runs to [_endOfString] and
    returns the null pointer. *)
Lemma getParam_loop_all_NUL (zs : list Z) :
  Forall (fun c => c = NUL) zs ->
  forall fuel pre tl,
    Forall (fun c => c = NUL) pre ->
    (length zs < fuel)%nat ->
    getParam_loop fuel (pre ++ zs ++ tl) (length pre + length zs) (length pre) 0
    = Some None.
Proof.
  induction 1 as [|z zs Hz _ IH]; intros fuel pre tl Hpre Hfuel;
    (destruct fuel as [|fuel]; [simpl in Hfuel; lia|]);
    cbn [getParam_loop]; simpl length in *.
  - by rewrite bool_decide_eq_false_2 by lia.
  - rewrite bool_decide_eq_true_2 by lia.
    subst z. cbn [app]. rewrite list_lookup_middle by reflexivity.
    cbn [Z.eqb NUL negb andb]. rewrite prev_byte.
    assert (Hlast : default NUL (last pre) = NUL).
    { destruct (last pre) as [x|] eqn:Hl; [|reflexivity].
      apply last_Some_elem_of in Hl. simpl.
      by apply (proj1 (Forall_forall _ _) Hpre). }
    rewrite Hlast. cbn [Z.eqb NUL negb].
    replace (pre ++ NUL :: zs ++ tl) with ((pre ++ [NUL]) ++ zs ++ tl)
      by by rewrite <- app_assoc.
    replace (S (length pre)) with (length (pre ++ [NUL]))
      by (rewrite length_app; simpl; lia).
    replace (length pre + S (length zs))%nat
      with (length (pre ++ [NUL]) + length zs)%nat
      by (rewrite length_app; simpl; lia).
    apply IH; [|lia].
    apply Forall_app. split; [assumption|]. by repeat constructor.
Qed.

(** A line with no keyword: [params[0]] is the null pointer, which
    [crc32b] then reads through. *)
Lemma callStoredCommand_no_keyword (l : CommandLookup) (s rest : list Z) :
  skip_delims s = [] -> callStoredCommand l (null_view s rest) = None.
Proof.
  intros Hnone. destruct (nullify_skip_delims s) as (zs & Hzs & Hlen & Heq).
  rewrite Hnone in Heq. simpl in Heq. rewrite app_nil_r in Heq.
  assert (Hlz : length zs = length s) by (by rewrite <- Heq, length_nullify).
  unfold callStoredCommand, op_index, getParamPtr.
  cbn -[getParam_loop]. rewrite Heq.
  pose proof (getParam_loop_all_NUL zs Hzs (S (length s)) [] (NUL :: rest)) as H.
  cbn [app length Nat.add] in H. rewrite Hlz in H. rewrite H by (constructor || lia).
  reflexivity.
Qed.

(** The bytes after the terminator have no part in the dispatch. *)
Lemma callStoredCommand_null_view (l : CommandLookup) (s rest : list Z) :
  Forall (fun c => c <> NUL) s ->
  (_commandsIdx l <= array_size l)%nat ->
  match dispatch_line l s with
  | None => callStoredCommand l (null_view s rest) = None
  | Some (r, calls) =>
      exists params',
        view_of s rest params'
        /\ callStoredCommand l (null_view s rest) = Some (r, params', calls)
  end.
Proof.
  intros Hs Hidx. unfold dispatch_line.
  destruct (decide (skip_delims s = [])) as [Hnone|Hkey].
  - by rewrite !callStoredCommand_no_keyword.
  - rewrite !(callStoredCommand_keyword l s _ _ Hs Hkey (view_of_null_view s _) Hidx).
    cbn [mbind option_bind].
    destruct (list_find _ (registered l)) as [[j d]|];
      [|exists (null_view s rest); split; [apply view_of_null_view|reflexivity]].
    destruct (_ && _).
    + exists (null_view s rest). split; [apply view_of_null_view|reflexivity].
    + eexists. split; [|reflexivity].
      by apply invoke_view, view_of_null_view.
Qed.

Lemma dispatch_line_returns (l : CommandLookup) (s : list Z) :
  Forall (fun c => c <> NUL) s ->
  (_commandsIdx l <= array_size l)%nat ->
  skip_delims s <> [] ->
  exists r calls, dispatch_line l s = Some (r, calls).
Proof.
  intros Hs Hidx Hkey. unfold dispatch_line.
  rewrite (callStoredCommand_keyword l s _ _ Hs Hkey (view_of_null_view s _) Hidx).
  cbn [mbind option_bind].
  destruct (list_find _ (registered l)) as [[j d]|]; [|by eexists _, _].
  destruct (_ && _); by eexists _, _.
Qed.

Lemma view_of_length (s rest : list Z) (p : ParameterLookup) :
  view_of s rest p -> length (_theCommand p) = length (s ++ NUL :: rest).
Proof.
  intros (-> & _). rewrite !length_app.
  destruct (_stringHasNULLS p);
    by rewrite ?length_nullify, ?length_tabs_to_spaces.
Qed.

Lemma executeCommand_not_dispatching (h : CommandHandler) :
  ~ dispatches h -> executeCommand h = Some (idle_code h, clearBuffer h, []).
Proof.
  intros Hnot. unfold executeCommand, idle_code, dispatches in *.
  destruct (commandWaiting h), (_command_too_long h); simpl;
    try (by rewrite andb_false_r).
  destruct (decide (_bufferLength h = 0%nat)) as [Hl|Hl].
  - by rewrite (bool_decide_eq_true_2 _ Hl).
  - exfalso. by apply Hnot.
Qed.

(** What [executeCommand] does when it dispatches: the code and the calls
    are those of the line in the buffer, and the buffer that is cleared is
    the one the view and the command function worked on. *)
Lemma executeCommand_dispatching (h : CommandHandler) :
  handler_ok h -> dispatches h ->
  match dispatch_line (_lookupList h) (c_str (_inputBuffer h) 0) with
  | None => executeCommand h = None
  | Some (r, calls) =>
      exists b,
        length b = length (_inputBuffer h)
        /\ executeCommand h = Some (r, clearBuffer (with_inputBuffer b h), calls)
  end.
Proof.
  intros Hok (Hw & Ht & Hl). destruct (buffer_line h Hok) as (rest & Hbuf & _).
  set (s := c_str (_inputBuffer h) 0) in *.
  assert (Hs : Forall (fun c => c <> NUL) s) by apply until_NUL_nonzero.
  assert (Hnew : ParameterLookup_new (_inputBuffer h) = Some (null_view s rest)).
  { unfold ParameterLookup_new.
    by rewrite (subSpacesForNULL_spec s rest) by assumption. }
  pose proof (callStoredCommand_null_view (_lookupList h) s rest Hs) as Hcall.
  unfold executeCommand. rewrite Hw, Ht. simpl.
  rewrite (bool_decide_eq_false_2 _ Hl). simpl. rewrite Hnew.
  cbn [mbind option_bind].
  destruct (dispatch_line (_lookupList h) s) as [[r calls]|].
  - destruct Hcall as (p' & Hv' & ->); [apply Hok|].
    cbn [mbind option_bind]. exists (_theCommand p'). split; [|reflexivity].
    by rewrite (view_of_length s rest p' Hv'), <- Hbuf.
  - rewrite Hcall by apply Hok. reflexivity.
Qed.

Lemma not_dispatches (h : CommandHandler) :
  _bufferFull h = false \/ _command_too_long h = true \/ _bufferLength h = 0%nat ->
  ~ dispatches h.
Proof.
  unfold dispatches, commandWaiting, bufferFull.
  intros [H|[H|H]] (? & ? & ?); congruence.
Qed.

(** [executeCommand] returns unless it dispatches a line with no keyword. *)
Lemma executeCommand_returns (h : CommandHandler) :
  handler_ok h -> (dispatches h -> has_keyword h) ->
  exists r h' calls, executeCommand h = Some (r, h', calls).
Proof.
  intros Hok Hkey. destruct (decide (dispatches h)) as [Hd|Hd].
  - pose proof (executeCommand_dispatching h Hok Hd) as Hex.
    destruct (dispatch_line_returns (_lookupList h) (c_str (_inputBuffer h) 0))
      as (r & calls & Heq); [apply until_NUL_nonzero|apply Hok|by apply Hkey|].
    rewrite Heq in Hex. destruct Hex as (b & _ & ->). by eexists _, _, _.
  - rewrite executeCommand_not_dispatching by assumption. by eexists _, _, _.
Qed.

(** Every return of [executeCommand] goes through [clearBuffer]. *)
Lemma executeCommand_cleared (h h' : CommandHandler) r calls :
  handler_ok h -> executeCommand h = Some (r, h', calls) ->
  exists b, length b = S COMMAND_SIZE_MAX
            /\ h' = clearBuffer (with_inputBuffer b h).
Proof.
  intros Hok Hex. destruct (decide (dispatches h)) as [Hd|Hd].
  - pose proof (executeCommand_dispatching h Hok Hd) as Hdis.
    destruct (dispatch_line _ _) as [[r0 calls0]|]; [|congruence].
    destruct Hdis as (b & Hb & Heq). rewrite Heq in Hex.
    injection Hex as <- <- <-. exists b. split; [|reflexivity].
    rewrite Hb. apply Hok.
  - rewrite executeCommand_not_dispatching in Hex by assumption.
    injection Hex as <- <- <-. exists (_inputBuffer h).
    split; [apply Hok|by destruct h].
Qed.

(** After [executeCommand]: both flags clear, length zero, the empty string
    in the buffer, the table untouched. *)
Lemma executeCommand_post (h h' : CommandHandler) r calls :
  handler_ok h -> executeCommand h = Some (r, h', calls) ->
  handler_ok h'
  /\ _bufferFull h' = false /\ _command_too_long h' = false
  /\ _bufferLength h' = 0%nat /\ _inputBuffer h' !! 0%nat = Some NUL
  /\ _lookupList h' = _lookupList h.
Proof.
  intros Hok Hex.
  destruct (executeCommand_cleared h h' r calls Hok Hex) as (b & Hb & ->).
  split; [by apply handler_ok_clearBuffer|].
  repeat split. simpl. apply list_lookup_insert_eq. lia.
Qed.

Lemma reachable_ok (h : CommandHandler) : reachable h -> handler_ok h.
Proof.
  induction 1 as [rc rb Hlen | hash n f h _ IH | c h _ IH | h r h' calls _ IH Hex].
  - by apply handler_ok_new.
  - by apply handler_ok_register.
  - by apply handler_ok_add.
  - by destruct (executeCommand_post h h' r calls IH Hex) as [? _].
Qed.

(** ** [CommandHandler]: bytes left over in the buffer *)

Lemma same_line_refl (h : CommandHandler) : same_line h h.
Proof. by repeat split. Qed.

(** The bytes up to the new terminator after a character is stored. *)
Lemma take_stored (b : list Z) (len : nat) (c : Z) :
  (S len < length b)%nat ->
  take (S (S len)) (<[S len := NUL]> (<[len := c]> b)) = take len b ++ [c; NUL].
Proof.
  intros Hlt.
  rewrite (take_S_r _ _ NUL)
    by (apply list_lookup_insert_eq; rewrite length_insert; lia).
  rewrite take_insert_ge by lia.
  rewrite (take_S_r _ _ c) by (apply list_lookup_insert_eq; lia).
  rewrite take_insert_ge by lia. by rewrite <- app_assoc.
Qed.

Lemma addCommandChar_same_line (c : Z) (h1 h2 : CommandHandler) :
  handler_ok h1 -> handler_ok h2 -> same_line h1 h2 ->
  (addCommandChar c h1).1 = (addCommandChar c h2).1
  /\ same_line (addCommandChar c h1).2 (addCommandChar c h2).2.
Proof.
  intros (Hlen1 & Hle1 & _) (Hlen2 & Hle2 & _) Hsame.
  pose proof Hsame as (Hl & Hf & Ht & Hn & Hb).
  unfold addCommandChar. rewrite <- Hf, <- Ht, <- Hn.
  destruct (_bufferFull h1) eqn:Hf1; [by split|].
  destruct (c =? LF); [split; [reflexivity|]; by repeat split|].
  destruct (c =? CR); [by split|].
  destruct (_command_too_long h1 || _) eqn:Hover;
    [split; [reflexivity|]; by repeat split|].
  apply orb_false_iff in Hover as [_ Hroom].
  apply bool_decide_eq_false in Hroom. unfold COMMAND_SIZE_MAX in *.
  split; [reflexivity|]. unfold same_line. simpl.
  repeat split; try assumption.
  rewrite !take_stored by lia. f_equal.
  apply (f_equal (take (_bufferLength h1))) in Hb.
  by rewrite !take_take, Nat.min_l in Hb by lia.
Qed.

Lemma executeCommand_same_line (h1 h2 : CommandHandler) :
  handler_ok h1 -> handler_ok h2 -> same_line h1 h2 ->
  match executeCommand h1, executeCommand h2 with
  | Some (r1, h1', calls1), Some (r2, h2', calls2) =>
      r1 = r2 /\ calls1 = calls2 /\ same_line h1' h2'
  | None, None => True
  | _, _ => False
  end.
Proof.
  intros Hok1 Hok2 Hsame. pose proof Hsame as (Hl & Hf & Ht & Hn & Hb).
  assert (Hcleared : forall b1 b2,
            length b1 = S COMMAND_SIZE_MAX -> length b2 = S COMMAND_SIZE_MAX ->
            same_line (clearBuffer (with_inputBuffer b1 h1))
                      (clearBuffer (with_inputBuffer b2 h2))).
  { intros b1 b2 H1 H2. unfold same_line. simpl. repeat split; [assumption|].
    destruct b1, b2; simpl in *; try lia. reflexivity. }
  destruct (decide (dispatches h1)) as [Hd1|Hd1].
  - assert (Hd2 : dispatches h2).
    { unfold dispatches, commandWaiting, bufferFull in *.
      by rewrite <- Hf, <- Ht, <- Hn. }
    pose proof (executeCommand_dispatching h1 Hok1 Hd1) as H1.
    pose proof (executeCommand_dispatching h2 Hok2 Hd2) as H2.
    rewrite <- (same_line_c_str h1 h2), <- Hl in H2 by assumption.
    destruct (dispatch_line _ _) as [[r calls]|].
    + destruct H1 as (b1 & Hb1 & ->), H2 as (b2 & Hb2 & ->).
      split; [reflexivity|]. split; [reflexivity|].
      apply Hcleared; [rewrite Hb1; apply Hok1|rewrite Hb2; apply Hok2].
    + by rewrite H1, H2.
  - assert (Hd2 : ~ dispatches h2).
    { unfold dispatches, commandWaiting, bufferFull in *.
      by rewrite <- Hf, <- Ht, <- Hn. }
    rewrite !executeCommand_not_dispatching by assumption.
    split; [|split; [reflexivity|]].
    + unfold idle_code, commandWaiting, bufferFull. by rewrite Hf, Ht.
    + replace h1 with (with_inputBuffer (_inputBuffer h1) h1) by by destruct h1.
      replace h2 with (with_inputBuffer (_inputBuffer h2) h2) by by destruct h2.
      apply Hcleared; [apply Hok1|apply Hok2].
Qed.

(** Handlers that differ only after the terminator cannot be told apart. *)
Lemma run_same_line (ops : list operation) :
  forall h1 h2,
    handler_ok h1 -> handler_ok h2 -> same_line h1 h2 ->
    run ops h1 = run ops h2.
Proof.
  induction ops as [|[c|] ops IH]; intros h1 h2 Hok1 Hok2 Hsame; simpl.
  - reflexivity.
  - destruct (addCommandChar_same_line c h1 h2 Hok1 Hok2 Hsame) as [Hr Hs].
    pose proof (handler_ok_add c h1 Hok1). pose proof (handler_ok_add c h2 Hok2).
    destruct (addCommandChar c h1) as [r1 h1'], (addCommandChar c h2) as [r2 h2'].
    simpl in *. subst r2. f_equal. by apply IH.
  - pose proof (executeCommand_same_line h1 h2 Hok1 Hok2 Hsame) as Hex.
    destruct (executeCommand h1) as [[[r1 h1'] calls1]|] eqn:H1,
      (executeCommand h2) as [[[r2 h2'] calls2]|] eqn:H2; try done.
    destruct Hex as (-> & -> & Hs). f_equal. apply IH; [| |assumption].
    + by destruct (executeCommand_post h1 h1' r2 calls2 Hok1 H1) as [? _].
    + by destruct (executeCommand_post h2 h2' r2 calls2 Hok2 H2) as [? _].
Qed.

Lemma reachable_ping_waiting : reachable ping_waiting.
Proof. apply reachable_feed, reachable_fresh. Qed.

(** X27. On every reachable handler whose line, if one is dispatched, has a
    keyword, [executeCommand] returns, and whatever code it returns the
    handler it leaves has both flags clear, length zero and the empty
    string in its buffer; from there every sequence of [addCommandChar] and
    [executeCommand] calls returns the same codes and makes the same calls
    as on a newly constructed handler with the same table. *)
Theorem executeCommand_resets_buffer (h : CommandHandler) :
  reachable h ->
  (dispatches h -> has_keyword h) ->
  exists r h' calls,
    executeCommand h = Some (r, h', calls)
    /\ _bufferFull h' = false
    /\ _command_too_long h' = false
    /\ _bufferLength h' = 0%nat
    /\ c_str (_inputBuffer h') 0 = []
    /\ forall raw_commands raw_buffer ops,
        length raw_buffer = S COMMAND_SIZE_MAX ->
        run ops h'
        = run ops (with_lookupList (_lookupList h)
                     (CommandHandler_new raw_commands raw_buffer)).
Proof.
  intros Hreach Hkey. pose proof (reachable_ok h Hreach) as Hok.
  destruct (executeCommand_returns h Hok Hkey) as (r & h' & calls & Hex).
  destruct (executeCommand_post h h' r calls Hok Hex)
    as (Hok' & Hf & Ht & Hn & Hb & Hl).
  exists r, h', calls. repeat split; try assumption.
  - unfold c_str. rewrite drop_0.
    destruct (_inputBuffer h') as [|c b]; [reflexivity|].
    simpl in Hb. injection Hb as ->. reflexivity.
  - intros rc rb ops Hlen.
    pose proof (handler_ok_new rc rb Hlen) as (Hlen0 & Hle0 & Hnul0 & _).
    apply run_same_line; [assumption| |].
    + repeat split; try assumption. simpl. rewrite <- Hl. apply Hok'.
    + unfold same_line. simpl. rewrite Hf, Ht, Hn.
      repeat split; [assumption|].
      destruct Hok' as (Hlen' & _).
      destruct (_inputBuffer h') as [|c b]; [discriminate|].
      simpl in Hb. injection Hb as ->.
      destruct rb; [discriminate|]. reflexivity.
Qed.

Lemma executeCommand_resets_buffer_witness :
  exists r h' calls,
    executeCommand ping_waiting = Some (r, h', calls)
    /\ _bufferFull h' = false
    /\ _command_too_long h' = false
    /\ _bufferLength h' = 0%nat
    /\ c_str (_inputBuffer h') 0 = []
    /\ forall raw_commands raw_buffer ops,
        length raw_buffer = S COMMAND_SIZE_MAX ->
        run ops h'
        = run ops (with_lookupList (_lookupList ping_waiting)
                     (CommandHandler_new raw_commands raw_buffer)).
Proof.
  apply (executeCommand_resets_buffer ping_waiting).
  - apply reachable_ping_waiting.
  - intros _. vm_compute. discriminate.
Defined.

(** ** Startup commands *)

Section startup.
Context (eeprom : EEPROM).

(** The loop of [executeStartupCommands] over stored bytes [s] that a NUL
    follows before the limit of [EEPROM_SIZE_MAX] reads. *)
Lemma startup_loop_terminated (s : list Z) :
  Forall (fun c => c <> NUL) s ->
  forall fuel idx n result h calls,
    map eeprom (seq idx (length s)) = s ->
    eeprom (idx + length s)%nat = NUL ->
    (n + length s < EEPROM_SIZE_MAX)%nat ->
    (length s < fuel)%nat ->
    startup_loop fuel eeprom idx n result h calls
    = if bool_decide (NO_ERROR = result) then replay s h calls
      else Some (result, h, calls).
Proof.
  induction 1 as [|c s Hc _ IH]; intros fuel idx n result h calls Hmap Hnul Hn Hfuel;
    (destruct fuel as [|fuel]; [simpl in Hfuel; lia|]);
    cbn [startup_loop]; simpl length in *;
    rewrite bool_decide_eq_false_2 by lia.
  - rewrite Nat.add_0_r in Hnul. rewrite Hnul. simpl.
    case_bool_decide as Hr; [by subst result|reflexivity].
  - injection Hmap as Hhead Htail. rewrite Hhead.
    destruct (Z.eqb_spec c NUL); [contradiction|].
    assert (Hnext : forall result' h' calls',
      startup_loop fuel eeprom (S idx) (S n) result' h' calls'
      = if bool_decide (NO_ERROR = result') then replay s h' calls'
        else Some (result', h', calls')).
    { intros. apply IH; try assumption; try lia.
      by replace (S idx + length s)%nat with (idx + S (length s))%nat by lia. }
    case_bool_decide as Hr.
    + subst result. cbn [replay].
      destruct (commandWaiting (addCommandChar c h).2).
      * destruct (executeCommand (addCommandChar c h).2)
          as [[[r' h'] calls']|]; [|reflexivity].
        cbn [mbind option_bind]. rewrite Hnext.
        by destruct r'.
      * cbn [mbind option_bind]. by rewrite Hnext.
    + cbn [mbind option_bind]. rewrite Hnext.
      by rewrite bool_decide_eq_false_2.
Qed.

(** The same loop when all [EEPROM_SIZE_MAX] bytes to read are not NUL: a
    newline is queued at the end, whatever the result so far. *)
Lemma startup_loop_unterminated (s : list Z) :
  Forall (fun c => c <> NUL) s ->
  forall fuel idx n result h calls,
    map eeprom (seq idx (length s)) = s ->
    (n + length s = EEPROM_SIZE_MAX)%nat ->
    (length s < fuel)%nat ->
    startup_loop fuel eeprom idx n result h calls
    = '(r, h', calls') ← (if bool_decide (NO_ERROR = result)
                          then replay s h calls
                          else Some (result, h, calls));
      Some (r, (addCommandChar LF h').2, calls').
Proof.
  induction 1 as [|c s Hc _ IH]; intros fuel idx n result h calls Hmap Hn Hfuel;
    (destruct fuel as [|fuel]; [simpl in Hfuel; lia|]);
    cbn [startup_loop]; simpl length in *.
  - rewrite bool_decide_eq_true_2 by lia.
    case_bool_decide as Hr; [by subst result|reflexivity].
  - rewrite bool_decide_eq_false_2 by lia.
    injection Hmap as Hhead Htail. rewrite Hhead.
    destruct (Z.eqb_spec c NUL); [contradiction|].
    assert (Hnext : forall result' h' calls',
      startup_loop fuel eeprom (S idx) (S n) result' h' calls'
      = '(r, h'', calls'') ← (if bool_decide (NO_ERROR = result')
                              then replay s h' calls'
                              else Some (result', h', calls'));
        Some (r, (addCommandChar LF h'').2, calls'')).
    { intros. apply IH; try assumption; lia. }
    case_bool_decide as Hr.
    + subst result. cbn [replay].
      destruct (commandWaiting (addCommandChar c h).2).
      * destruct (executeCommand (addCommandChar c h).2)
          as [[[r' h'] calls']|]; [|reflexivity].
        cbn [mbind option_bind]. rewrite Hnext.
        by destruct r'.
      * cbn [mbind option_bind]. by rewrite Hnext.
    + cbn [mbind option_bind]. rewrite Hnext.
      by rewrite bool_decide_eq_false_2.
Qed.

Lemma startup_bytes_take (k : nat) :
  (k <= EEPROM_SIZE_MAX)%nat ->
  take k (startup_bytes eeprom)
  = map eeprom (seq EEPROM_STORED_COMMAND_LOCATION k).
Proof.
  intros Hk. unfold startup_bytes.
  rewrite firstn_map, take_seq. by rewrite Nat.min_l by lia.
Qed.

Lemma executeStartupCommands_terminated (h : CommandHandler) :
  eeprom EEPROM_STORED_COMMAND_FLAG_LOCATION = 1 ->
  NUL ∈ startup_bytes eeprom ->
  executeStartupCommands eeprom h = replay (stored_command eeprom) h [].
Proof.
  intros Hflag Hin. unfold executeStartupCommands. rewrite Hflag. simpl negb.
  cbv iota.
  destruct (until_NUL_split _ Hin) as [rest Hsplit].
  fold (stored_command eeprom) in Hsplit.
  set (s := stored_command eeprom) in *.
  assert (Hlen : (length s < EEPROM_SIZE_MAX)%nat).
  { apply (f_equal length) in Hsplit. unfold startup_bytes in Hsplit.
    rewrite length_map, length_seq, length_app in Hsplit. simpl in Hsplit. lia. }
  rewrite (startup_loop_terminated s); try (apply until_NUL_nonzero || lia).
  - reflexivity.
  - rewrite <- startup_bytes_take by lia. rewrite Hsplit.
    by rewrite take_app_length.
  - assert (Hk : startup_bytes eeprom !! length s = Some NUL)
      by (rewrite Hsplit; by apply list_lookup_middle).
    unfold startup_bytes in Hk.
    change (map eeprom ?l) with (eeprom <$> l) in Hk.
    rewrite list_lookup_fmap in Hk.
    rewrite lookup_seq_lt in Hk by lia. simpl in Hk. by injection Hk.
Qed.

Lemma executeStartupCommands_unterminated (h : CommandHandler) :
  eeprom EEPROM_STORED_COMMAND_FLAG_LOCATION = 1 ->
  NUL ∉ startup_bytes eeprom ->
  executeStartupCommands eeprom h
  = '(r, h', calls) ← replay (startup_bytes eeprom) h [];
    Some (r, (addCommandChar LF h').2, calls).
Proof.
  intros Hflag Hnot. unfold executeStartupCommands. rewrite Hflag. simpl negb.
  cbv iota.
  assert (Hlen : length (startup_bytes eeprom) = EEPROM_SIZE_MAX)
    by (unfold startup_bytes; by rewrite length_map, length_seq).
  rewrite (startup_loop_unterminated (startup_bytes eeprom)).
  - reflexivity.
  - apply Forall_forall. intros c Hc ->. by apply Hnot.
  - by rewrite Hlen.
  - lia.
  - lia.
Qed.
End startup.

(** What [storeStartupCommand] leaves in the EEPROM has its flag set and
    its NUL among the bytes [executeStartupCommands] reads. *)
Lemma stored_end_le (fuel : nat) (eeprom : EEPROM) (eeprom_ptr : nat) :
  (eeprom_ptr <= EEPROM_SIZE_MAX - 2)%nat ->
  (stored_end fuel eeprom eeprom_ptr <= EEPROM_SIZE_MAX - 2)%nat.
Proof.
  unfold EEPROM_SIZE_MAX. revert eeprom_ptr.
  induction fuel as [|fuel IH]; intros ptr Hle; simpl; [lia|].
  case_bool_decide; [|lia]. destruct (_ =? NUL); [lia|]. apply IH. lia.
Qed.

Lemma store_loop_le (command : list Z) :
  forall eeprom eeprom_ptr,
    (eeprom_ptr <= EEPROM_SIZE_MAX - 2)%nat ->
    ((store_loop command eeprom eeprom_ptr).2 <= EEPROM_SIZE_MAX - 2)%nat
    /\ (store_loop command eeprom eeprom_ptr).1 EEPROM_STORED_COMMAND_FLAG_LOCATION
       = eeprom EEPROM_STORED_COMMAND_FLAG_LOCATION.
Proof.
  induction command as [|c command IH]; intros eeprom ptr Hle;
    cbn [store_loop]; [by split|].
  destruct (negb (c =? NUL) && bool_decide _) eqn:Hc; [|by split].
  apply andb_true_iff in Hc as [_ Hlt]. apply bool_decide_eq_true in Hlt.
  destruct (IH (EEPROM_update (EEPROM_STORED_COMMAND_LOCATION + ptr)
                  (if negb (c =? 59) then c else LF) eeprom) (S ptr))
    as [Hp Hf]; [lia|].
  split; [assumption|]. rewrite Hf. reflexivity.
Qed.

Lemma storeStartupCommand_terminated (command : list Z) (append : bool)
    (eeprom eeprom' : EEPROM) :
  storeStartupCommand command append eeprom = (NO_ERROR, eeprom') ->
  eeprom' EEPROM_STORED_COMMAND_FLAG_LOCATION = 1
  /\ NUL ∈ startup_bytes eeprom'.
Proof.
  unfold storeStartupCommand.
  set (p0 := if append then _ else _).
  assert (Hp0 : (p0 <= EEPROM_SIZE_MAX - 2)%nat).
  { subst p0. destruct append; [apply stored_end_le|]; lia. }
  case_bool_decide; [discriminate|].
  destruct (store_loop command _ p0) as [e1 p1] eqn:Hloop.
  pose proof (store_loop_le command
                (EEPROM_update EEPROM_STORED_COMMAND_FLAG_LOCATION 1 eeprom)
                p0 Hp0) as [Hp1 Hflag].
  rewrite Hloop in Hp1, Hflag. simpl in Hp1, Hflag.
  intros [= <-]. unfold EEPROM_SIZE_MAX in *. split.
  - unfold EEPROM_update at 1 2. simpl. exact Hflag.
  - apply list_elem_of_lookup. exists (S p1). unfold startup_bytes.
    change (map ?f ?l) with (f <$> l). rewrite list_lookup_fmap.
    rewrite lookup_seq_lt by (unfold EEPROM_SIZE_MAX; lia).
    simpl. unfold EEPROM_update at 1. by rewrite Nat.eqb_refl.
Qed.



(** The stored "ping;cmd 1 2" runs both commands, in order. *)
Example executeStartupCommands_two_lines :
  seen <$> executeStartupCommands stored_eeprom two_commands
  = Some (NO_ERROR, false, [7%nat; 8%nat]).
Proof. vm_compute. reflexivity. Qed.


(** What [storeStartupCommand] stores, and what startup makes of it:
    "ping 1;cmd 1 2" stops at its first line. *)
Example store_then_startup :
  take 15 (stored_eeprom <$> seq 0 256)
  = 1 :: chars "ping" ++ [LF] ++ chars "cmd 1 2" ++ [LF; NUL]
  /\ seen <$> executeStartupCommands
                (storeStartupCommand (chars "ping 1;cmd 1 2") false (eeprom_of [])).2
                two_commands
     = Some (WRONG_NUM_OF_PARAMS, false, []).
Proof. split; vm_compute; reflexivity. Qed.

(** ** The examples of the documentation *)

(** "HELO 1 2 3.3" has four tokens; index 4 gives the null pointer. *)
Example tokens_of_HELO :
  (p ← ParameterLookup_new (chars "HELO 1 2 3.3" ++ [NUL]);
   Some (size p, (fun i => deref <$> op_index i p) <$> [0; 1; 2; 3; 4]))
  = Some (4, [Some (Some (chars "HELO")); Some (Some (chars "1"));
              Some (Some (chars "2")); Some (Some (chars "3.3")); Some None]).
Proof. vm_compute. reflexivity. Qed.

(** Index -2 gives the parameters, in the space form. *)
Example parameters_of_HELO :
  (p ← ParameterLookup_new (chars "HELO 1 2 3.3" ++ [NUL]);
   deref <$> op_index (-2) p)
  = Some (Some (chars "1 2 3.3")).
Proof. vm_compute. reflexivity. Qed.

(** "PING" reaches the function registered under the hash of "ping", with
    one token; the arity of "cmd" is enforced; a bare newline is an empty
    command; an unknown keyword is not found. *)
Example executeCommand_lines :
  seen <$> executeCommand (feed (chars "PING" ++ [LF]) two_commands)
  = Some (NO_ERROR, false, [7%nat])
  /\ seen <$> executeCommand (feed (chars "CMD 1" ++ [LF]) two_commands)
     = Some (WRONG_NUM_OF_PARAMS, false, [])
  /\ seen <$> executeCommand (feed (chars "CMD 1 2" ++ [CR; LF]) two_commands)
     = Some (NO_ERROR, false, [8%nat])
  /\ seen <$> executeCommand (feed [LF] two_commands)
     = Some (EMPTY_COMMAND_STRING, false, [])
  /\ seen <$> executeCommand (feed (chars "FOO" ++ [LF]) two_commands)
     = Some (COMMAND_NOT_FOUND, false, []).
Proof. repeat split; vm_compute; reflexivity. Qed.

(** The command function works on the buffer of the handler: after
    "cmd 1 2", whose function ends by asking for the whole line, the buffer
    is left in the space form, its first byte cleared. *)
Example executeCommand_shares_buffer :
  (fun x => take 8 (_inputBuffer x.1.2))
    <$> executeCommand (feed (chars "cmd 1 2" ++ [LF]) two_commands)
  = Some (NUL :: chars "md 1 2" ++ [NUL]).
Proof. vm_compute. reflexivity. Qed.

(** A line of one space has no keyword: [params[0]] is null and the
    dispatch has no defined result.  With a trailing space, "PING " does
    not reach its function. *)
Example executeCommand_blank_line :
  executeCommand (feed [SPACE; LF] two_commands) = None
  /\ seen <$> executeCommand (feed (chars "PING " ++ [LF]) two_commands)
     = Some (WRONG_NUM_OF_PARAMS, false, []).
Proof. split; vm_compute; reflexivity. Qed.

(** After an overrun the next command runs as usual. *)
Example run_after_overrun :
  run ((ingest <$> replicate 150 65) ++ [ingest LF; execute]
       ++ (ingest <$> chars "ping") ++ [ingest LF; execute]) two_commands
  = replicate 149 (Some (NO_ERROR, []))
    ++ [Some (COMMAND_TOO_LONG, []); Some (UNKNOWN_ERROR, []);
        Some (COMMAND_TOO_LONG, [])]
    ++ replicate 4 (Some (NO_ERROR, []))
    ++ [Some (UNKNOWN_ERROR, []);
        Some (NO_ERROR, [{| callee := 7; call_buffer := chars "ping" ++ [NUL];
                            call_size := 1 |}])].
Proof. vm_compute. reflexivity. Qed.

(** * Further properties *)

(** ** [ParameterLookup]: the tokens behind the indices *)

Lemma token_offset_lt (s : list Z) :
  forall n in_token o, token_offset n in_token s = Some o -> (o < length s)%nat.
Proof.
  induction s as [|c s IH]; intros n b o Ho; simpl in *; [discriminate|].
  assert (Hstep : forall x, S <$> x = Some o -> (forall o', x = Some o' -> (o' < length s)%nat)
                            -> (o < S (length s))%nat).
  { intros [o'|] Hx Hlt; simpl in Hx; [|discriminate].
    injection Hx as <-. specialize (Hlt o' eq_refl). lia. }
  destruct (is_delim c); [eapply Hstep; [eassumption|]; by apply IH|].
  destruct b; [eapply Hstep; [eassumption|]; by apply IH|].
  destruct n; [injection Ho as <-; lia|].
  eapply Hstep; [eassumption|]; by apply IH.
Qed.

(** On the NUL form, the loop of [getParamPtr] started at count [n] (one
    more inside a token) finds where token [n] starts. *)
Lemma getParam_loop_token (s : list Z) :
  Forall (fun c => c <> NUL) s ->
  forall fuel pre rest n,
    (length s < fuel)%nat ->
    getParam_loop fuel (pre ++ nullify s ++ NUL :: rest)
      (length pre + length s) (length pre)
      (Z.of_nat n + Z.b2z (negb (default NUL (last pre) =? NUL)))
    = Some ((fun o => (length pre + o)%nat)
              <$> token_offset n (negb (default NUL (last pre) =? NUL)) s).
Proof.
  induction 1 as [|c s Hc _ IH]; intros fuel pre rest n Hfuel;
    (destruct fuel as [|fuel]; [simpl in Hfuel; lia|]);
    cbn [getParam_loop]; simpl length in *.
  - by rewrite bool_decide_eq_false_2 by lia.
  - rewrite bool_decide_eq_true_2 by lia.
    cbn [nullify map app]. rewrite list_lookup_middle by reflexivity.
    set (in_token := negb (default NUL (last pre) =? NUL)).
    assert (Hnext : forall x m,
      getParam_loop fuel (pre ++ x :: nullify s ++ NUL :: rest)
        (length pre + S (length s)) (S (length pre))
        (Z.of_nat m + Z.b2z (negb (x =? NUL)))
      = Some ((fun o => (length pre + o)%nat)
                <$> (S <$> token_offset m (negb (x =? NUL)) s))).
    { intros x m.
      replace (pre ++ x :: nullify s ++ NUL :: rest)
        with ((pre ++ [x]) ++ nullify s ++ NUL :: rest) by by rewrite <- app_assoc.
      replace (S (length pre)) with (length (pre ++ [x]))
        by (rewrite length_app; simpl; lia).
      replace (length pre + S (length s))%nat
        with (length (pre ++ [x]) + length s)%nat
        by (rewrite length_app; simpl; lia).
      pose proof (IH fuel (pre ++ [x]) rest m) as H.
      rewrite last_snoc in H. simpl in H. rewrite H by lia.
      destruct (token_offset m _ s); simpl; [|reflexivity].
      do 2 f_equal. rewrite length_app. simpl. lia. }
    cbn [token_offset]. destruct (is_delim c) eqn:Hd.
    + cbn [Z.eqb NUL negb andb]. rewrite andb_false_r. cbn [andb].
      rewrite prev_byte. fold in_token.
      specialize (Hnext NUL n). cbn [Z.eqb NUL negb Z.b2z] in Hnext.
      destruct in_token; simpl Z.b2z.
      * replace (Z.of_nat n + 1 - 1) with (Z.of_nat n + 0) by lia. exact Hnext.
      * exact Hnext.
    + destruct (Z.eqb_spec c NUL) as [|_]; [contradiction|]. cbn [negb andb].
      rewrite andb_true_r.
      assert (Hc' : negb (c =? NUL) = true)
        by (destruct (Z.eqb_spec c NUL); [contradiction|reflexivity]).
      destruct in_token; simpl Z.b2z.
      * destruct (Z.eqb_spec (Z.of_nat n + 1) 0); [lia|].
        specialize (Hnext c n). rewrite Hc' in Hnext. exact Hnext.
      * destruct n as [|n'].
        -- simpl. by rewrite Nat.add_0_r.
        -- destruct (Z.eqb_spec (Z.of_nat (S n') + 0) 0); [lia|].
           specialize (Hnext c n'). rewrite Hc' in Hnext. simpl Z.b2z in Hnext.
           replace (Z.of_nat (S n') + 0) with (Z.of_nat n' + 1) by lia.
           exact Hnext.
Qed.

(** A negative count never comes back to 0: the loop returns the null
    pointer. *)
Lemma getParam_loop_negative (mem : list Z) (endOfString : nat) :
  (endOfString <= length mem)%nat ->
  forall fuel paramPtr count,
    count < 0 ->
    (endOfString - paramPtr < fuel)%nat ->
    getParam_loop fuel mem endOfString paramPtr count = Some None.
Proof.
  intros Hend. induction fuel as [|fuel IH]; intros ptr count Hneg Hfuel; [lia|].
  cbn [getParam_loop]. case_bool_decide as Hlt; [|reflexivity].
  destruct (lookup_lt_is_Some_2 mem ptr) as [c ->]; [lia|].
  destruct (Z.eqb_spec count 0); [lia|]. cbn [andb].
  destruct (_ && _ && _); apply IH; lia.
Qed.

Lemma getParamPtr_null_view (s rest : list Z) (idx : Z) :
  Forall (fun c => c <> NUL) s ->
  getParamPtr idx (null_view s rest)
  = Some (null_view s rest,
          if 0 <=? idx then token_offset (Z.to_nat idx) false s else None).
Proof.
  intros Hs. unfold getParamPtr. cbn -[getParam_loop].
  destruct (Z.leb_spec 0 idx) as [Hpos|Hneg].
  - pose proof (getParam_loop_token s Hs (S (length s)) [] rest (Z.to_nat idx)) as H.
    cbn [app length Nat.add last default Z.eqb NUL negb Z.b2z] in H.
    rewrite Z2Nat.id, Z.add_0_r in H by assumption. rewrite H by lia.
    cbn [mbind option_bind]. do 2 f_equal.
    by destruct (token_offset _ _ _).
  - rewrite getParam_loop_negative; try done; try lia.
    rewrite length_app, length_nullify. lia.
Qed.

(** The same for [operator[]] at an index other than -1 and -2, whatever
    form the view is in: the view goes to the NUL form. *)
Lemma op_index_null_view (s rest : list Z) (p : ParameterLookup) (idx : Z) :
  Forall (fun c => c <> NUL) s ->
  view_of s rest p ->
  idx <> -1 -> idx <> -2 ->
  op_index idx p
  = Some (null_view s rest,
          if 0 <=? idx then token_offset (Z.to_nat idx) false s else None).
Proof.
  intros Hs Hv H1 H2. unfold op_index.
  destruct (Z.eqb_spec idx (-1)); [contradiction|].
  destruct (Z.eqb_spec idx (-2)); [contradiction|].
  destruct (_stringHasNULLS p) eqn:Hflag; simpl.
  - rewrite (view_of_null s rest p Hv Hflag). by apply getParamPtr_null_view.
  - destruct (subSpacesForNULL_view s rest Hs p Hv Hflag) as (p' & -> & Hv' & Hf').
    simpl. rewrite (view_of_null s rest p' Hv' Hf'). by apply getParamPtr_null_view.
Qed.

Lemma drop_nullify (s rest : list Z) (o : nat) :
  (o <= length s)%nat ->
  drop o (nullify s ++ NUL :: rest) = nullify (drop o s) ++ NUL :: rest.
Proof.
  intros Ho. rewrite drop_app_le by (rewrite length_nullify; lia).
  unfold nullify. by rewrite skipn_map.
Qed.

Lemma drop_tabs_to_spaces (s rest : list Z) (o : nat) :
  (o <= length s)%nat ->
  drop o (tabs_to_spaces s ++ NUL :: rest)
  = tabs_to_spaces (drop o s) ++ NUL :: rest.
Proof.
  intros Ho. rewrite drop_app_le by (rewrite length_tabs_to_spaces; lia).
  unfold tabs_to_spaces. by rewrite skipn_map.
Qed.

(** ** The tokens of a command *)

Lemma tokens_head (s : list Z) :
  starts_token s = true -> exists ts, tokens s = token_at s :: ts.
Proof.
  induction s as [|c s IH]; [discriminate|]. simpl. intros Hc.
  destruct (is_delim c); [discriminate|].
  destruct s as [|c' s']; [by exists []|].
  destruct (is_delim c') eqn:Hd'.
  - eexists. cbn [token_at]. by rewrite Hd'.
  - destruct IH as [ts Hts]; [simpl; by rewrite Hd'|].
    rewrite Hts. by exists ts.
Qed.

Lemma tokens_cons_token (c : Z) (s : list Z) :
  is_delim c = false ->
  tokens (c :: s)
  = (c :: token_at s) :: (if starts_token s then drop 1 (tokens s) else tokens s).
Proof.
  intros Hc. cbn [tokens]. rewrite Hc.
  destruct s as [|c' s']; [reflexivity|].
  cbn [starts_token token_at]. destruct (is_delim c') eqn:Hd'; [reflexivity|].
  destruct (tokens_head (c' :: s')) as [ts Hts]; [simpl; by rewrite Hd'|].
  rewrite Hts. cbn [token_at]. by rewrite Hd'.
Qed.

(** Token [n] is where [token_offset] says, up to the next delimiter. *)
Lemma token_offset_tokens (s : list Z) :
  forall n,
    (fun o => token_at (drop o s)) <$> token_offset n false s = tokens s !! n
    /\ (fun o => token_at (drop o s)) <$> token_offset n true s
       = tokens s !! (if starts_token s then S n else n).
Proof.
  induction s as [|c s IH]; intros n; [by split|].
  assert (Hshift : forall x : option nat,
    (fun o => token_at (drop o (c :: s))) <$> (S <$> x)
    = (fun o => token_at (drop o s)) <$> x) by by intros [o|].
  cbn [token_offset starts_token]. destruct (is_delim c) eqn:Hc.
  - rewrite Hshift. cbn [tokens negb]. rewrite Hc. split; apply IH.
  - rewrite !Hshift. cbn [negb]. rewrite tokens_cons_token by assumption.
    assert (Hin : forall m,
      (fun o => token_at (drop o s)) <$> token_offset m true s
      = (if starts_token s then drop 1 (tokens s) else tokens s) !! m).
    { intros m. destruct (IH m) as [_ ->].
      destruct (starts_token s); [|reflexivity].
      by rewrite lookup_drop. }
    split; [|apply Hin].
    destruct n as [|n']; [cbn; by rewrite Hc|].
    rewrite Hshift. apply Hin.
Qed.

Lemma length_tokens (s : list Z) :
  length (tokens s) = token_count s
  /\ token_runs true s
     = (length (tokens s) - (if starts_token s then 1 else 0))%nat.
Proof.
  unfold token_count. induction s as [|c s [IH1 IH2]]; [by split|].
  cbn [token_runs starts_token]. destruct (is_delim c) eqn:Hc.
  - cbn [tokens negb]. rewrite Hc. split; [assumption|lia].
  - rewrite tokens_cons_token by assumption. cbn [length negb].
    rewrite IH2. destruct (starts_token s) eqn:Hst.
    + rewrite length_drop. split; lia.
    + split; lia.
Qed.

Lemma deref_null_view (s rest : list Z) (o : nat) :
  Forall (fun c => c <> NUL) s ->
  (o <= length s)%nat ->
  c_str (_theCommand (null_view s rest)) o = token_at (drop o s).
Proof.
  intros Hs Ho. unfold c_str, null_view. cbn [_theCommand].
  rewrite drop_nullify by assumption. apply until_NUL_nullify.
  by apply Forall_drop.
Qed.

(** X1. Token extraction: on a view over the command [s], in either form,
    [operator[]] at an index [idx >= 0] leaves the view in the NUL form and
    returns a pointer at which the caller reads token [idx] of [s], or the
    null pointer when [s] has no such token. *)
Theorem op_index_token (s rest : list Z) (p : ParameterLookup) (idx : Z) :
  Forall (fun c => c <> NUL) s ->
  view_of s rest p ->
  0 <= idx ->
  exists ptr,
    op_index idx p = Some (null_view s rest, ptr)
    /\ deref (null_view s rest, ptr) = tokens s !! Z.to_nat idx.
Proof.
  intros Hs Hv Hidx.
  rewrite (op_index_null_view s rest p idx Hs Hv) by lia.
  destruct (Z.leb_spec 0 idx); [|lia].
  eexists. split; [reflexivity|].
  destruct (token_offset_tokens s (Z.to_nat idx)) as [<- _].
  unfold deref. cbn [fst snd].
  destruct (token_offset (Z.to_nat idx) false s) as [o|] eqn:Ho; [|reflexivity].
  cbn [fmap option_fmap option_map]. f_equal.
  apply deref_null_view; [assumption|].
  apply token_offset_lt in Ho. lia.
Qed.

Lemma op_index_token_witness :
  exists ptr,
    op_index 2 (null_view (chars "set  led 1") [9])
    = Some (null_view (chars "set  led 1") [9], ptr)
    /\ deref (null_view (chars "set  led 1") [9], ptr)
       = tokens (chars "set  led 1") !! Z.to_nat 2.
Proof.
  apply (op_index_token (chars "set  led 1") [9]
           (null_view (chars "set  led 1") [9]) 2).
  - nonzero_chars.
  - repeat split.
  - lia.
Defined.

(** X2. A parameter exists exactly below the number of tokens: for
    [idx >= 0], [operator[]] returns a non-null pointer if and only if
    [idx] is less than the number of tokens of the command. *)
Theorem op_index_in_range (s rest : list Z) (p : ParameterLookup) (idx : Z) :
  Forall (fun c => c <> NUL) s ->
  view_of s rest p ->
  0 <= idx ->
  exists p' ptr,
    op_index idx p = Some (p', ptr)
    /\ (is_Some ptr <-> idx < Z.of_nat (token_count s)).
Proof.
  intros Hs Hv Hidx.
  rewrite (op_index_null_view s rest p idx Hs Hv) by lia.
  destruct (Z.leb_spec 0 idx); [|lia].
  eexists _, _. split; [reflexivity|].
  destruct (length_tokens s) as [<- _].
  destruct (token_offset_tokens s (Z.to_nat idx)) as [Htok _].
  rewrite <- (Z2Nat.id idx) at 2 by assumption.
  rewrite <- Nat2Z.inj_lt, <- lookup_lt_is_Some, <- Htok.
  by rewrite fmap_is_Some.
Qed.

Lemma op_index_in_range_witness :
  exists p' ptr,
    op_index 1 (null_view (chars "HELO ") []) = Some (p', ptr)
    /\ (is_Some ptr <-> 1 < Z.of_nat (token_count (chars "HELO "))).
Proof.
  apply (op_index_in_range (chars "HELO ") [] (null_view (chars "HELO ") []) 1).
  - nonzero_chars.
  - repeat split.
  - lia.
Defined.

(** X3. An index below -2 names no parameter: [operator[]] returns the null
    pointer for it, and leaves the view in the NUL form. *)
Theorem op_index_below_minus_2 (s rest : list Z) (p : ParameterLookup) (idx : Z) :
  Forall (fun c => c <> NUL) s ->
  view_of s rest p ->
  idx < -2 ->
  op_index idx p = Some (null_view s rest, None).
Proof.
  intros Hs Hv Hidx.
  rewrite (op_index_null_view s rest p idx Hs Hv) by lia.
  destruct (Z.leb_spec 0 idx); [lia|reflexivity].
Qed.

Lemma op_index_below_minus_2_witness :
  op_index (-5) (null_view (chars "HELO 1") [])
  = Some (null_view (chars "HELO 1") [], None).
Proof.
  apply (op_index_below_minus_2 (chars "HELO 1") [] (null_view (chars "HELO 1") []) (-5)).
  - nonzero_chars.
  - repeat split.
  - lia.
Defined.

Lemma view_of_space (s rest : list Z) (p : ParameterLookup) :
  view_of s rest p -> _stringHasNULLS p = false -> p = space_view s rest.
Proof.
  destruct p as [mem e flag sz]. intros (Hmem & Hend & Hsz) Hflag.
  simpl in *. subst flag. unfold space_view. by subst.
Qed.

(** X4. All the parameters: [operator[]] at index -2 leaves the view in the
    space form and returns a pointer at which the caller reads the command
    from its first parameter to its end, tabs as spaces; it returns the
    null pointer when the command has no parameter. *)
Theorem op_index_parameters (s rest : list Z) (p : ParameterLookup) :
  Forall (fun c => c <> NUL) s ->
  view_of s rest p ->
  exists ptr,
    op_index (-2) p = Some (space_view s rest, ptr)
    /\ deref (space_view s rest, ptr) = tabs_to_spaces <$> parameters s.
Proof.
  intros Hs Hv. unfold op_index. cbn [Z.eqb].
  assert (Hget : getParamPtr 1 p
                 = Some (null_view s rest, token_offset 1 false s)).
  { unfold getParamPtr at 1.
    destruct (_stringHasNULLS p) eqn:Hflag.
    - rewrite (view_of_null s rest p Hv Hflag).
      apply (getParamPtr_null_view s rest 1 Hs).
    - destruct (subSpacesForNULL_view s rest Hs p Hv Hflag) as (p' & Hsub & Hv' & Hf').
      rewrite Hsub, (view_of_null s rest p' Hv' Hf').
      apply (getParamPtr_null_view s rest 1 Hs). }
  rewrite Hget. cbn [mbind option_bind].
  destruct (restoreSpaces_view s rest Hs (null_view s rest)
              (view_of_null_view s rest) eq_refl) as (p2 & -> & Hv2 & Hf2).
  cbn [mbind option_bind]. rewrite (view_of_space s rest p2 Hv2 Hf2).
  eexists. split; [reflexivity|].
  unfold deref, parameters. cbn [fst snd].
  destruct (token_offset 1 false s) as [o|] eqn:Ho; [|reflexivity].
  cbn [fmap option_fmap option_map]. f_equal.
  apply token_offset_lt in Ho.
  unfold c_str, space_view. cbn [_theCommand].
  rewrite drop_tabs_to_spaces by lia.
  apply until_NUL_app, tabs_to_spaces_nonzero. by apply Forall_drop.
Qed.

Lemma op_index_parameters_witness :
  exists ptr,
    op_index (-2) (null_view (chars "mv 10 20") [])
    = Some (space_view (chars "mv 10 20") [], ptr)
    /\ deref (space_view (chars "mv 10 20") [], ptr)
       = tabs_to_spaces <$> parameters (chars "mv 10 20").
Proof.
  apply (op_index_parameters (chars "mv 10 20") [] (null_view (chars "mv 10 20") [])).
  - nonzero_chars.
  - repeat split.
Defined.

(** X5. The value of [size()]: after construction over a command shorter
    than the range of [unsigned int], and after any sequence of
    [operator[]] calls, [size()] is the number of tokens when the command
    ends inside a token, and one more when it is empty or ends with a space
    or a tab. *)
Theorem size_after_queries (s rest : list Z) (idxs : list Z) :
  Forall (fun c => c <> NUL) s ->
  Z.of_nat (length s) < 2 ^ int_bits - 1 ->
  exists p0 p1,
    ParameterLookup_new (s ++ NUL :: rest) = Some p0
    /\ queries idxs p0 = Some p1
    /\ size p0 = size p1
    /\ size p1 = Z.of_nat (token_count s)
                  + (if ends_in_token false s then 0 else 1).
Proof.
  intros Hs Hlen.
  destruct (ParameterLookup_new_view s rest Hs) as (p0 & Hnew & Hv0 & _).
  destruct (queries_view s rest Hs idxs p0 Hv0) as (p1 & Hq & Hv1).
  exists p0, p1. split; [assumption|]. split; [assumption|].
  destruct Hv0 as (_ & _ & Hs0), Hv1 as (_ & _ & Hs1).
  unfold size. rewrite Hs0, Hs1. split; [reflexivity|].
  unfold token_count. rewrite sub_size_runs by (try assumption; lia). simpl.
  destruct (ends_in_token false s); simpl; lia.
Qed.

Lemma size_after_queries_witness :
  exists p0 p1,
    ParameterLookup_new (chars "get  x " ++ NUL :: []) = Some p0
    /\ queries [1; -1; 0; -2] p0 = Some p1
    /\ size p0 = size p1
    /\ size p1 = Z.of_nat (token_count (chars "get  x "))
                  + (if ends_in_token false (chars "get  x ") then 0 else 1).
Proof.
  apply (size_after_queries (chars "get  x ") [] [1; -1; 0; -2]).
  - nonzero_chars.
  - vm_compute. reflexivity.
Defined.

(** X6. What [operator[]] writes: after construction and any sequence of
    calls, the buffer has its length, the terminator and the bytes after it
    are as they were, every character of a token is in its place, and every
    space or tab has become a NUL (NUL form) or a space (space form). *)
Theorem queries_frame (s rest : list Z) (idxs : list Z) :
  Forall (fun c => c <> NUL) s ->
  exists p0 p1,
    ParameterLookup_new (s ++ NUL :: rest) = Some p0
    /\ queries idxs p0 = Some p1
    /\ length (_theCommand p1) = length (s ++ NUL :: rest)
    /\ drop (length s) (_theCommand p1) = NUL :: rest
    /\ forall i c, s !! i = Some c ->
         _theCommand p1 !! i
         = Some (if is_delim c
                 then (if _stringHasNULLS p1 then NUL else SPACE)
                 else c).
Proof.
  intros Hs.
  destruct (ParameterLookup_new_view s rest Hs) as (p0 & Hnew & Hv0 & _).
  destruct (queries_view s rest Hs idxs p0 Hv0) as (p1 & Hq & Hv1).
  exists p0, p1. split; [assumption|]. split; [assumption|].
  split; [by apply view_of_length|].
  destruct Hv1 as (Hmem & _). rewrite Hmem. split.
  - destruct (_stringHasNULLS p1).
    + rewrite <- (length_nullify s). apply drop_app_length.
    + rewrite <- (length_tabs_to_spaces s). apply drop_app_length.
  - intros i c Hi. pose proof (lookup_lt_Some _ _ _ Hi) as Hlt.
    destruct (_stringHasNULLS p1).
    + rewrite lookup_app_l by (rewrite length_nullify; lia).
      unfold nullify. change (map ?f ?l) with (f <$> l).
      by rewrite list_lookup_fmap, Hi.
    + rewrite lookup_app_l by (rewrite length_tabs_to_spaces; lia).
      unfold tabs_to_spaces. change (map ?f ?l) with (f <$> l).
      rewrite list_lookup_fmap, Hi. simpl. f_equal.
      unfold is_delim, TAB, SPACE. repeat case_match; lia.
Qed.

Lemma queries_frame_witness :
  exists p0 p1,
    ParameterLookup_new (chars "a b" ++ NUL :: [5; 6]) = Some p0
    /\ queries [1; -2; 0] p0 = Some p1
    /\ length (_theCommand p1) = length (chars "a b" ++ NUL :: [5; 6])
    /\ drop (length (chars "a b")) (_theCommand p1) = NUL :: [5; 6]
    /\ forall i c, chars "a b" !! i = Some c ->
         _theCommand p1 !! i
         = Some (if is_delim c
                 then (if _stringHasNULLS p1 then NUL else SPACE)
                 else c).
Proof.
  apply (queries_frame (chars "a b") [5; 6] [1; -2; 0]). nonzero_chars.
Defined.

(** ** [CommandHandler]: receiving a line *)

Lemma addCommandChar_CR (h : CommandHandler) : (addCommandChar CR h).2 = h.
Proof. unfold addCommandChar. by destruct (_bufferFull h). Qed.

Lemma feed_payload (cs : list Z) (h : CommandHandler) :
  feed cs h = feed (payload cs) h.
Proof.
  unfold payload. revert h. induction cs as [|c cs IH]; intros h; [reflexivity|].
  destruct (decide (c = CR)) as [->|Hc].
  - rewrite filter_cons_False by (intros H; by apply H).
    cbn [feed foldl]. rewrite addCommandChar_CR. apply IH.
  - rewrite filter_cons_True by assumption. cbn [feed foldl]. apply IH.
Qed.

Lemma feed_app (cs1 cs2 : list Z) (h : CommandHandler) :
  feed (cs1 ++ cs2) h = feed cs2 (feed cs1 h).
Proof. unfold feed. apply foldl_app. Qed.

Lemma addCommandChar_newline (h : CommandHandler) :
  _bufferFull h = false ->
  (addCommandChar LF h).2
  = {| _lookupList := _lookupList h; _bufferFull := true;
       _inputBuffer := _inputBuffer h; _bufferLength := _bufferLength h;
       _command_too_long := _command_too_long h |}.
Proof. intros Hf. unfold addCommandChar. by rewrite Hf. Qed.

(** A character that is stored. *)
Lemma addCommandChar_stored (c : Z) (h : CommandHandler) :
  _bufferFull h = false -> _command_too_long h = false ->
  c <> LF -> c <> CR ->
  (_bufferLength h < COMMAND_SIZE_MAX - 1)%nat ->
  addCommandChar c h
  = (NO_ERROR,
     {| _lookupList := _lookupList h; _bufferFull := false;
        _inputBuffer :=
          <[S (_bufferLength h) := NUL]> (<[_bufferLength h := c]> (_inputBuffer h));
        _bufferLength := S (_bufferLength h);
        _command_too_long := false |}).
Proof.
  intros Hf Ht Hlf Hcr Hlen. unfold addCommandChar. rewrite Hf, Ht.
  destruct (Z.eqb_spec c LF); [contradiction|].
  destruct (Z.eqb_spec c CR); [contradiction|].
  rewrite bool_decide_eq_false_2 by lia. reflexivity.
Qed.

(** Characters that fit are appended to the line, which stays terminated. *)
Lemma feed_stored (body : list Z) :
  forall h,
    handler_ok h ->
    _bufferFull h = false -> _command_too_long h = false ->
    LF ∉ body -> CR ∉ body ->
    (_bufferLength h + length body <= COMMAND_SIZE_MAX - 1)%nat ->
    feed body h
    = {| _lookupList := _lookupList h; _bufferFull := false;
         _inputBuffer :=
           take (_bufferLength h) (_inputBuffer h) ++ body
           ++ NUL :: drop (S (_bufferLength h + length body)) (_inputBuffer h);
         _bufferLength := (_bufferLength h + length body)%nat;
         _command_too_long := false |}.
Proof.
  induction body as [|c body IH]; intros h Hok Hf Ht Hlf Hcr Hlen.
  - destruct Hok as (_ & _ & Hnul & _). cbn [feed foldl app length].
    rewrite Nat.add_0_r, take_drop_middle by assumption.
    destruct h; simpl in *; by subst.
  - apply not_elem_of_cons in Hlf as [Hc1 Hlf].
    apply not_elem_of_cons in Hcr as [Hc2 Hcr].
    simpl length in Hlen. cbn [feed foldl]. fold (feed body (addCommandChar c h).2).
    pose proof (handler_ok_add c h Hok) as Hok1.
    rewrite addCommandChar_stored in * by (try done; lia).
    cbn [snd] in *. unfold COMMAND_SIZE_MAX in *.
    rewrite IH; try done; cbn [_lookupList _inputBuffer _bufferLength]; [|lia].
    destruct Hok as (Hbl & _). unfold COMMAND_SIZE_MAX in Hbl.
    f_equal; [|simpl; lia].
    rewrite take_insert_ge by lia.
    rewrite (take_S_r _ _ c) by (apply list_lookup_insert_eq; lia).
    rewrite take_insert_ge by lia.
    rewrite !drop_insert_lt by lia.
    rewrite <- app_assoc. simpl.
    by replace (_bufferLength h + S (length body))%nat
      with (S (_bufferLength h + length body)) by lia.
Qed.

(** Characters that do not fit set the flag. *)
Lemma feed_overrun (body : list Z) :
  forall h,
    _bufferFull h = false ->
    LF ∉ body -> CR ∉ body ->
    (_command_too_long h = true
     \/ COMMAND_SIZE_MAX - 1 < _bufferLength h + length body)%nat ->
    (_bufferLength h <= COMMAND_SIZE_MAX - 1)%nat ->
    _bufferFull (feed body h) = false /\ _command_too_long (feed body h) = true.
Proof.
  unfold COMMAND_SIZE_MAX.
  induction body as [|c body IH]; intros h Hf Hlf Hcr Hover Hle.
  - destruct Hover as [Ht|Hlt]; [by split|simpl in Hlt; lia].
  - apply not_elem_of_cons in Hlf as [Hc1 Hlf].
    apply not_elem_of_cons in Hcr as [Hc2 Hcr].
    cbn [feed foldl]. fold (feed body (addCommandChar c h).2).
    assert (Hstep : _bufferFull (addCommandChar c h).2 = false
              /\ (_bufferLength (addCommandChar c h).2 <= 150 - 1)%nat
              /\ (_command_too_long (addCommandChar c h).2 = true
                  \/ 150 - 1
                     < _bufferLength (addCommandChar c h).2 + length body)%nat).
    { unfold addCommandChar, COMMAND_SIZE_MAX. rewrite Hf.
      destruct (Z.eqb_spec c LF); [congruence|].
      destruct (Z.eqb_spec c CR); [congruence|].
      destruct (_command_too_long h) eqn:Ht; simpl; [by repeat split; auto|].
      case_bool_decide as Hfull; simpl; [by repeat split; auto|].
      destruct Hover as [|Hlt]; [discriminate|]. simpl in Hlt.
      repeat split; [lia|]. right. lia. }
    destruct Hstep as (Hf1 & Hle1 & Hover1). by apply IH.
Qed.

Lemma feed_line_state (line : list Z) (h : CommandHandler) :
  handler_ok h -> idle h ->
  LF ∉ line ->
  (length (payload line) <= COMMAND_SIZE_MAX - 1)%nat ->
  commandWaiting (feed (line ++ [LF]) h) = true
  /\ _command_too_long (feed (line ++ [LF]) h) = false
  /\ _bufferLength (feed (line ++ [LF]) h) = length (payload line)
  /\ take (S (length (payload line))) (_inputBuffer (feed (line ++ [LF]) h))
     = payload line ++ [NUL]
  /\ _lookupList (feed (line ++ [LF]) h) = _lookupList h.
Proof.
  intros Hok (Hf & Ht & Hl) Hlf Hlen.
  assert (Hlf' : LF ∉ payload line).
  { unfold payload. intros Hin. apply list_elem_of_filter in Hin as [_ Hin].
    contradiction. }
  assert (Hcr' : CR ∉ payload line).
  { unfold payload. intros Hin. apply list_elem_of_filter in Hin as [Hne _].
    by apply Hne. }
  pose proof (feed_stored (payload line) h Hok Hf Ht Hlf' Hcr') as Hfeed.
  rewrite Hl in Hfeed. cbn [Nat.add take app] in Hfeed.
  rewrite feed_app, (feed_payload line), Hfeed by assumption.
  cbn [feed foldl]. rewrite addCommandChar_newline by reflexivity.
  unfold commandWaiting, bufferFull. simpl. repeat split.
  rewrite take_app_ge by lia.
  replace (S (length (payload line)) - length (payload line))%nat with 1%nat by lia.
  reflexivity.
Qed.

(** X7. Receiving a line: on a handler between two lines, the characters of
    a line and its newline leave the handler with a command waiting, the
    line without its carriage returns in the buffer, terminated, and the
    length set to match, as long as that is at most [COMMAND_SIZE_MAX - 1]
    characters; the table is not touched. *)
Theorem feed_line (line : list Z) (h : CommandHandler) :
  handler_ok h -> idle h ->
  LF ∉ line ->
  (length (payload line) <= COMMAND_SIZE_MAX - 1)%nat ->
  commandWaiting (feed (line ++ [LF]) h) = true
  /\ _command_too_long (feed (line ++ [LF]) h) = false
  /\ _bufferLength (feed (line ++ [LF]) h) = length (payload line)
  /\ take (S (length (payload line))) (_inputBuffer (feed (line ++ [LF]) h))
     = payload line ++ [NUL]
  /\ _lookupList (feed (line ++ [LF]) h) = _lookupList h.
Proof. apply feed_line_state. Qed.

Lemma feed_line_witness :
  commandWaiting (feed (chars "ping" ++ [CR] ++ [LF]) two_commands) = true
  /\ _command_too_long (feed (chars "ping" ++ [CR] ++ [LF]) two_commands) = false
  /\ _bufferLength (feed (chars "ping" ++ [CR] ++ [LF]) two_commands)
     = length (payload (chars "ping" ++ [CR]))
  /\ take (S (length (payload (chars "ping" ++ [CR]))))
       (_inputBuffer (feed (chars "ping" ++ [CR] ++ [LF]) two_commands))
     = payload (chars "ping" ++ [CR]) ++ [NUL]
  /\ _lookupList (feed (chars "ping" ++ [CR] ++ [LF]) two_commands)
     = _lookupList two_commands.
Proof.
  pose proof (feed_line (chars "ping" ++ [CR]) two_commands) as H.
  rewrite <- app_assoc in H. apply H.
  - repeat split; vm_compute; (reflexivity || lia).
  - by repeat split.
  - vm_compute. intros Hin. repeat (apply elem_of_cons in Hin as [Hin|Hin]; [discriminate|]).
    by apply elem_of_nil in Hin.
  - vm_compute. lia.
Defined.

(** X8. Carriage returns are dropped wherever they come: a stream of
    characters leaves any handler in the state the same stream without its
    carriage returns leaves it in. *)
Theorem feed_ignores_CR (cs : list Z) (h : CommandHandler) :
  feed cs h = feed (filter (fun c => c <> CR) cs) h.
Proof. apply feed_payload. Qed.

Lemma handler_ok_feed (cs : list Z) (h : CommandHandler) :
  handler_ok h -> handler_ok (feed cs h).
Proof.
  revert h. induction cs as [|c cs IH]; intros h Hok; [assumption|].
  apply IH. by apply handler_ok_add.
Qed.

Lemma payload_no_LF (line : list Z) : LF ∉ line -> LF ∉ payload line.
Proof.
  unfold payload. intros Hlf Hin. apply list_elem_of_filter in Hin. tauto.
Qed.

Lemma payload_no_CR (line : list Z) : CR ∉ payload line.
Proof.
  unfold payload. intros Hin. apply list_elem_of_filter in Hin as [Hne _].
  by apply Hne.
Qed.

(** X9. A line that is too long: on a handler between two lines, a line of
    more than [COMMAND_SIZE_MAX - 1] characters (carriage returns apart)
    leaves the too-long flag set, and the [executeCommand] after its
    newline returns [COMMAND_TOO_LONG], calls nothing and clears the
    buffer. *)
Theorem execute_long_line (line : list Z) (h : CommandHandler) :
  handler_ok h -> idle h ->
  LF ∉ line ->
  (COMMAND_SIZE_MAX - 1 < length (payload line))%nat ->
  _command_too_long (feed line h) = true
  /\ executeCommand (feed (line ++ [LF]) h)
     = Some (COMMAND_TOO_LONG, clearBuffer (feed (line ++ [LF]) h), []).
Proof.
  intros Hok (Hf & Ht & Hl) Hlf Hlen.
  destruct (feed_overrun (payload line) h Hf (payload_no_LF line Hlf)
              (payload_no_CR line)) as [Hf1 Ht1]; [right; lia|lia|].
  rewrite <- feed_payload in Hf1, Ht1. split; [assumption|].
  assert (Ht2 : _command_too_long (feed (line ++ [LF]) h) = true).
  { rewrite feed_app. by apply feed_keeps_too_long. }
  rewrite executeCommand_not_dispatching by (apply not_dispatches; auto).
  unfold idle_code. by rewrite Ht2.
Qed.

Lemma execute_long_line_witness :
  _command_too_long (feed (replicate 150 65) two_commands) = true
  /\ executeCommand (feed (replicate 150 65 ++ [LF]) two_commands)
     = Some (COMMAND_TOO_LONG,
             clearBuffer (feed (replicate 150 65 ++ [LF]) two_commands), []).
Proof.
  apply (execute_long_line (replicate 150 65) two_commands).
  - repeat split; vm_compute; (reflexivity || lia).
  - by repeat split.
  - intros Hin. apply elem_of_replicate in Hin as [Hin _]. discriminate.
  - vm_compute. lia.
Defined.

Lemma c_str_of_prefix (buf body : list Z) :
  NUL ∉ body ->
  take (S (length body)) buf = body ++ [NUL] ->
  c_str buf 0 = body.
Proof.
  intros Hn Htake. unfold c_str. rewrite drop_0.
  rewrite <- (take_drop (S (length body)) buf), Htake, <- app_assoc.
  apply until_NUL_app. apply Forall_forall. intros c Hc ->. contradiction.
Qed.

Lemma dispatch_line_spec (l : CommandLookup) (s : list Z) :
  Forall (fun c => c <> NUL) s ->
  skip_delims s <> [] ->
  (_commandsIdx l <= array_size l)%nat ->
  arities_are_int l ->
  Z.of_nat (length s) < 2 ^ (int_bits - 1) ->
  dispatch_line l s
  = Some (dispatch_spec l (crc32_lower (first_token s)) (null_view s [])).
Proof.
  intros Hs Hkey Hidx Har Hlen. unfold dispatch_line.
  destruct (callStoredCommand_spec l s [] (null_view s []) Hs Hkey
              (view_of_null_view s []) Hidx Har Hlen) as (p' & _ & ->).
  by destruct (dispatch_spec _ _ _).
Qed.

(** The handler a line leaves, ready to be executed. *)
Lemma feed_line_ready (line : list Z) (h : CommandHandler) :
  handler_ok h -> idle h ->
  LF ∉ line -> NUL ∉ line ->
  payload line <> [] ->
  (length (payload line) <= COMMAND_SIZE_MAX - 1)%nat ->
  handler_ok (feed (line ++ [LF]) h)
  /\ dispatches (feed (line ++ [LF]) h)
  /\ c_str (_inputBuffer (feed (line ++ [LF]) h)) 0 = payload line
  /\ _lookupList (feed (line ++ [LF]) h) = _lookupList h.
Proof.
  intros Hok Hidle Hlf Hnul Hne Hlen.
  destruct (feed_line_state line h Hok Hidle Hlf Hlen) as (Hw & Ht & Hl & Hb & Htab).
  split; [by apply handler_ok_feed|]. split; [|split; [|assumption]].
  - repeat split; try assumption. rewrite Hl. by destruct (payload line).
  - apply c_str_of_prefix; [|assumption].
    unfold payload. intros Hin. apply list_elem_of_filter in Hin. tauto.
Qed.

(** X10. From the characters to the call: on a handler between two lines, a
    line with a keyword, of at most [COMMAND_SIZE_MAX - 1] characters, then
    its newline, then [executeCommand], return and call what
    [dispatch_spec] says for the hash of the keyword of the line, and leave
    the handler between two lines with the same table. *)
Theorem execute_line (line : list Z) (h : CommandHandler) :
  handler_ok h -> idle h ->
  LF ∉ line -> NUL ∉ line ->
  skip_delims (payload line) <> [] ->
  (length (payload line) <= COMMAND_SIZE_MAX - 1)%nat ->
  arities_are_int (_lookupList h) ->
  exists h',
    executeCommand (feed (line ++ [LF]) h)
    = Some ((dispatch_spec (_lookupList h)
               (crc32_lower (first_token (payload line)))
               (null_view (payload line) [])).1,
            h',
            (dispatch_spec (_lookupList h)
               (crc32_lower (first_token (payload line)))
               (null_view (payload line) [])).2)
    /\ idle h' /\ handler_ok h' /\ _lookupList h' = _lookupList h.
Proof.
  intros Hok Hidle Hlf Hnul Hkey Hlen Har.
  assert (Hne : payload line <> []) by (intros Heq; by rewrite Heq in Hkey).
  destruct (feed_line_ready line h Hok Hidle Hlf Hnul Hne Hlen)
    as (Hok1 & Hd1 & Hstr & Htab).
  pose proof (executeCommand_dispatching _ Hok1 Hd1) as Hex.
  rewrite Hstr, Htab in Hex.
  rewrite dispatch_line_spec in Hex; try assumption.
  - destruct (dispatch_spec _ _ _) as [r calls].
    destruct Hex as (b & Hb & Hex). eexists. split; [exact Hex|].
    destruct (executeCommand_post _ _ _ _ Hok1 Hex) as (Hok' & ? & ? & ? & _ & Hl').
    split; [by repeat split|]. split; [assumption|]. by etrans; [exact Hl'|].
  - rewrite <- Hstr. apply until_NUL_nonzero.
  - apply Hok.
  - unfold COMMAND_SIZE_MAX, int_bits in *. change (2 ^ (16 - 1)) with 32768. lia.
Qed.

Lemma execute_line_witness :
  exists h',
    executeCommand (feed (chars "cmd 1 2" ++ [LF]) two_commands)
    = Some ((dispatch_spec (_lookupList two_commands)
               (crc32_lower (first_token (payload (chars "cmd 1 2"))))
               (null_view (payload (chars "cmd 1 2")) [])).1,
            h',
            (dispatch_spec (_lookupList two_commands)
               (crc32_lower (first_token (payload (chars "cmd 1 2"))))
               (null_view (payload (chars "cmd 1 2")) [])).2)
    /\ idle h' /\ handler_ok h' /\ _lookupList h' = _lookupList two_commands.
Proof.
  apply (execute_line (chars "cmd 1 2") two_commands).
  - repeat split; vm_compute; (reflexivity || lia).
  - by repeat split.
  - vm_compute. intros Hin.
    repeat (apply elem_of_cons in Hin as [Hin|Hin]; [discriminate|]).
    by apply elem_of_nil in Hin.
  - vm_compute. intros Hin.
    repeat (apply elem_of_cons in Hin as [Hin|Hin]; [discriminate|]).
    by apply elem_of_nil in Hin.
  - vm_compute. discriminate.
  - vm_compute. lia.
  - unfold arities_are_int. vm_compute. repeat constructor; discriminate.
Defined.

(** X11. An empty line: on a handler between two lines, a newline preceded
    by nothing but carriage returns makes [executeCommand] return
    [EMPTY_COMMAND_STRING]; nothing is called. *)
Theorem execute_empty_line (line : list Z) (h : CommandHandler) :
  handler_ok h -> idle h ->
  payload line = [] ->
  executeCommand (feed (line ++ [LF]) h)
  = Some (EMPTY_COMMAND_STRING, clearBuffer (feed (line ++ [LF]) h), []).
Proof.
  intros Hok Hidle Hempty.
  assert (Hlf : LF ∉ line).
  { intros Hin. assert (Hp : LF ∈ payload line);
      [|rewrite Hempty in Hp; by apply elem_of_nil in Hp].
    unfold payload. apply list_elem_of_filter. by split. }
  destruct (feed_line_state line h Hok Hidle Hlf) as (Hw & Ht & Hl & _);
    [rewrite Hempty; simpl; lia|].
  rewrite Hempty in Hl.
  rewrite executeCommand_not_dispatching by (apply not_dispatches; auto).
  unfold idle_code. by rewrite Ht, Hw.
Qed.

Lemma execute_empty_line_witness :
  executeCommand (feed ([CR] ++ [LF]) two_commands)
  = Some (EMPTY_COMMAND_STRING, clearBuffer (feed ([CR] ++ [LF]) two_commands), []).
Proof.
  apply (execute_empty_line [CR] two_commands).
  - repeat split; vm_compute; (reflexivity || lia).
  - by repeat split.
  - reflexivity.
Defined.

(** X12. The buffer always holds a C string: in every handler a program can
    get to, the buffer has its [COMMAND_SIZE_MAX + 1] bytes, the length is
    at most [COMMAND_SIZE_MAX - 1], a NUL stands at the length, and the
    table has not outgrown its array. *)
Theorem reachable_handler_ok (h : CommandHandler) :
  reachable h ->
  length (_inputBuffer h) = S COMMAND_SIZE_MAX
  /\ (_bufferLength h <= COMMAND_SIZE_MAX - 1)%nat
  /\ _inputBuffer h !! _bufferLength h = Some NUL
  /\ (_commandsIdx (_lookupList h) <= array_size (_lookupList h))%nat.
Proof. apply reachable_ok. Qed.

Lemma reachable_handler_ok_witness :
  length (_inputBuffer overflowed) = S COMMAND_SIZE_MAX
  /\ (_bufferLength overflowed <= COMMAND_SIZE_MAX - 1)%nat
  /\ _inputBuffer overflowed !! _bufferLength overflowed = Some NUL
  /\ (_commandsIdx (_lookupList overflowed) <= array_size (_lookupList overflowed))%nat.
Proof.
  apply (reachable_handler_ok overflowed).
  apply reachable_feed, reachable_fresh.
Defined.

(** ** [crc32b]: what it reads *)

Lemma crc32b_loop_no_NUL (l : list Z) :
  Forall (fun c => c <> NUL) l ->
  forall fuel mem str i crc,
    drop (str + i) mem = l ->
    crc32b_loop fuel mem str i crc = None.
Proof.
  induction 1 as [|c l Hc _ IH]; intros fuel mem str i crc Hdrop;
    (destruct fuel as [|fuel]; [reflexivity|]); cbn [crc32b_loop].
  - rewrite lookup_ge_None_2; [reflexivity|].
    destruct (decide (length mem <= str + i)%nat) as [|Hlt]; [assumption|].
    apply (f_equal length) in Hdrop. rewrite length_drop in Hdrop.
    simpl in Hdrop. lia.
  - apply drop_cons_inv in Hdrop as [-> Hdrop].
    destruct (Z.eqb_spec c NUL); [contradiction|].
    apply IH. by replace (str + S i)%nat with (S (str + i)) by lia.
Qed.

(** [crc32b] reads the string at [str] up to its NUL and nothing else. *)
Lemma crc32b_reads (mem : list Z) (str : nat) :
  crc32b mem str
  = if decide (NUL ∈ drop str mem)
    then Some (crc32_lower (c_str mem str)) else None.
Proof.
  case_decide as Hin; [by apply crc32b_c_str|].
  unfold crc32b. rewrite (crc32b_loop_no_NUL (drop str mem)).
  - reflexivity.
  - apply Forall_forall. intros c Hc ->. contradiction.
  - by rewrite Nat.add_0_r.
Qed.

(** ** [crc32b] against CRC-32 *)

Lemma lxor_range (n a b : Z) :
  0 <= n -> 0 <= a < 2 ^ n -> 0 <= b < 2 ^ n -> 0 <= Z.lxor a b < 2 ^ n.
Proof.
  intros Hn Ha Hb. split; [apply Z.lxor_nonneg; lia|].
  destruct (Z.eq_dec (Z.lxor a b) 0) as [->|Hne]; [lia|].
  assert (Hpos : 0 < Z.lxor a b).
  { assert (0 <= Z.lxor a b) by (apply Z.lxor_nonneg; lia). lia. }
  apply Z.log2_lt_pow2; [assumption|].
  pose proof (Z.log2_lxor a b ltac:(lia) ltac:(lia)) as Hlog.
  assert (Hla : a = 0 \/ Z.log2 a < n).
  { destruct (Z.eq_dec a 0); [by left|right]. apply Z.log2_lt_pow2; lia. }
  assert (Hlb : b = 0 \/ Z.log2 b < n).
  { destruct (Z.eq_dec b 0); [by left|right]. apply Z.log2_lt_pow2; lia. }
  assert (Z.log2 0 = 0) by reflexivity.
  destruct Hla as [->|Hla], Hlb as [->|Hlb]; try lia.
  - rewrite Z.lxor_0_l in *. lia.
  - rewrite Z.lxor_0_l in *. lia.
  - rewrite Z.lxor_0_r in *. lia.
Qed.

(** One round of the inner loop of [crc32b], with its mask, is one shift
    of the CRC register. *)
Lemma crc32b_round (crc : Z) :
  0 <= crc < 2 ^ 32 ->
  Z.lxor (Z.shiftr crc 1) (Z.land 0xEDB88320 (uint32 (- Z.land crc 1)))
  = crc32_shift crc
  /\ 0 <= crc32_shift crc < 2 ^ 32.
Proof.
  intros Hr. unfold crc32_shift.
  pose proof (Z.land_ones crc 1 ltac:(lia)) as Hl.
  change (Z.ones 1) with 1 in Hl. change (2 ^ 1) with 2 in Hl.
  rewrite Hl, Z.shiftr_div_pow2 by lia. change (2 ^ 1) with 2.
  assert (Hhalf : 0 <= crc / 2 < 2 ^ 31).
  { change (2 ^ 32) with (2 * 2 ^ 31) in Hr.
    split; [apply Z.div_pos; lia|apply Z.div_lt_upper_bound; lia]. }
  rewrite Zmod_odd. destruct (Z.odd crc); cbv iota.
  - change (uint32 (Z.opp 1)) with (Z.ones 32). rewrite Z.land_ones by lia.
    change (0xEDB88320 mod 2 ^ 32) with 0xEDB88320.
    split; [reflexivity|]. apply lxor_range; lia.
  - change (uint32 (Z.opp 0)) with 0. rewrite Z.land_0_r, Z.lxor_0_r. lia.
Qed.

Lemma crc32b_rounds_iter (n : nat) :
  forall crc,
    0 <= crc < 2 ^ 32 ->
    crc32b_rounds n crc = Nat.iter n crc32_shift crc
    /\ 0 <= Nat.iter n crc32_shift crc < 2 ^ 32.
Proof.
  induction n as [|n IH]; intros crc Hr; [by split|].
  cbn [crc32b_rounds]. cbv zeta.
  destruct (crc32b_round crc Hr) as [-> Hr'].
  rewrite Nat.iter_succ_r. by apply IH.
Qed.

Lemma tolower_byte (c : Z) :
  0 <= c < 256 -> 0 <= tolower c < 256 /\ uint32 (tolower c) = tolower c.
Proof.
  intros Hc. assert (H : 0 <= tolower c < 256).
  { unfold tolower. destruct (_ && _) eqn:He; [|lia].
    apply andb_true_iff in He as [_ He]. apply Z.leb_le in He. lia. }
  split; [assumption|]. unfold uint32. apply Z.mod_small. lia.
Qed.

Lemma fold_crc_step_crc32 (s : list Z) :
  Forall (fun c => 0 <= c < 256) s ->
  forall crc,
    0 <= crc < 2 ^ 32 ->
    fold_left crc_step s crc = fold_left crc32_byte (map tolower s) crc
    /\ 0 <= fold_left crc32_byte (map tolower s) crc < 2 ^ 32.
Proof.
  induction 1 as [|c s Hc _ IH]; intros crc Hr; [by split|].
  cbn [fold_left map]. destruct (tolower_byte c Hc) as [Hb Hu].
  unfold crc_step at 2. rewrite Hu.
  destruct (crc32b_rounds_iter 8 (Z.lxor crc (tolower c))) as [-> Hr'];
    [apply lxor_range; lia|].
  by apply IH.
Qed.

(** On bytes, the hash of the code is CRC-32 of the lower-cased
    characters. *)
Lemma crc32_lower_crc32 (s : list Z) :
  Forall (fun c => 0 <= c < 256) s ->
  crc32_lower s = crc32 (map tolower s).
Proof.
  intros Hs. unfold crc32_lower, crc32.
  destruct (fold_crc_step_crc32 s Hs 0xFFFFFFFF) as [-> Hr]; [lia|].
  set (x := fold_left _ _ _) in *. unfold uint32, Z.lnot.
  change 0xFFFFFFFF with (2 ^ 32 - 1).
  symmetry. apply (Z.mod_unique _ _ (-1)); lia.
Qed.

Example crc32_check_value : crc32 (chars "123456789") = 0xCBF43926.
Proof. vm_compute. reflexivity. Qed.


(** X13. [crc32b] reads the string at [str] up to its NUL and nothing else,
    and on characters that are bytes (0 to 255) its value is the CRC-32 of
    the lower-cased characters: register seeded with all ones, reversed
    polynomial 0xEDB88320, one shift a bit, result complemented.  When no
    NUL follows [str] in the buffer, it reads past the end and has no
    defined result. *)
Theorem crc32b_reads_c_str (mem : list Z) (str : nat) :
  Forall (fun c => 0 <= c < 256) (c_str mem str) ->
  crc32b mem str
  = if decide (NUL ∈ drop str mem)
    then Some (crc32 (map tolower (c_str mem str))) else None.
Proof.
  intros Hbytes. rewrite crc32b_reads.
  case_decide; [|reflexivity]. by rewrite crc32_lower_crc32.
Qed.

Lemma crc32b_reads_c_str_witness :
  crc32b (chars "xx" ++ chars "PiNg" ++ [NUL; 65; NUL]) 2
  = if decide (NUL ∈ drop 2 (chars "xx" ++ chars "PiNg" ++ [NUL; 65; NUL]))
    then Some (crc32 (map tolower
                        (c_str (chars "xx" ++ chars "PiNg" ++ [NUL; 65; NUL]) 2)))
    else None.
Proof.
  apply (crc32b_reads_c_str (chars "xx" ++ chars "PiNg" ++ [NUL; 65; NUL]) 2).
  vm_compute. repeat constructor; discriminate.
Defined.

(** ** [CommandLookup]: registering *)

Lemma crc32_lower_uint32 (s : list Z) : uint32 (crc32_lower s) = crc32_lower s.
Proof. unfold crc32_lower, uint32. by rewrite Z.mod_mod. Qed.

Lemma crc32_lower_tolower (s : list Z) :
  crc32_lower (map tolower s) = crc32_lower s.
Proof. unfold crc32_lower. by rewrite fold_crc_step_tolower. Qed.

Lemma registered_register (keyHash n : Z) (f : commandFunction) (l : CommandLookup) :
  (_commandsIdx l < array_size l)%nat ->
  CommandLookup_registerCommand keyHash n f l
  = (NO_ERROR,
     {| _commands :=
          <[_commandsIdx l := {| dataStruct.hash := uint32 keyHash;
                                 dataStruct.n := n; dataStruct.f := f |}]>
            (_commands l);
        _commandsIdx := S (_commandsIdx l) |})
  /\ registered (CommandLookup_registerCommand keyHash n f l).2
     = registered l ++ [{| dataStruct.hash := uint32 keyHash;
                           dataStruct.n := n; dataStruct.f := f |}].
Proof.
  intros Hlt. unfold CommandLookup_registerCommand.
  rewrite bool_decide_eq_false_2 by lia. split; [reflexivity|].
  unfold registered, array_size in *. cbn [snd _commands _commandsIdx].
  rewrite (take_S_r _ _ {| dataStruct.hash := uint32 keyHash;
                           dataStruct.n := n; dataStruct.f := f |})
    by (by apply list_lookup_insert_eq).
  by rewrite take_insert_ge by lia.
Qed.

(** X14. Registering: in a table within its array, [registerCommand] on a
    full table returns [OUT_OF_MEM] and changes nothing; otherwise it
    returns [NO_ERROR], and the registered entries are those before
    followed by the new one, its hash reduced to 32 bits.  The array keeps
    its size and the table stays within it. *)
Theorem registerCommand_appends (keyHash n : Z) (f : commandFunction)
    (l : CommandLookup) :
  (_commandsIdx l <= array_size l)%nat ->
  array_size (CommandLookup_registerCommand keyHash n f l).2 = array_size l
  /\ (_commandsIdx (CommandLookup_registerCommand keyHash n f l).2
      <= array_size l)%nat
  /\ if bool_decide (_commandsIdx l < array_size l)%nat
     then (CommandLookup_registerCommand keyHash n f l).1 = NO_ERROR
          /\ registered (CommandLookup_registerCommand keyHash n f l).2
             = registered l ++ [{| dataStruct.hash := keyHash mod 2 ^ 32;
                                   dataStruct.n := n; dataStruct.f := f |}]
     else CommandLookup_registerCommand keyHash n f l = (OUT_OF_MEM, l).
Proof.
  intros Hle. case_bool_decide as Hlt.
  - destruct (registered_register keyHash n f l Hlt) as [Heq Hreg].
    rewrite Hreg, Heq. unfold array_size. cbn [fst snd _commands _commandsIdx].
    rewrite length_insert. unfold array_size in Hlt. repeat split. lia.
  - unfold CommandLookup_registerCommand.
    rewrite bool_decide_eq_true_2 by lia. by repeat split.
Qed.

Lemma registerCommand_appends_witness :
  array_size (CommandLookup_registerCommand 5 1 ping_function
                (_lookupList two_commands)).2
  = array_size (_lookupList two_commands)
  /\ (_commandsIdx (CommandLookup_registerCommand 5 1 ping_function
                      (_lookupList two_commands)).2
      <= array_size (_lookupList two_commands))%nat
  /\ if bool_decide (_commandsIdx (_lookupList two_commands)
                     < array_size (_lookupList two_commands))%nat
     then (CommandLookup_registerCommand 5 1 ping_function
             (_lookupList two_commands)).1 = NO_ERROR
          /\ registered (CommandLookup_registerCommand 5 1 ping_function
                           (_lookupList two_commands)).2
             = registered (_lookupList two_commands)
               ++ [{| dataStruct.hash := 5 mod 2 ^ 32;
                      dataStruct.n := 1; dataStruct.f := ping_function |}]
     else CommandLookup_registerCommand 5 1 ping_function
            (_lookupList two_commands)
          = (OUT_OF_MEM, _lookupList two_commands).
Proof.
  apply (registerCommand_appends 5 1 ping_function (_lookupList two_commands)).
  vm_compute. lia.
Defined.

Section find_last.
Context {A : Type} (P : A -> Prop) `{forall x, Decision (P x)}.

Lemma list_find_snoc (l : list A) (x : A) :
  list_find P (l ++ [x])
  = match list_find P l with
    | Some r => Some r
    | None => if decide (P x) then Some (length l, x) else None
    end.
Proof.
  induction l as [|y l IH]; cbn [app list_find length].
  - by destruct (decide (P x)).
  - destruct (decide (P y)); [reflexivity|]. rewrite IH.
    destruct (list_find P l) as [[i z]|]; [reflexivity|].
    by destruct (decide (P x)).
Qed.
End find_last.

(** [callStoredCommand] does not depend on the form the view is in. *)
Lemma callStoredCommand_any_form (l : CommandLookup) (s rest : list Z)
    (p : ParameterLookup) :
  Forall (fun c => c <> NUL) s ->
  view_of s rest p ->
  callStoredCommand l p = callStoredCommand l (null_view s rest).
Proof.
  intros Hs Hv. unfold callStoredCommand.
  rewrite (op_index_null_view s rest p 0 Hs Hv) by lia.
  by rewrite (op_index_null_view s rest (null_view s rest) 0 Hs
                (view_of_null_view s rest)) by lia.
Qed.

(** X15. First registered wins: registering a hash that the table already
    holds changes the result of no dispatch, on any view. *)
Theorem register_shadowed (keyHash n : Z) (f : commandFunction)
    (l : CommandLookup) (s rest : list Z) (p : ParameterLookup) :
  (_commandsIdx l <= array_size l)%nat ->
  Exists (fun d => dataStruct.hash d = uint32 keyHash) (registered l) ->
  Forall (fun c => c <> NUL) s ->
  view_of s rest p ->
  callStoredCommand (CommandLookup_registerCommand keyHash n f l).2 p
  = callStoredCommand l p.
Proof.
  intros Hidx Hex Hs Hv.
  destruct (decide (_commandsIdx l < array_size l)%nat) as [Hlt|Hfull];
    [|unfold CommandLookup_registerCommand;
      by rewrite bool_decide_eq_true_2 by lia].
  destruct (registered_register keyHash n f l Hlt) as [Heq Hreg].
  rewrite !(callStoredCommand_any_form _ s rest p) by assumption.
  destruct (decide (skip_delims s = [])) as [Hnone|Hkey];
    [by rewrite !callStoredCommand_no_keyword|].
  rewrite !(callStoredCommand_keyword _ s rest _ Hs Hkey (view_of_null_view s rest)).
  - rewrite Hreg, list_find_snoc.
    destruct (list_find _ (registered l)) as [[j d]|] eqn:Hfind; [reflexivity|].
    case_decide as Hnew; [|reflexivity]. exfalso.
    apply Exists_exists in Hex as (d & Hd & Hhash).
    apply list_elem_of_lookup in Hd as [j Hj].
    eapply list_find_None in Hfind. apply (proj1 (Forall_forall _ _) Hfind d).
    + by apply list_elem_of_lookup_2 in Hj.
    + simpl in Hnew. congruence.
  - assumption.
  - rewrite Heq. unfold array_size in *. cbn [snd _commands _commandsIdx].
    rewrite length_insert. lia.
Qed.

Lemma register_shadowed_witness :
  callStoredCommand
    (CommandLookup_registerCommand (crc32_lower (chars "ping")) 3 cmd_function
       (_lookupList two_commands)).2
    (null_view (chars "ping") [])
  = callStoredCommand (_lookupList two_commands) (null_view (chars "ping") []).
Proof.
  apply (register_shadowed (crc32_lower (chars "ping")) 3 cmd_function
           (_lookupList two_commands) (chars "ping") []).
  - vm_compute. lia.
  - apply Exists_cons_hd. vm_compute. reflexivity.
  - nonzero_chars.
  - repeat split.
Defined.

Lemma handler_ok_with_lookupList (l : CommandLookup) (h : CommandHandler) :
  handler_ok h -> (_commandsIdx l <= array_size l)%nat ->
  handler_ok (with_lookupList l h).
Proof. intros (? & ? & ? & _) Hl. by repeat split. Qed.

(** X16. Register, then call: on a handler between two lines, after a
    keyword is registered by its hash with arity [n] for the function [f],
    in a table with room that did not hold that hash, a line whose keyword
    is that keyword in any letter case makes [executeCommand] call [f]
    once with the view and return [NO_ERROR] when [n] is -1 or the number
    [size() - 1]; otherwise it returns [WRONG_NUM_OF_PARAMS] and calls
    nothing. *)
Theorem register_then_execute (kw line : list Z) (n : Z) (f : commandFunction)
    (h : CommandHandler) :
  handler_ok h -> idle h ->
  (_commandsIdx (_lookupList h) < array_size (_lookupList h))%nat ->
  Forall (fun d => dataStruct.hash d <> crc32_lower kw) (registered (_lookupList h)) ->
  - 2 ^ (int_bits - 1) <= n < 2 ^ (int_bits - 1) ->
  LF ∉ line -> NUL ∉ line ->
  (length (payload line) <= COMMAND_SIZE_MAX - 1)%nat ->
  skip_delims (payload line) <> [] ->
  map tolower (first_token (payload line)) = map tolower kw ->
  exists h',
    executeCommand
      (feed (line ++ [LF]) (registerCommand (crc32_lower kw) n f h).2)
    = Some (if bool_decide (n <> -1 /\ n <> size (null_view (payload line) []) - 1)
            then (WRONG_NUM_OF_PARAMS, h', [])
            else (NO_ERROR, h', [call_of f (null_view (payload line) [])])).
Proof.
  intros Hok Hidle Hroom Hfresh Hn Hlf Hnul Hlen Hkey Hcase.
  assert (Hne : (payload line) <> []) by (intros Heq; by rewrite Heq in Hkey).
  destruct (registered_register (crc32_lower kw) n f (_lookupList h) Hroom)
    as [Heq Hreg].
  unfold registerCommand. rewrite Heq in *. cbn [snd] in *.
  set (l' := {| _commands := _; _commandsIdx := _ |}) in *.
  assert (Hidx' : (_commandsIdx l' <= array_size l')%nat).
  { subst l'. unfold array_size in *. cbn [_commands _commandsIdx].
    rewrite length_insert. lia. }
  pose proof (handler_ok_with_lookupList l' h Hok Hidx') as Hok1.
  destruct (feed_line_ready line (with_lookupList l' h) Hok1 Hidle Hlf Hnul Hne Hlen)
    as (Hok2 & Hd2 & Hstr & Htab).
  pose proof (executeCommand_dispatching _ Hok2 Hd2) as Hex.
  rewrite Hstr, Htab in Hex. cbn [with_lookupList _lookupList] in Hex.
  assert (Hs : Forall (fun c => c <> NUL) (payload line))
    by (rewrite <- Hstr; apply until_NUL_nonzero).
  assert (Hhash : crc32_lower (first_token (payload line)) = crc32_lower kw).
  { by rewrite <- (crc32_lower_tolower (first_token (payload line))), Hcase,
      crc32_lower_tolower. }
  unfold dispatch_line in Hex.
  rewrite (callStoredCommand_keyword l' (payload line) [] _ Hs Hkey
             (view_of_null_view (payload line) []) Hidx') in Hex.
  rewrite Hreg, list_find_snoc, Hhash in Hex.
  destruct (list_find _ (registered (_lookupList h))) as [[j d]|] eqn:Hfind.
  { exfalso. apply list_find_Some in Hfind as (Hj & Hd & _).
    apply list_elem_of_lookup_2 in Hj.
    by apply (proj1 (Forall_forall _ _) Hfresh d Hj). }
  rewrite decide_True in Hex by (simpl; by rewrite crc32_lower_uint32).
  cbn [dataStruct.n dataStruct.f mbind option_bind] in Hex.
  change (sub_size NUL (payload line) 1) with (size (null_view (payload line) [])) in Hex.
  rewrite arity_test in Hex.
  - destruct (bool_decide _); cbn [mbind option_bind] in Hex;
      destruct Hex as (b & _ & ->); eexists; [reflexivity|].
    do 3 f_equal. unfold call_of. by rewrite visible_null_view.
  - assumption.
  - unfold size, null_view. cbn [_size].
    pose proof (sub_size_bounds (payload line) NUL 1) as Hb.
    unfold COMMAND_SIZE_MAX, int_bits in *.
    change (2 ^ (16 - 1)) with 32768. change (2 ^ 16) with 65536 in Hb. lia.
Qed.

Lemma register_then_execute_witness :
  exists h',
    executeCommand
      (feed (chars "LED  on" ++ [LF])
         (registerCommand (crc32_lower (chars "led")) 1 ping_function
            two_commands).2)
    = Some (if bool_decide
                 (1 <> -1 /\ 1 <> size (null_view (payload (chars "LED  on")) []) - 1)
            then (WRONG_NUM_OF_PARAMS, h', [])
            else (NO_ERROR, h',
                  [call_of ping_function (null_view (payload (chars "LED  on")) [])])).
Proof.
  apply (register_then_execute (chars "led") (chars "LED  on") 1 ping_function
           two_commands).
  - repeat split; vm_compute; (reflexivity || lia).
  - by repeat split.
  - vm_compute. lia.
  - vm_compute. repeat constructor; discriminate.
  - unfold int_bits. lia.
  - vm_compute. intros Hin.
    repeat (apply elem_of_cons in Hin as [Hin|Hin]; [discriminate|]).
    by apply elem_of_nil in Hin.
  - vm_compute. intros Hin.
    repeat (apply elem_of_cons in Hin as [Hin|Hin]; [discriminate|]).
    by apply elem_of_nil in Hin.
  - vm_compute. lia.
  - vm_compute. discriminate.
  - vm_compute. reflexivity.
Defined.

Lemma uint32_to_long (x : Z) : uint32 (to_long x) = uint32 x.
Proof.
  unfold uint32, to_long. cbv zeta.
  destruct (x mod 2 ^ 32 <? 2 ^ 31).
  - by rewrite Z.mod_mod.
  - rewrite <- (Z.mod_mod x (2 ^ 32)) at 2 by lia.
    symmetry. rewrite <- (Z_mod_plus_full (x mod 2 ^ 32 - 2 ^ 32) 1 (2 ^ 32)).
    f_equal. lia.
Qed.

(** X17. Registering by keyword: the deprecated [registerCommand] that is
    given the keyword as a string registers what the other is given the
    hash of the lower-cased keyword for, so the letter case of the keyword
    does not matter; a keyword with no NUL after it has no defined
    result. *)
Theorem registerCommand_str_hash (mem : list Z) (command : nat) (n : Z)
    (f : commandFunction) (h : CommandHandler) :
  registerCommand_str mem command n f h
  = if decide (NUL ∈ drop command mem)
    then Some (registerCommand
                 (crc32_lower (map tolower (c_str mem command))) n f h)
    else None.
Proof.
  unfold registerCommand_str, CommandLookup_registerCommand_str.
  case_decide as Hin.
  - rewrite crc32b_c_str by assumption. cbn [mbind option_bind].
    rewrite crc32_lower_tolower.
    unfold registerCommand, CommandLookup_registerCommand.
    rewrite uint32_to_long. by destruct (bool_decide _).
  - unfold crc32b. rewrite (crc32b_loop_no_NUL (drop command mem)).
    + reflexivity.
    + apply Forall_forall. intros c Hc ->. contradiction.
    + by rewrite Nat.add_0_r.
Qed.
(** ** The startup command in the EEPROM *)

Lemma until_NUL_take (n : nat) (l : list Z) :
  until_NUL (take n l) = take n (until_NUL l).
Proof.
  revert n. induction l as [|c l IH]; intros [|n]; simpl; try reflexivity.
  destruct (c =? NUL); [reflexivity|]. simpl. by rewrite IH.
Qed.

Lemma until_NUL_is_prefix (l : list Z) :
  until_NUL l = take (length (until_NUL l)) l.
Proof.
  induction l as [|c l IH]; simpl; [reflexivity|].
  destruct (c =? NUL); simpl; [reflexivity|]. by rewrite <- IH.
Qed.

Lemma until_NUL_no_NUL (l : list Z) :
  Forall (fun c => c <> NUL) l -> until_NUL l = l.
Proof.
  induction 1 as [|c l Hc _ IH]; simpl; [reflexivity|].
  destruct (Z.eqb_spec c NUL); [contradiction|]. by rewrite IH.
Qed.

Lemma semis_nonzero (s : list Z) :
  Forall (fun c => c <> NUL) s -> Forall (fun c => c <> NUL) (semis s).
Proof.
  induction 1 as [|c s Hc _ IH]; simpl; constructor; [|assumption].
  destruct (c =? 59); [unfold LF, NUL; lia|assumption].
Qed.

Lemma length_semis (s : list Z) : length (semis s) = length s.
Proof. unfold semis. apply length_map. Qed.

Lemma map_seq_ext (f g : nat -> Z) (a n : nat) :
  (forall x, (a <= x < a + n)%nat -> f x = g x) ->
  map f (seq a n) = map g (seq a n).
Proof. intros H. apply map_ext_in. intros x Hx. apply H. by apply in_seq. Qed.

(** The copying loop of [storeStartupCommand], when the command fits. *)
Lemma store_loop_spec (command : list Z) :
  forall eeprom ptr,
    (ptr + length (until_NUL command) <= EEPROM_SIZE_MAX - 2)%nat ->
    (store_loop command eeprom ptr).2 = (ptr + length (until_NUL command))%nat
    /\ (forall a,
          (a < EEPROM_STORED_COMMAND_LOCATION + ptr
           \/ EEPROM_STORED_COMMAND_LOCATION + ptr + length (until_NUL command)
              <= a)%nat ->
          (store_loop command eeprom ptr).1 a = eeprom a)
    /\ map (store_loop command eeprom ptr).1
         (seq (EEPROM_STORED_COMMAND_LOCATION + ptr)
            (length (until_NUL command)))
       = semis (until_NUL command).
Proof.
  unfold EEPROM_SIZE_MAX.
  induction command as [|c command IH]; intros e ptr;
    cbn [store_loop until_NUL]; [by intros; repeat split; simpl; try reflexivity; lia|].
  destruct (Z.eqb_spec c NUL) as [->|Hc]; simpl negb; cbn [andb];
    [by intros; repeat split; simpl; try reflexivity; lia|].
  cbn [length]. intros Hfit.
  rewrite bool_decide_eq_true_2 by (unfold EEPROM_SIZE_MAX; lia).
  set (e1 := EEPROM_update _ _ e).
  destruct (IH e1 (S ptr)) as (Hp & Hframe & Hmap); [lia|].
  split; [rewrite Hp; lia|]. split.
  - intros a Ha. rewrite Hframe by lia. subst e1. unfold EEPROM_update.
    destruct (Nat.eqb_spec a (EEPROM_STORED_COMMAND_LOCATION + ptr));
      [lia|reflexivity].
  - unfold semis. cbn [seq map]. f_equal.
    + rewrite Hframe by lia. subst e1. unfold EEPROM_update.
      rewrite Nat.eqb_refl. by destruct (c =? 59).
    + replace (S (EEPROM_STORED_COMMAND_LOCATION + ptr))
        with (EEPROM_STORED_COMMAND_LOCATION + S ptr)%nat by lia.
      exact Hmap.
Qed.

(** The loop of [storeStartupCommand] that looks for the end of what is
    stored. *)
Lemma stored_end_spec (eeprom : EEPROM) :
  forall k fuel ptr,
    (k <= fuel)%nat -> (ptr + k = EEPROM_SIZE_MAX - 2)%nat ->
    stored_end fuel eeprom ptr
    = (ptr + length (until_NUL
                       (map eeprom
                          (seq (EEPROM_STORED_COMMAND_LOCATION + ptr) k))))%nat.
Proof.
  unfold EEPROM_SIZE_MAX.
  induction k as [|k IH]; intros fuel ptr Hfuel Hk.
  - destruct fuel; cbn [stored_end seq map until_NUL length]; [lia|].
    rewrite bool_decide_eq_false_2 by (unfold EEPROM_SIZE_MAX; lia). lia.
  - destruct fuel as [|fuel]; [lia|]. cbn [stored_end seq map until_NUL].
    rewrite bool_decide_eq_true_2 by (unfold EEPROM_SIZE_MAX; lia).
    destruct (_ =? NUL); [simpl; lia|].
    rewrite (IH fuel (S ptr)) by lia. cbn [length].
    replace (EEPROM_STORED_COMMAND_LOCATION + S ptr)%nat
      with (S (EEPROM_STORED_COMMAND_LOCATION + ptr)) by lia.
    lia.
Qed.

Lemma length_startup_bytes (eeprom : EEPROM) :
  length (startup_bytes eeprom) = EEPROM_SIZE_MAX.
Proof. unfold startup_bytes. by rewrite length_map, length_seq. Qed.

Lemma kept_nonzero (append : bool) (eeprom : EEPROM) :
  Forall (fun c => c <> NUL) (kept append eeprom).
Proof.
  unfold kept. destruct append; [|constructor].
  apply Forall_take, until_NUL_nonzero.
Qed.

(** Where [storeStartupCommand] starts to write. *)
Lemma stored_end_kept (append : bool) (eeprom : EEPROM) :
  (if append then stored_end (EEPROM_SIZE_MAX - 2) eeprom 0 else 0%nat)
  = length (kept append eeprom)
  /\ kept append eeprom
     = take (length (kept append eeprom)) (startup_bytes eeprom)
  /\ (length (kept append eeprom) <= EEPROM_SIZE_MAX - 2)%nat.
Proof.
  unfold kept. destruct append; [|by repeat split; simpl; lia].
  unfold stored_command. rewrite <- until_NUL_take.
  rewrite (stored_end_spec eeprom (EEPROM_SIZE_MAX - 2)) by lia.
  rewrite Nat.add_0_r, Nat.add_0_l.
  rewrite <- startup_bytes_take by (unfold EEPROM_SIZE_MAX; lia).
  split; [reflexivity|].
  assert (Hle : (length (until_NUL (take (EEPROM_SIZE_MAX - 2) (startup_bytes eeprom)))
                 <= EEPROM_SIZE_MAX - 2)%nat).
  { rewrite until_NUL_take, length_take. lia. }
  split; [|exact Hle].
  rewrite (until_NUL_is_prefix (take _ _)) at 1.
  rewrite take_take. f_equal. lia.
Qed.

(** What [storeStartupCommand] leaves in the EEPROM when the command fits:
    the flag, and among the bytes of the startup command the bytes kept,
    those of the command, a newline and a NUL; the bytes after them are left
    as they were. *)
Lemma storeStartupCommand_bytes (command : list Z) (append : bool)
    (eeprom : EEPROM) :
  (length (kept append eeprom) + length (until_NUL command)
   <= EEPROM_SIZE_MAX - 2)%nat ->
  exists eeprom',
    storeStartupCommand command append eeprom = (NO_ERROR, eeprom')
    /\ eeprom' EEPROM_STORED_COMMAND_FLAG_LOCATION = 1
    /\ startup_bytes eeprom'
       = kept append eeprom ++ semis (until_NUL command) ++ [LF; NUL]
         ++ drop (length (kept append eeprom) + length (until_NUL command) + 2)
              (startup_bytes eeprom).
Proof.
  intros Hfit. unfold storeStartupCommand.
  destruct (stored_end_kept append eeprom) as (-> & Hkept & Hle).
  set (old := kept append eeprom) in *. set (s := until_NUL command) in *.
  rewrite bool_decide_eq_false_2 by lia.
  set (e0 := EEPROM_update EEPROM_STORED_COMMAND_FLAG_LOCATION 1 eeprom).
  destruct (store_loop_spec command e0 (length old) Hfit)
    as (Hp & Hframe & Hmap).
  destruct (store_loop command e0 (length old)) as [e1 p1].
  cbn [fst snd] in Hp, Hframe, Hmap. subst p1. fold s in Hframe, Hmap. fold s.
  eexists. split; [reflexivity|].
  set (e2 := EEPROM_update _ LF e1). set (e3 := EEPROM_update _ NUL e2).
  assert (Hother : forall a,
    (a <> EEPROM_STORED_COMMAND_LOCATION + (length old + length s))%nat ->
    (a <> EEPROM_STORED_COMMAND_LOCATION + S (length old + length s))%nat ->
    e3 a = e1 a).
  { intros a H1 H2. subst e3 e2. unfold EEPROM_update.
    destruct (Nat.eqb_spec a (EEPROM_STORED_COMMAND_LOCATION
                              + S (length old + length s))); [lia|].
    destruct (Nat.eqb_spec a (EEPROM_STORED_COMMAND_LOCATION
                              + (length old + length s))); [lia|].
    reflexivity. }
  unfold EEPROM_STORED_COMMAND_LOCATION, EEPROM_STORED_COMMAND_FLAG_LOCATION,
    EEPROM_SIZE_MAX in *.
  split.
  - rewrite Hother by lia. rewrite Hframe by lia. reflexivity.
  - unfold startup_bytes at 1.
    unfold EEPROM_STORED_COMMAND_LOCATION, EEPROM_STORED_COMMAND_FLAG_LOCATION,
      EEPROM_SIZE_MAX.
    replace 256%nat
      with (length old + (length s + (2 + (254 - length old - length s))))%nat
      by lia.
    rewrite !seq_app, !map_app. f_equal; [|f_equal; [|f_equal]].
    + rewrite Hkept at 2. unfold startup_bytes.
      unfold EEPROM_STORED_COMMAND_LOCATION, EEPROM_STORED_COMMAND_FLAG_LOCATION,
        EEPROM_SIZE_MAX.
      rewrite firstn_map, take_seq, Nat.min_l by lia.
      apply map_seq_ext. intros x Hx.
      rewrite Hother by lia. rewrite Hframe by lia.
      subst e0. unfold EEPROM_update.
      destruct (Nat.eqb_spec x 0); [lia|reflexivity].
    + rewrite <- Hmap. apply map_seq_ext. intros x Hx.
      apply Hother; lia.
    + cbn [seq map]. f_equal; [|f_equal].
      * subst e3 e2. unfold EEPROM_update.
        destruct (Nat.eqb_spec (0 + 1 + length old + length s)
                    (0 + 1 + S (length old + length s))); [lia|].
        replace (0 + 1 + (length old + length s))%nat
          with (0 + 1 + length old + length s)%nat by lia.
        by rewrite Nat.eqb_refl.
      * subst e3. unfold EEPROM_update.
        replace (0 + 1 + S (length old + length s))%nat
          with (S (0 + 1 + length old + length s))%nat by lia.
        by rewrite Nat.eqb_refl.
    + unfold startup_bytes.
      unfold EEPROM_STORED_COMMAND_LOCATION, EEPROM_STORED_COMMAND_FLAG_LOCATION,
        EEPROM_SIZE_MAX.
      rewrite skipn_map, drop_seq.
      replace (256 - (length old + length s + 2))%nat
        with (254 - length old - length s)%nat by lia.
      replace (0 + 1 + (length old + length s + 2))%nat
        with (0 + 1 + length old + length s + 2)%nat by lia.
      apply map_seq_ext. intros x Hx.
      rewrite Hother by lia. rewrite Hframe by lia.
      subst e0. unfold EEPROM_update.
      destruct (Nat.eqb_spec x 0); [lia|reflexivity].
Qed.

(** The startup command after [storeStartupCommand]. *)
Lemma storeStartupCommand_command (command : list Z) (append : bool)
    (eeprom : EEPROM) :
  (length (kept append eeprom) + length (until_NUL command)
   <= EEPROM_SIZE_MAX - 2)%nat ->
  exists eeprom',
    storeStartupCommand command append eeprom = (NO_ERROR, eeprom')
    /\ eeprom' EEPROM_STORED_COMMAND_FLAG_LOCATION = 1
    /\ NUL ∈ startup_bytes eeprom'
    /\ stored_command eeprom'
       = kept append eeprom ++ semis (until_NUL command) ++ [LF].
Proof.
  intros Hfit.
  destruct (storeStartupCommand_bytes command append eeprom Hfit)
    as (e' & Hstore & Hflag & Hbytes).
  exists e'. split; [assumption|]. split; [assumption|].
  unfold stored_command. rewrite Hbytes.
  set (d := drop _ _). split.
  - rewrite !elem_of_app, !elem_of_cons. auto 10.
  - change ([LF; NUL] ++ d) with ([LF] ++ NUL :: d).
    rewrite (app_assoc (semis _)), (app_assoc (kept _ _)).
    apply until_NUL_app. rewrite !Forall_app. split; [apply kept_nonzero|].
    split; [apply semis_nonzero, until_NUL_nonzero|].
    repeat constructor. unfold LF, NUL. lia.
Qed.

(** A command that does not fit. *)
Lemma storeStartupCommand_no_room (command : list Z) (append : bool)
    (eeprom : EEPROM) :
  (EEPROM_SIZE_MAX - 2
   < length (kept append eeprom) + length (until_NUL command))%nat ->
  storeStartupCommand command append eeprom = (EEPROM_FULL, eeprom).
Proof.
  intros Hfull. unfold storeStartupCommand.
  destruct (stored_end_kept append eeprom) as (-> & _ & Hle).
  by rewrite bool_decide_eq_true_2 by lia.
Qed.

(** The loop of [getStartupCommand] with [k] characters still to go:
    [pre] is what the buffer has received, [tail] what is left of it. *)
Lemma getStartup_loop_spec (eeprom : EEPROM) :
  forall k fuel idx pre tail,
    (k < fuel)%nat ->
    (length pre + k = EEPROM_SIZE_MAX - 1)%nat ->
    getStartup_loop fuel eeprom (pre ++ tail) idx (length pre)
    = let s := until_NUL (map eeprom (seq idx k)) in
      if bool_decide (length s <= length tail)%nat
      then Some (pre ++ s ++ drop (length s) tail, (length pre + length s)%nat)
      else None.
Proof.
  unfold EEPROM_SIZE_MAX.
  induction k as [|k IH]; intros fuel idx pre tail Hfuel Hk;
    (destruct fuel as [|fuel]; [lia|]);
    cbn [getStartup_loop seq map until_NUL]; cbv zeta.
  - rewrite bool_decide_eq_false_2 by (unfold EEPROM_SIZE_MAX; lia).
    cbn [length drop app]. rewrite bool_decide_eq_true_2 by lia.
    by rewrite Nat.add_0_r.
  - rewrite bool_decide_eq_true_2 by (unfold EEPROM_SIZE_MAX; lia).
    destruct (eeprom idx =? NUL).
    { cbn [length drop app]. rewrite bool_decide_eq_true_2 by lia.
      by rewrite Nat.add_0_r. }
    rewrite length_app. cbn [length]. destruct tail as [|t tail].
    { cbn [length]. by rewrite !bool_decide_eq_false_2 by lia. }
    cbn [length]. rewrite bool_decide_eq_true_2 by lia.
    replace (<[length pre := eeprom idx]> (pre ++ t :: tail))
      with ((pre ++ [eeprom idx]) ++ tail).
    2: { rewrite insert_app_r_alt by lia. rewrite Nat.sub_diag. simpl.
         by rewrite <- app_assoc. }
    replace (S (length pre)) with (length (pre ++ [eeprom idx]))
      by (rewrite length_app; simpl; lia).
    rewrite (IH fuel (S idx)) by (rewrite ?length_app; simpl; lia).
    cbv zeta. cbn [drop].
    destruct (decide (length (until_NUL (map eeprom (seq (S idx) k)))
                      <= length tail)%nat) as [Hl|Hl].
    + rewrite !bool_decide_eq_true_2 by lia.
      rewrite <- app_assoc, length_app. cbn [length app].
      do 2 f_equal. lia.
    + by rewrite !bool_decide_eq_false_2 by lia.
Qed.

Lemma getStartupCommand_spec (eeprom : EEPROM) (buf : list Z) :
  getStartupCommand eeprom buf
  = let s := if eeprom EEPROM_STORED_COMMAND_FLAG_LOCATION =? 1
             then take (EEPROM_SIZE_MAX - 1) (stored_command eeprom)
             else [] in
    if bool_decide (length s < length buf)%nat
    then Some (s ++ NUL :: drop (S (length s)) buf) else None.
Proof.
  unfold getStartupCommand. cbv zeta.
  destruct (eeprom EEPROM_STORED_COMMAND_FLAG_LOCATION =? 1).
  - rewrite (getStartup_loop_spec eeprom (EEPROM_SIZE_MAX - 1) _ _ [] buf)
      by (unfold EEPROM_SIZE_MAX; simpl; lia).
    cbv zeta. cbn [app length Nat.add].
    rewrite <- startup_bytes_take by (unfold EEPROM_SIZE_MAX; lia).
    rewrite until_NUL_take. fold (stored_command eeprom).
    set (s := take _ (stored_command eeprom)).
    destruct (decide (length s < length buf)%nat) as [Hl|Hl].
    + rewrite bool_decide_eq_true_2 by lia. cbn [mbind option_bind].
      rewrite length_app, length_drop.
      rewrite !bool_decide_eq_true_2 by lia.
      rewrite insert_app_r_alt by lia. rewrite Nat.sub_diag.
      destruct (lookup_lt_is_Some_2 buf (length s) Hl) as [x Hx].
      by rewrite (drop_S _ _ _ Hx).
    + rewrite (bool_decide_eq_false_2 (length s < length buf)%nat) by lia.
      case_bool_decide as Hle; [|reflexivity]. cbn [mbind option_bind].
      rewrite length_app, length_drop.
      by rewrite bool_decide_eq_false_2 by lia.
  - cbn [mbind option_bind length]. destruct buf as [|c buf]; reflexivity.
Qed.

Lemma semis_no_semicolon (s : list Z) : 59 ∉ s -> semis s = s.
Proof.
  induction s as [|c s IH]; intros Hs; [reflexivity|].
  apply not_elem_of_cons in Hs as [Hc Hs]. simpl.
  destruct (Z.eqb_spec c 59); [congruence|]. by rewrite IH.
Qed.

Lemma addCommandChar_not_waiting (c : Z) (h : CommandHandler) :
  c <> LF -> _bufferFull h = false ->
  _bufferFull (addCommandChar c h).2 = false.
Proof.
  intros Hc Hf. unfold addCommandChar. rewrite Hf.
  destruct (Z.eqb_spec c LF); [contradiction|].
  destruct (c =? CR); [assumption|]. by destruct (_ || _).
Qed.

(** Replaying characters that hold no newline feeds them. *)
Lemma replay_no_newline (line : list Z) :
  LF ∉ line ->
  forall rest h calls,
    _bufferFull h = false ->
    replay (line ++ rest) h calls = replay rest (feed line h) calls
    /\ _bufferFull (feed line h) = false.
Proof.
  induction line as [|c line IH]; intros Hlf rest h calls Hf; [by split|].
  apply not_elem_of_cons in Hlf as [Hc Hlf].
  cbn [app replay]. unfold commandWaiting, bufferFull.
  rewrite addCommandChar_not_waiting by (assumption || congruence).
  apply (IH Hlf). apply addCommandChar_not_waiting; (assumption || congruence).
Qed.

(** Replaying one line is executing it. *)
Lemma replay_line (line : list Z) (h : CommandHandler) :
  LF ∉ line -> _bufferFull h = false ->
  replay (line ++ [LF]) h [] = executeCommand (feed (line ++ [LF]) h).
Proof.
  intros Hlf Hf.
  destruct (replay_no_newline line Hlf [LF] h [] Hf) as [-> Hf'].
  rewrite feed_app. cbn [replay feed foldl].
  rewrite addCommandChar_newline by assumption.
  unfold commandWaiting, bufferFull. cbn [_bufferFull].
  destruct (executeCommand _) as [[[r h'] calls']|]; [|reflexivity].
  cbn [mbind option_bind app]. by destruct r.
Qed.

Lemma startup_bytes_wipe (eeprom : EEPROM) :
  startup_bytes (wipeStartupCommand eeprom).2 = startup_bytes eeprom.
Proof.
  unfold startup_bytes, wipeStartupCommand. cbn [snd].
  apply map_seq_ext. intros x Hx. unfold EEPROM_update.
  unfold EEPROM_STORED_COMMAND_LOCATION, EEPROM_STORED_COMMAND_FLAG_LOCATION in *.
  destruct (Nat.eqb_spec x 0); [lia|reflexivity].
Qed.

(** X18. Storing a startup command that fits in the room left (with
    [append], after what is stored, up to its first NUL; without, from the
    start): [NO_ERROR], the flag set, and the stored command is the bytes
    kept, the command with each ';' as a newline, and a newline, with a
    NUL within the bytes that startup reads. *)
Theorem storeStartupCommand_stores (command : list Z) (append : bool)
    (eeprom : EEPROM) :
  (length (kept append eeprom) + length (until_NUL command)
   <= EEPROM_SIZE_MAX - 2)%nat ->
  exists eeprom',
    storeStartupCommand command append eeprom = (NO_ERROR, eeprom')
    /\ eeprom' EEPROM_STORED_COMMAND_FLAG_LOCATION = 1
    /\ NUL ∈ startup_bytes eeprom'
    /\ stored_command eeprom'
       = kept append eeprom ++ semis (until_NUL command) ++ [LF].
Proof. apply storeStartupCommand_command. Qed.

Lemma storeStartupCommand_stores_witness :
  exists eeprom',
    storeStartupCommand (chars "cmd 1 2;ping") true stored_eeprom
    = (NO_ERROR, eeprom')
    /\ eeprom' EEPROM_STORED_COMMAND_FLAG_LOCATION = 1
    /\ NUL ∈ startup_bytes eeprom'
    /\ stored_command eeprom'
       = kept true stored_eeprom ++ semis (until_NUL (chars "cmd 1 2;ping"))
         ++ [LF].
Proof.
  apply (storeStartupCommand_stores (chars "cmd 1 2;ping") true stored_eeprom).
  apply Nat.leb_le. vm_compute. reflexivity.
Defined.

(** X19. A startup command longer than the room left is refused:
    [EEPROM_FULL], and the EEPROM is left as it was. *)
Theorem storeStartupCommand_full (command : list Z) (append : bool)
    (eeprom : EEPROM) :
  (EEPROM_SIZE_MAX - 2
   < length (kept append eeprom) + length (until_NUL command))%nat ->
  storeStartupCommand command append eeprom = (EEPROM_FULL, eeprom).
Proof. apply storeStartupCommand_no_room. Qed.

Lemma storeStartupCommand_full_witness :
  storeStartupCommand (replicate 242 65) true stored_eeprom
  = (EEPROM_FULL, stored_eeprom).
Proof.
  apply (storeStartupCommand_full (replicate 242 65) true stored_eeprom).
  apply Nat.ltb_lt. vm_compute. reflexivity.
Defined.

(** X20. [getStartupCommand] on a buffer: with the flag at 1 it writes
    the stored command, cut to [EEPROM_SIZE_MAX - 1] characters, and a NUL
    after it; with any other flag, a NUL at the start; the bytes of the
    buffer after that NUL are not touched.  A buffer with no room for the
    NUL is written past its end, which has no defined result. *)
Theorem getStartupCommand_reads (eeprom : EEPROM) (buf : list Z) :
  getStartupCommand eeprom buf
  = let s := if eeprom EEPROM_STORED_COMMAND_FLAG_LOCATION =? 1
             then take (EEPROM_SIZE_MAX - 1) (stored_command eeprom)
             else [] in
    if bool_decide (length s < length buf)%nat
    then Some (s ++ NUL :: drop (S (length s)) buf) else None.
Proof. apply getStartupCommand_spec. Qed.

(** X21. Store, then read back: after a [storeStartupCommand] that fits,
    [getStartupCommand] on a buffer of [EEPROM_SIZE_MAX] bytes or more
    gives the bytes kept, the command with each ';' as a newline, and a
    newline, as a C string. *)
Theorem store_get_round_trip (command : list Z) (append : bool)
    (eeprom : EEPROM) (buf : list Z) :
  (length (kept append eeprom) + length (until_NUL command)
   <= EEPROM_SIZE_MAX - 2)%nat ->
  (EEPROM_SIZE_MAX <= length buf)%nat ->
  exists buf',
    getStartupCommand (storeStartupCommand command append eeprom).2 buf
    = Some buf'
    /\ length buf' = length buf
    /\ c_str buf' 0
       = kept append eeprom ++ semis (until_NUL command) ++ [LF].
Proof.
  intros Hfit Hbuf.
  destruct (storeStartupCommand_command command append eeprom Hfit)
    as (e' & -> & Hflag & _ & Hcmd).
  cbn [snd]. rewrite getStartupCommand_spec, Hflag, Hcmd. cbn [Z.eqb Pos.eqb].
  cbv zeta.
  set (s := kept append eeprom ++ semis (until_NUL command) ++ [LF]).
  assert (Hs : (length s <= EEPROM_SIZE_MAX - 1)%nat).
  { subst s. rewrite !length_app, length_semis. simpl.
    unfold EEPROM_SIZE_MAX in *. lia. }
  rewrite take_ge by lia.
  unfold EEPROM_SIZE_MAX in *.
  rewrite bool_decide_eq_true_2 by lia.
  eexists. split; [reflexivity|]. split.
  - rewrite length_app. cbn [length]. rewrite length_drop. lia.
  - unfold c_str. rewrite drop_0. apply until_NUL_app.
    subst s. rewrite !Forall_app. split; [apply kept_nonzero|].
    split; [apply semis_nonzero, until_NUL_nonzero|].
    repeat constructor. unfold LF, NUL. lia.
Qed.

Lemma store_get_round_trip_witness :
  exists buf',
    getStartupCommand
      (storeStartupCommand (chars "ping;cmd 1 2") false (eeprom_of [])).2
      (replicate 256 88)
    = Some buf'
    /\ length buf' = length (replicate 256 88)
    /\ c_str buf' 0
       = kept false (eeprom_of []) ++ semis (until_NUL (chars "ping;cmd 1 2"))
         ++ [LF].
Proof.
  apply (store_get_round_trip (chars "ping;cmd 1 2") false (eeprom_of [])
           (replicate 256 88)).
  - apply Nat.leb_le. vm_compute. reflexivity.
  - apply Nat.leb_le. vm_compute. reflexivity.
Defined.

(** X22. Store, then start up: after a [storeStartupCommand] that fits,
    [executeStartupCommands] is the replay of the bytes kept, the command
    with each ';' as a newline, and a newline. *)
Theorem executeStartupCommands_after_store (command : list Z) (append : bool)
    (eeprom : EEPROM) (h : CommandHandler) :
  (length (kept append eeprom) + length (until_NUL command)
   <= EEPROM_SIZE_MAX - 2)%nat ->
  executeStartupCommands (storeStartupCommand command append eeprom).2 h
  = replay (kept append eeprom ++ semis (until_NUL command) ++ [LF]) h [].
Proof.
  intros Hfit.
  destruct (storeStartupCommand_command command append eeprom Hfit)
    as (e' & -> & Hflag & Hin & Hcmd).
  cbn [snd]. rewrite <- Hcmd. by apply executeStartupCommands_terminated.
Qed.

Lemma executeStartupCommands_after_store_witness :
  executeStartupCommands
    (storeStartupCommand (chars "ping") true stored_eeprom).2 two_commands
  = replay (kept true stored_eeprom ++ semis (until_NUL (chars "ping")) ++ [LF])
      two_commands [].
Proof.
  apply (executeStartupCommands_after_store (chars "ping") true stored_eeprom
           two_commands).
  apply Nat.leb_le. vm_compute. reflexivity.
Defined.

(** X23. A stored line runs at startup as if it had been received: for a
    line with no NUL, ';' or newline, of at most [EEPROM_SIZE_MAX - 2]
    characters, stored without [append], [executeStartupCommands] on a
    handler with no command waiting is [executeCommand] after the line and
    a newline have gone through [addCommandChar]. *)
Theorem store_startup_line (line : list Z) (eeprom : EEPROM)
    (h : CommandHandler) :
  NUL ∉ line -> 59 ∉ line -> LF ∉ line ->
  (length line <= EEPROM_SIZE_MAX - 2)%nat ->
  commandWaiting h = false ->
  executeStartupCommands (storeStartupCommand line false eeprom).2 h
  = executeCommand (feed (line ++ [LF]) h).
Proof.
  intros Hnul Hsemi Hlf Hlen Hw.
  assert (Hline : until_NUL line = line).
  { apply until_NUL_no_NUL, Forall_forall. intros c Hc ->. contradiction. }
  destruct (storeStartupCommand_command line false eeprom)
    as (e' & -> & Hflag & Hin & Hcmd);
    [rewrite Hline; cbn [kept length Nat.add]; exact Hlen|].
  cbn [snd]. rewrite executeStartupCommands_terminated by assumption.
  rewrite Hcmd, Hline, semis_no_semicolon by assumption.
  cbn [kept app]. by apply replay_line.
Qed.

Lemma store_startup_line_witness :
  executeStartupCommands
    (storeStartupCommand (chars "cmd 1 2") false (eeprom_of [])).2 two_commands
  = executeCommand (feed (chars "cmd 1 2" ++ [LF]) two_commands).
Proof.
  apply (store_startup_line (chars "cmd 1 2") (eeprom_of []) two_commands).
  - vm_compute. intros Hin.
    repeat (apply elem_of_cons in Hin as [Hin|Hin]; [discriminate|]).
    by apply elem_of_nil in Hin.
  - vm_compute. intros Hin.
    repeat (apply elem_of_cons in Hin as [Hin|Hin]; [discriminate|]).
    by apply elem_of_nil in Hin.
  - vm_compute. intros Hin.
    repeat (apply elem_of_cons in Hin as [Hin|Hin]; [discriminate|]).
    by apply elem_of_nil in Hin.
  - apply Nat.leb_le. vm_compute. reflexivity.
  - reflexivity.
Defined.

(** X24. [wipeStartupCommand] hides the startup command and does not erase
    it: after it [executeStartupCommands] returns [NO_COMMAND_WAITING]
    and leaves the handler alone, and [getStartupCommand] gives the empty
    string; but a [storeStartupCommand] with [append] that fits then
    brings back the bytes that were stored, in front of the new command. *)
Theorem wipeStartupCommand_keeps_bytes (command : list Z) (eeprom : EEPROM)
    (h : CommandHandler) (buf : list Z) :
  (length (kept true eeprom) + length (until_NUL command)
   <= EEPROM_SIZE_MAX - 2)%nat ->
  buf <> [] ->
  executeStartupCommands (wipeStartupCommand eeprom).2 h
  = Some (NO_COMMAND_WAITING, h, [])
  /\ getStartupCommand (wipeStartupCommand eeprom).2 buf
     = Some (NUL :: drop 1 buf)
  /\ exists eeprom',
       storeStartupCommand command true (wipeStartupCommand eeprom).2
       = (NO_ERROR, eeprom')
       /\ eeprom' EEPROM_STORED_COMMAND_FLAG_LOCATION = 1
       /\ stored_command eeprom'
          = kept true eeprom ++ semis (until_NUL command) ++ [LF].
Proof.
  intros Hfit Hbuf.
  assert (Hkept : kept true (wipeStartupCommand eeprom).2 = kept true eeprom).
  { unfold kept, stored_command. by rewrite startup_bytes_wipe. }
  split; [reflexivity|]. split.
  - rewrite getStartupCommand_spec. cbn.
    destruct buf as [|c buf]; [contradiction|]. reflexivity.
  - destruct (storeStartupCommand_command command true
                (wipeStartupCommand eeprom).2)
      as (e' & Hstore & Hflag & _ & Hcmd); [by rewrite Hkept|].
    exists e'. by rewrite <- Hkept.
Qed.

Lemma wipeStartupCommand_keeps_bytes_witness :
  executeStartupCommands (wipeStartupCommand stored_eeprom).2 two_commands
  = Some (NO_COMMAND_WAITING, two_commands, [])
  /\ getStartupCommand (wipeStartupCommand stored_eeprom).2 (replicate 256 88)
     = Some (NUL :: drop 1 (replicate 256 88))
  /\ exists eeprom',
       storeStartupCommand (chars "ping") true (wipeStartupCommand stored_eeprom).2
       = (NO_ERROR, eeprom')
       /\ eeprom' EEPROM_STORED_COMMAND_FLAG_LOCATION = 1
       /\ stored_command eeprom'
          = kept true stored_eeprom ++ semis (until_NUL (chars "ping")) ++ [LF].
Proof.
  apply (wipeStartupCommand_keeps_bytes (chars "ping") stored_eeprom
           two_commands (replicate 256 88)).
  - apply Nat.leb_le. vm_compute. reflexivity.
  - discriminate.
Defined.

(** X25. Startup from an EEPROM with no NUL: with the flag at 1 and no NUL
    among the [EEPROM_SIZE_MAX] bytes after it, [executeStartupCommands]
    replays those bytes and then passes one more newline to
    [addCommandChar], which it does not execute; the result is that of the
    replay. *)
Theorem executeStartupCommands_no_NUL (eeprom : EEPROM) (h : CommandHandler) :
  eeprom EEPROM_STORED_COMMAND_FLAG_LOCATION = 1 ->
  NUL ∉ startup_bytes eeprom ->
  executeStartupCommands eeprom h
  = '(r, h', calls) ← replay (startup_bytes eeprom) h [];
    Some (r, (addCommandChar LF h').2, calls).
Proof. apply executeStartupCommands_unterminated. Qed.

Lemma executeStartupCommands_no_NUL_witness :
  executeStartupCommands unterminated_eeprom fresh
  = '(r, h', calls) ← replay (startup_bytes unterminated_eeprom) fresh [];
    Some (r, (addCommandChar LF h').2, calls).
Proof.
  apply (executeStartupCommands_no_NUL unterminated_eeprom fresh).
  - reflexivity.
  - intros Hin. vm_compute in Hin.
    repeat (apply elem_of_cons in Hin as [Hin|Hin]; [discriminate|]).
    by apply elem_of_nil in Hin.
Defined.

(** * Where the code departs from its documentation *)

(** ** Lines with no keyword *)

Lemma blank_no_keyword (s : list Z) :
  Forall (fun c => c = SPACE \/ c = TAB) s ->
  skip_delims s = [] /\ Forall (fun c => c <> NUL) s
  /\ forall n, token_offset n false s = None.
Proof.
  induction 1 as [|c s Hc _ (IH1 & IH2 & IH3)]; [by repeat split|].
  assert (Hd : is_delim c = true)
    by (unfold is_delim; destruct Hc as [-> | ->]; reflexivity).
  split; [|split].
  - simpl. by rewrite Hd.
  - constructor; [|assumption].
    destruct Hc as [-> | ->]; unfold SPACE, TAB, NUL; lia.
  - intros n. simpl. by rewrite Hd, IH3.
Qed.

(** C3. On a view over a command made of spaces and tabs only (the empty
    command too), in either form, [operator[]] gives the null pointer for
    token 0, and [callStoredCommand], which passes it to [crc32b], reads
    through the null pointer: whatever the table, the call has no defined
    result, where a code was to be returned. *)
Theorem callStoredCommand_no_token_0 (l : CommandLookup) (s rest : list Z)
    (p : ParameterLookup) :
  Forall (fun c => c = SPACE \/ c = TAB) s ->
  view_of s rest p ->
  op_index 0 p = Some (null_view s rest, None)
  /\ callStoredCommand l p = None.
Proof.
  intros Hblank Hv. destruct (blank_no_keyword s Hblank) as (Hnone & Hs & Hoff).
  split.
  - rewrite (op_index_null_view s rest p 0 Hs Hv) by lia.
    cbn [Z.leb Z.compare]. by rewrite Hoff.
  - rewrite (callStoredCommand_any_form l s rest p Hs Hv).
    by apply callStoredCommand_no_keyword.
Qed.

Lemma callStoredCommand_no_token_0_witness :
  ParameterLookup_new [SPACE; NUL] = Some (null_view [SPACE] [])
  /\ op_index 0 (null_view [SPACE] []) = Some (null_view [SPACE] [], None)
  /\ callStoredCommand (_lookupList two_commands) (null_view [SPACE] []) = None.
Proof.
  split; [reflexivity|].
  apply (callStoredCommand_no_token_0 (_lookupList two_commands) [SPACE] []
           (null_view [SPACE] [])).
  - repeat constructor.
  - apply view_of_null_view.
Defined.

Lemma payload_blank (s : list Z) :
  Forall (fun c => c = SPACE \/ c = TAB) s -> payload s = s.
Proof.
  unfold payload. induction 1 as [|c s Hc _ IH]; [reflexivity|].
  rewrite filter_cons_True
    by (destruct Hc as [-> | ->]; unfold SPACE, TAB, CR; lia).
  by f_equal.
Qed.

(** C6. On a handler between two lines, a line of spaces and tabs, at most
    [COMMAND_SIZE_MAX - 1] of them and at least one, and its newline leave
    a command waiting, and the [executeCommand] that follows goes on to
    [callStoredCommand], which reads through the null pointer that token 0
    is: the call has no defined result, and the buffer is not cleared by
    it. *)
Theorem executeCommand_blank_line_no_result (line : list Z)
    (h : CommandHandler) :
  handler_ok h -> idle h ->
  line <> [] ->
  Forall (fun c => c = SPACE \/ c = TAB) line ->
  (length line <= COMMAND_SIZE_MAX - 1)%nat ->
  commandWaiting (feed (line ++ [LF]) h) = true
  /\ c_str (_inputBuffer (feed (line ++ [LF]) h)) 0 = line
  /\ executeCommand (feed (line ++ [LF]) h) = None.
Proof.
  intros Hok Hidle Hne Hblank Hlen.
  destruct (blank_no_keyword line Hblank) as (Hnone & Hs & _).
  pose proof (payload_blank line Hblank) as Hpay.
  destruct (feed_line_ready line h Hok Hidle) as (Hok1 & Hd1 & Hstr & Htab).
  - intros Hin. apply (proj1 (Forall_forall _ _) Hblank) in Hin.
    destruct Hin as [Hin|Hin]; unfold LF, SPACE, TAB in Hin; lia.
  - intros Hin. by apply (proj1 (Forall_forall _ _) Hs) in Hin.
  - by rewrite Hpay.
  - by rewrite Hpay.
  - rewrite Hpay in Hstr. split; [apply Hd1|]. split; [assumption|].
    pose proof (executeCommand_dispatching _ Hok1 Hd1) as Hex.
    rewrite Hstr in Hex. unfold dispatch_line in Hex.
    by rewrite callStoredCommand_no_keyword in Hex.
Qed.

Lemma executeCommand_blank_line_no_result_witness :
  commandWaiting (feed ([SPACE] ++ [LF]) two_commands) = true
  /\ c_str (_inputBuffer (feed ([SPACE] ++ [LF]) two_commands)) 0 = [SPACE]
  /\ executeCommand (feed ([SPACE] ++ [LF]) two_commands) = None.
Proof.
  apply (executeCommand_blank_line_no_result [SPACE] two_commands).
  - repeat split; vm_compute; (reflexivity || lia).
  - by repeat split.
  - discriminate.
  - repeat constructor.
  - vm_compute. lia.
Defined.

